(** * A shallow embedding of the multithreaded file scanner

    Sources embedded here:
    - [landrys-file-scanner/landrys-file-scanner.cpp] (the [ScanContext]
      version; the unnamed sibling with global variables has the same
      traversal, queue and filter code);
    - [fast_scan4.cpp] (the earlier version without extension filter), in
      [Module FastScan4], where it differs.

    Conventions.
    - [std::wstring] is a list of code units ([N]); all strings of the
      program come from NUL-terminated C strings ([argv], [cFileName]) and
      concatenations of them.
    - [std::string] is [string]; an output buffer is kept as the list of the
      records appended to it, its byte size is the sum of their lengths.
    - [std::atomic<int>] and [std::atomic<long long>] are [Z] with the
      two's-complement wrap-around written out.
    - The Win32 calls [FindFirstFileExW]/[FindNextFileW] and
      [WideCharToMultiByte] are parameters of the development, and so is
      [std::stoul] in [parse_arguments]; an exception that leaves
      [parse_arguments] is a result of its own.
    - [argv] is a list of [string]s; [unsigned long] has 32 bits and
      [size_t] 64, as on the platform of the Win32 calls.
    - Threads are interleaved by a labelled step function; a critical section
      guarded by [q_m] is one step, except for the window between testing the
      wait predicate and blocking in [q_cv.wait], which is kept visible. *)

From stdpp Require Import base list.
From Stdlib Require Import ZArith NArith String Ascii Lia.

Local Open Scope Z_scope.

(** * Data and primitive operations *)

(** ** Wide strings *)

Definition wchar := N.

Definition wstring := list wchar.

(** The wide literal [L"..."] of an ASCII text. *)
Definition L (s : string) : wstring := map N_of_ascii (list_ascii_of_string s).

Definition wchar_eqb (a b : wchar) : bool := N.eqb a b.

(** [towlower] in the "C" locale (the program never calls [setlocale]). *)
Definition towlower (c : wchar) : wchar :=
  if (N.leb 65 c && N.leb c 90)%bool then (c + 32)%N else c.

(** [_wcsicmp(a, b) == 0]. *)
Fixpoint wcsicmp (a b : wstring) : bool :=
  match a, b with
  | [], [] => true
  | x :: a', y :: b' => wchar_eqb (towlower x) (towlower y) && wcsicmp a' b'
  | _, _ => false
  end.

(** [_wcsnicmp(a, b, n) == 0]: at most [n] code units are compared. *)
Fixpoint wcsnicmp (a b : wstring) (n : nat) : bool :=
  match n with
  | O => true
  | S n' =>
      match a, b with
      | [], [] => true
      | x :: a', y :: b' => wchar_eqb (towlower x) (towlower y) && wcsnicmp a' b' n'
      | _, _ => false
      end
  end.

(** [size_t] arithmetic and [std::wstring::npos]. *)
Definition size_t_mod : Z := 2 ^ 64.

Definition npos : Z := size_t_mod - 1.

Fixpoint starts_with (pat s : wstring) : bool :=
  match pat, s with
  | [], _ => true
  | p :: pat', x :: s' => wchar_eqb p x && starts_with pat' s'
  | _ :: _, [] => false
  end.

(** [s.find(pat)], searching from position [pos] of the original string. *)
Fixpoint wfind_from (pat s : wstring) (pos : Z) : Z :=
  if starts_with pat s then pos
  else match s with
       | [] => npos
       | _ :: s' => wfind_from pat s' (pos + 1)
       end.

Definition wfind (s pat : wstring) : Z := wfind_from pat s 0.

(** [s.find_last_of(c)]: the last position holding [c], or [npos]. *)
Fixpoint find_last_of_from (c : wchar) (s : wstring) (pos acc : Z) : Z :=
  match s with
  | [] => acc
  | x :: s' => find_last_of_from c s' (pos + 1) (if wchar_eqb x c then pos else acc)
  end.

Definition find_last_of (s : wstring) (c : wchar) : Z := find_last_of_from c s 0 npos.

(** [s.substr(pos)] for [pos <= s.size()]. *)
Definition substr (s : wstring) (pos : Z) : wstring := drop (Z.to_nat pos) s.

Definition wempty (s : wstring) : bool :=
  match s with [] => true | _ => false end.

(** [dir_queue.empty()] *)
Definition qempty (q : list wstring) : bool :=
  match q with [] => true | _ => false end.

Definition backslash : wchar := 92%N.

Definition dot : wchar := 46%N.

(** ** Directory entries *)

Record WIN32_FIND_DATAW := {
  dwFileAttributes : N;
  cFileName : wstring;
}.

Definition FILE_ATTRIBUTE_DIRECTORY : N := 16.

Definition is_directory (fdata : WIN32_FIND_DATAW) : bool :=
  negb (N.eqb (N.land (dwFileAttributes fdata) FILE_ATTRIBUTE_DIRECTORY) 0).

(** [cFileName] is a NUL-terminated array: reading past the text yields 0. *)
Definition name_at (name : wstring) (i : nat) : wchar := nth i name 0%N.

(** The test that skips "." and "..". *)
Definition is_dot_or_dotdot (name : wstring) : bool :=
  wchar_eqb (name_at name 0) dot &&
  (wchar_eqb (name_at name 1) 0%N ||
   (wchar_eqb (name_at name 1) dot && wchar_eqb (name_at name 2) 0%N)).

(** [dir + L"\\" + fdata.cFileName]. *)
Definition child_path (dir : wstring) (fdata : WIN32_FIND_DATAW) : wstring :=
  dir ++ backslash :: cFileName fdata.

(** ** Configuration and shared context *)

(** The settings that [parse_arguments] leaves in the context. *)
Record Config := {
  ROOT_DIR : wstring;
  PREFIX : wstring;
  OUTPUT_BUFFER_FLUSH_COUNT : Z;
  file_types : list wstring;
}.

(** The state shared by all threads ([ScanContext] without its constant
    configuration, mutexes and condition variable). *)
Record ScanContext := {
  dir_queue : list wstring;
  active_dir_count : Z;
  done : bool;
  out_fp : list string;
  file_count : Z;
}.

(** Two's-complement wrap-around of a [bits]-wide signed integer. *)
Definition wrap (bits x : Z) : Z := (x + 2 ^ (bits - 1)) mod 2 ^ bits - 2 ^ (bits - 1).

Definition int_wrap : Z -> Z := wrap 32.

Definition llong_wrap : Z -> Z := wrap 64.

Definition INT_MAX : Z := 2 ^ 31 - 1.

Definition LLONG_MAX : Z := 2 ^ 63 - 1.

(** [{ lock_guard lk(q_m); dir_queue.push(subdir); active_dir_count++; }] *)
Definition enqueue (c : ScanContext) (subdir : wstring) : ScanContext :=
  {| dir_queue := dir_queue c ++ [subdir];
     active_dir_count := int_wrap (active_dir_count c + 1);
     done := done c; out_fp := out_fp c; file_count := file_count c |}.

(** [dir_queue.pop()] *)
Definition set_queue (c : ScanContext) (q : list wstring) : ScanContext :=
  {| dir_queue := q; active_dir_count := active_dir_count c;
     done := done c; out_fp := out_fp c; file_count := file_count c |}.

(** [active_dir_count--] *)
Definition mark_complete (c : ScanContext) : ScanContext :=
  {| dir_queue := dir_queue c;
     active_dir_count := int_wrap (active_dir_count c - 1);
     done := done c; out_fp := out_fp c; file_count := file_count c |}.

(** [file_count.fetch_add(1)] *)
Definition count_file (c : ScanContext) : ScanContext :=
  {| dir_queue := dir_queue c; active_dir_count := active_dir_count c;
     done := done c; out_fp := out_fp c;
     file_count := llong_wrap (file_count c + 1) |}.

(** [fwrite(buffer.data(), 1, buffer.size(), out_fp)] under [out_m]. *)
Definition fwrite (c : ScanContext) (buffer : list string) : ScanContext :=
  {| dir_queue := dir_queue c; active_dir_count := active_dir_count c;
     done := done c; out_fp := out_fp c ++ buffer; file_count := file_count c |}.

(** [done.store(true)] *)
Definition store_done (c : ScanContext) : ScanContext :=
  {| dir_queue := dir_queue c; active_dir_count := active_dir_count c;
     done := true; out_fp := out_fp c; file_count := file_count c |}.

(** [buffer.size()] in bytes. *)
Definition buf_size (buffer : list string) : Z :=
  fold_right (fun r acc => Z.of_nat (String.length r) + acc) 0 buffer.

Definition newline : string := String (ascii_of_nat 10) EmptyString.

(** The UTF-8 byte-order mark followed by the CSV header. *)
Definition header : string :=
  String (ascii_of_nat 239) (String (ascii_of_nat 187) (String (ascii_of_nat 191)
    ("File Path" ++ newline))).

(** ** Threads *)

(** Where a worker stands in [directory_processing_worker]. *)
Inductive wpc :=
| AtWait                       (* top of the loop: lock q_m, test the wait predicate *)
| Parking                      (* predicate false, q_m held, about to block in wait *)
| Blocked                      (* inside q_cv.wait, q_m released *)
| Holding (current_dir : wstring)      (* left the critical section *)
| Enumerating (dir : wstring) (rest : list WIN32_FIND_DATAW)   (* in the do-while *)
| Notifying (dir : wstring) (rest : list WIN32_FIND_DATAW)     (* before q_cv.notify_one *)
| FinalFlush                   (* left the loop *)
| Exited.

Record worker := {
  pc : wpc;
  local_out_buf : list string;
}.

(** Where the main thread stands after launching the workers. *)
Inductive mpc :=
| Polling      (* in the loop around wait_for *)
| SetDone      (* before done.store(true) *)
| NotifyAll    (* before q_cv.notify_all() *)
| Joining      (* in the join loop *)
| Closed.      (* after fclose *)

Record state := {
  ctx : ScanContext;
  q_m : option nat;       (* the worker holding q_m between two steps *)
  threads : list worker;
  main_pc : mpc;
}.

Definition at_pc (p : wpc) (w : worker) : worker :=
  {| pc := p; local_out_buf := local_out_buf w |}.

Definition update (s : state) (c : ScanContext) (m : option nat) (i : nat) (w : worker) : state :=
  {| ctx := c; q_m := m; threads := <[i := w]> (threads s); main_pc := main_pc s |}.

Definition is_blocked (w : worker) : bool :=
  match pc w with Blocked => true | _ => false end.

Definition is_exited (w : worker) : bool :=
  match pc w with Exited => true | _ => false end.

(** A thread leaving [q_cv.wait] goes back to re-lock and re-test. *)
Definition wake (w : worker) : worker :=
  if is_blocked w then at_pc AtWait w else w.

(** What the body of the do-while does with one entry. *)
Inductive entry_action :=
| Skip
| Push (subdir : wstring)
| Append (line : string)
| ConversionFailed.

(** [dir + L"\\*"] *)
Definition search_pattern (dir : wstring) : wstring := dir ++ L "\*".

(** ** Scheduling and counting *)

(** Who makes the next step: a worker, a worker's [notify_one] with the
    thread it wakes, a spurious wake-up, or the main thread. *)
Inductive label :=
| Worker (i : nat)
| NotifyOne (i : nat) (target : option nat)
| SpuriousWake (j : nat)
| Main.

(** The sum of [f] over a list. *)
Definition sumZ {A} (f : A -> Z) (l : list A) : Z :=
  fold_right (fun a acc => f a + acc) 0 l.

(** The number of occurrences of a record in a list of records. *)
Definition occZ (x : string) (l : list string) : Z := Z.of_nat (count_occ string_dec l x).

(** 1 when the record [a] is [x]. *)
Definition occ1 (x a : string) : Z := if string_dec a x then 1 else 0.

(** 1 when the worker holds a dequeued directory it has not yet marked
    complete. *)
Definition in_flight_at (p : wpc) : Z :=
  match p with
  | Holding d => if wempty d then 0 else 1
  | Enumerating _ _ | Notifying _ _ => 1
  | _ => 0
  end.

(** 1 when [w] holds a directory. *)
Definition in_flight (w : worker) : Z := in_flight_at (pc w).

(** The number of records in the private buffer of [w]. *)
Definition buffered (w : worker) : Z := Z.of_nat (List.length (local_out_buf w)).

(** ** The command line *)

(** [std::wstring(first, last)] over a range of [char]: every [char] is
    converted to [wchar_t].  [char] is signed and [wchar_t] has 16 bits, so
    a byte from 128 on is sign-extended; ASCII is kept. *)
Definition wchar_of_char (c : ascii) : wchar :=
  let n := N_of_ascii c in if N.ltb n 128 then n else (n + 65280)%N.

Definition widen (s : string) : wstring := map wchar_of_char (list_ascii_of_string s).

(** [arg.find(option) == 0]: the first occurrence of [option] in [arg] is
    at position 0. *)
Definition found_at_0 (arg option : string) : bool :=
  match index 0 option arg with
  | Some O => true
  | _ => false
  end.

(** [arg.substr(pos)] and the range [arg.begin() + pos, arg.end()], for
    [pos <= arg.size()]. *)
Fixpoint str_substr (arg : string) (pos : nat) {struct pos} : string :=
  match pos, arg with
  | O, _ => arg
  | S pos', String _ arg' => str_substr arg' pos'
  | S _, EmptyString => EmptyString
  end.

Definition comma : wchar := 44%N.

(** The loop of the [--filetypes=] branch:
    [while ((pos = extensions.find(L",")) != npos)
       { file_types.push_back(extensions.substr(0, pos)); extensions.erase(0, pos + 1); }
     file_types.push_back(extensions);]
    Every iteration erases at least one code unit, so [fuel] iterations are
    enough for a text of [fuel] code units. *)
Fixpoint push_extensions (fuel : nat) (file_types : list wstring) (extensions : wstring)
  : list wstring :=
  let pos := wfind extensions (L ",") in
  if Z.eqb pos npos then file_types ++ [extensions]
  else match fuel with
       | O => file_types ++ [extensions]
       | S fuel' =>
           push_extensions fuel' (file_types ++ [take (Z.to_nat pos) extensions])
                           (drop (Z.to_nat (pos + 1)) extensions)
       end.

(** What [parse_arguments] writes in the context: the configuration and the
    name of the output file. *)
Record Settings := {
  config : Config;
  OUTPUT_FILE : string;
}.

(** A default-constructed [ScanContext]. *)
Definition default_settings : Settings :=
  {| config := {| ROOT_DIR := []; PREFIX := []; OUTPUT_BUFFER_FLUSH_COUNT := 5000;
                  file_types := [] |};
     OUTPUT_FILE := "file_list.csv" |}.

Definition set_ROOT_DIR (o : Settings) (v : wstring) : Settings :=
  {| config := {| ROOT_DIR := v; PREFIX := PREFIX (config o);
                  OUTPUT_BUFFER_FLUSH_COUNT := OUTPUT_BUFFER_FLUSH_COUNT (config o);
                  file_types := file_types (config o) |};
     OUTPUT_FILE := OUTPUT_FILE o |}.

Definition set_PREFIX (o : Settings) (v : wstring) : Settings :=
  {| config := {| ROOT_DIR := ROOT_DIR (config o); PREFIX := v;
                  OUTPUT_BUFFER_FLUSH_COUNT := OUTPUT_BUFFER_FLUSH_COUNT (config o);
                  file_types := file_types (config o) |};
     OUTPUT_FILE := OUTPUT_FILE o |}.

Definition set_OUTPUT_BUFFER_FLUSH_COUNT (o : Settings) (v : Z) : Settings :=
  {| config := {| ROOT_DIR := ROOT_DIR (config o); PREFIX := PREFIX (config o);
                  OUTPUT_BUFFER_FLUSH_COUNT := v;
                  file_types := file_types (config o) |};
     OUTPUT_FILE := OUTPUT_FILE o |}.

Definition set_file_types (o : Settings) (v : list wstring) : Settings :=
  {| config := {| ROOT_DIR := ROOT_DIR (config o); PREFIX := PREFIX (config o);
                  OUTPUT_BUFFER_FLUSH_COUNT := OUTPUT_BUFFER_FLUSH_COUNT (config o);
                  file_types := v |};
     OUTPUT_FILE := OUTPUT_FILE o |}.

Definition set_OUTPUT_FILE (o : Settings) (v : string) : Settings :=
  {| config := config o; OUTPUT_FILE := v |}.

(** The exceptions of [std::stoul]. *)
Inductive exception := invalid_argument | out_of_range.

(** [unsigned long] has 32 bits. *)
Definition ULONG_MOD : Z := 2 ^ 32.

(** How one iteration of the argument loop ends. *)
Inductive control :=
| Next (o : Settings)
| Return (result : bool) (o : Settings)
| Throw (e : exception).

Section ParseArguments.

(** [std::stoul]: the converted value, or the exception it throws. *)
Variable stoul : string -> exception + Z.

(** The body of the loop of [parse_arguments] for [argv[i]]. *)
Definition parse_argument (arg : string) (o : Settings) : control :=
  if found_at_0 arg "--path=" then Next (set_ROOT_DIR o (widen (str_substr arg 7)))
  else if found_at_0 arg "--prefix=" then Next (set_PREFIX o (widen (str_substr arg 9)))
  else if found_at_0 arg "--buffer=" then
    match stoul (str_substr arg 9) with
    | inl e => Throw e
    | inr v => Next (set_OUTPUT_BUFFER_FLUSH_COUNT o ((v * 1000) mod ULONG_MOD / 256))
    end
  else if found_at_0 arg "--output=" then Next (set_OUTPUT_FILE o (str_substr arg 9))
  else if found_at_0 arg "--filetypes=" then
    let extensions := widen (str_substr arg 12) in
    Next (set_file_types o (push_extensions (List.length extensions)
                                            (file_types (config o)) extensions))
  else if String.eqb arg "--help" then Return false o
  else Next o.

(** The loop over [argv[1..]] and the test of [ROOT_DIR] after it. *)
Fixpoint parse_loop (args : list string) (o : Settings) : exception + bool * Settings :=
  match args with
  | [] => if wempty (ROOT_DIR (config o)) then inr (false, o) else inr (true, o)
  | arg :: args' =>
      match parse_argument arg o with
      | Next o' => parse_loop args' o'
      | Return result o' => inr (result, o')
      | Throw e => inl e
      end
  end.

(** [parse_arguments(argc, argv, ctx)]: the result and the context it
    leaves, or the exception that leaves it. *)
Definition parse_arguments (argv : list string) (o : Settings) : exception + bool * Settings :=
  parse_loop (tail argv) o.

End ParseArguments.

(** The arguments that some branch of the loop handles. *)
Definition recognised (arg : string) : bool :=
  found_at_0 arg "--path=" || found_at_0 arg "--prefix=" || found_at_0 arg "--buffer="
  || found_at_0 arg "--output=" || found_at_0 arg "--filetypes=" || String.eqb arg "--help".

(** The extensions that one argument appends to [file_types]. *)
Definition extensions_of (arg : string) : list wstring :=
  if found_at_0 arg "--filetypes="
  then let extensions := widen (str_substr arg 12) in
       push_extensions (List.length extensions) [] extensions
  else [].

(** The fields joined by commas. *)
Fixpoint join_extensions (fields : list wstring) : wstring :=
  match fields with
  | [] => []
  | [field] => field
  | field :: fields' => field ++ comma :: join_extensions fields'
  end.

(** [std::stoul] in base 10, as [strtoul] reads a number: white space, an
    optional sign, then the longest run of digits. *)
Definition isspace (c : ascii) : bool :=
  let n := N_of_ascii c in N.eqb n 32 || (N.leb 9 n && N.leb n 13).

Definition digit_of (c : ascii) : option Z :=
  let n := N_of_ascii c in
  if N.leb 48 n && N.leb n 57 then Some (Z.of_N n - 48) else None.

Fixpoint skip_spaces (s : string) : string :=
  match s with
  | String c s' => if isspace c then skip_spaces s' else s
  | EmptyString => s
  end.

(** The value of the longest run of digits at the start of [s]. *)
Fixpoint read_digits (s : string) (acc : Z) : Z :=
  match s with
  | String c s' => match digit_of c with
                   | Some d => read_digits s' (acc * 10 + d)
                   | None => acc
                   end
  | EmptyString => acc
  end.

Definition std_stoul (str : string) : exception + Z :=
  let s := skip_spaces str in
  let '(negative, digits) :=
    match s with
    | String "-" s' => (true, s')
    | String "+" s' => (false, s')
    | _ => (false, s)
    end in
  match digits with
  | EmptyString => inl invalid_argument
  | String c _ =>
      match digit_of c with
      | None => inl invalid_argument
      | Some _ =>
          let v := read_digits digits 0 in
          if Z.ltb (ULONG_MOD - 1) v then inl out_of_range
          else inr (if negative then (ULONG_MOD - v) mod ULONG_MOD else v)
      end
  end.

(** * The earlier version, [fast_scan4.cpp] *)

Module FastScan4.

(** The seeding loop of [main]: a directory entry is enqueued when the
    prefix is empty or its name starts with it; "." and ".." are not
    tested for. *)
Definition seed_entry (cfg : Config) (fdata : WIN32_FIND_DATAW) : option wstring :=
  if is_directory fdata then
    if wempty (PREFIX cfg) || wcsnicmp (cFileName fdata) (PREFIX cfg) (List.length (PREFIX cfg))
    then Some (child_path (ROOT_DIR cfg) fdata)
    else None
  else None.

(** One iteration of the seeding loop. *)
Definition seed_step (cfg : Config) (c : ScanContext) (fdata : WIN32_FIND_DATAW) : ScanContext :=
  match seed_entry cfg fdata with
  | Some subdir => enqueue c subdir
  | None => c
  end.

(** The context after the seeding block of [main]. *)
Definition seeded (FindFiles : wstring -> option (list WIN32_FIND_DATAW))
    (cfg : Config) (c : ScanContext) : ScanContext :=
  match FindFiles (search_pattern (ROOT_DIR cfg)) with
  | None => c
  | Some entries => fold_left (seed_step cfg) entries c
  end.

(** The body of the do-while of [worker_thread]: every subdirectory other
    than "." and ".." is enqueued, every file is recorded. *)
Definition process_entry (WideCharToMultiByte : wstring -> string)
    (cur_dir : wstring) (fdata : WIN32_FIND_DATAW) : entry_action :=
  if is_directory fdata then
    if is_dot_or_dotdot (cFileName fdata) then Skip
    else Push (child_path cur_dir fdata)
  else
    let utf8_path := WideCharToMultiByte (child_path cur_dir fdata) in
    if Nat.ltb 0 (String.length utf8_path)
    then Append (utf8_path ++ newline)%string
    else Skip.

End FastScan4.

(** * The rules as the specification words them *)

(** [s] contains [pat] when case is ignored. *)
Definition contains_ignoring_case (s pat : wstring) : bool :=
  negb (Z.eqb (wfind (map towlower s) (map towlower pat)) npos).

(** The text after the last '.' of a file name, if the name has a '.'. *)
Definition name_extension (name : wstring) : option wstring :=
  if Z.eqb (find_last_of name dot) npos then None
  else Some (substr name (find_last_of name dot + 1)).

(** A file passes the extension filter as the specification states it. *)
Definition spec_extension_ok (cfg : Config) (name : wstring) : bool :=
  match file_types cfg with
  | [] => true
  | exts => match name_extension name with
            | None => false
            | Some ext => existsb (wcsicmp ext) exts
            end
  end.

(** * A concrete file system and schedules *)

Local Open Scope string_scope.

(** The attribute of a regular file. *)
Definition FILE_ATTRIBUTE_ARCHIVE : N := 32.

(** A directory entry and a file entry with an ASCII name. *)
Definition dir_entry (name : string) : WIN32_FIND_DATAW :=
  {| dwFileAttributes := FILE_ATTRIBUTE_DIRECTORY; cFileName := L name |}.

Definition file_entry (name : string) : WIN32_FIND_DATAW :=
  {| dwFileAttributes := FILE_ATTRIBUTE_ARCHIVE; cFileName := L name |}.

(** Equality of wide strings. *)
Fixpoint wstring_eqb (a b : wstring) : bool :=
  match a, b with
  | [], [] => true
  | x :: a', y :: b' => wchar_eqb x y && wstring_eqb a' b'
  | _, _ => false
  end.

(** A file system given by the table of its listable directories; every
    listing starts with "." and "..". *)
Fixpoint table_fs (table : list (string * list WIN32_FIND_DATAW)) (pattern : wstring)
  : option (list WIN32_FIND_DATAW) :=
  match table with
  | [] => None
  | (dir, entries) :: table' =>
      if wstring_eqb (search_pattern (L dir)) pattern
      then Some (dir_entry "." :: dir_entry ".." :: entries)
      else table_fs table' pattern
  end.

(** UTF-8 of a text of ASCII code units; anything else fails. *)
Fixpoint ascii_utf8 (w : wstring) : string :=
  match w with
  | [] => EmptyString
  | c :: w' =>
      if N.ltb c 128
      then match w' with
           | [] => String (ascii_of_N c) EmptyString
           | _ => match ascii_utf8 w' with
                  | EmptyString => EmptyString
                  | rest => String (ascii_of_N c) rest
                  end
           end
      else EmptyString
  end.

(** [root] holds [A] and [B] and a file; [A\locked] cannot be listed. *)
Definition demo_table : list (string * list WIN32_FIND_DATAW) :=
  [ ("root", [dir_entry "A"; dir_entry "B"; file_entry "file1.txt"]);
    ("root\A", [file_entry "a.txt"; file_entry "b.doc"; dir_entry "sub"; dir_entry "locked"]);
    ("root\A\sub", [file_entry "c.TXT"; file_entry "archive"]);
    ("root\B", [file_entry "d.txt"]) ].

(** The file system of [demo_table]. *)
Definition demo_fs : wstring -> option (list WIN32_FIND_DATAW) := table_fs demo_table.

(** [--path=root --prefix=A --filetypes=txt] *)
Definition demo_cfg : Config :=
  {| ROOT_DIR := L "root"; PREFIX := L "A"; OUTPUT_BUFFER_FLUSH_COUNT := 5000;
     file_types := [L "txt"] |}.

(** [--path=root] *)
Definition plain_cfg : Config :=
  {| ROOT_DIR := L "root"; PREFIX := []; OUTPUT_BUFFER_FLUSH_COUNT := 5000;
     file_types := [] |}.

(** The record written for an ASCII path. *)
Definition demo_record (path : string) : string := ascii_utf8 (L path) ++ newline.

(** The worker drains the queue alone: it lists [root\A], pushes [sub] and
    [locked], lists [sub], and fails to list [locked]. *)
Definition drain_trace : list label :=
  replicate 7 (Worker 0) ++ [NotifyOne 0 None; Worker 0; NotifyOne 0 None]
  ++ replicate 10 (Worker 0).

(** Main detects completion and sets [done]; the worker flushes and exits. *)
Definition complete_trace : list label :=
  drain_trace ++ [Main; Main; Main; Worker 0; Worker 0; Main].

(** The worker tests the wait predicate after main's last poll and before
    [done.store(true)], and blocks after [notify_all]. *)
Definition lost_wakeup_trace : list label :=
  drain_trace ++ [Main; Worker 0; Main; Main; Worker 0].

(** The worker has pushed [root\A\sub] and still enumerates [root\A]. *)
Definition busy_trace : list label := replicate 7 (Worker 0) ++ [NotifyOne 0 None].

(** The worker has taken [root\A\locked] from the queue. *)
Definition holding_locked_trace : list label :=
  replicate 7 (Worker 0) ++ [NotifyOne 0 None; Worker 0; NotifyOne 0 None]
  ++ replicate 9 (Worker 0).

(** [scanner --path=root --prefix=A --filetypes=txt] *)
Definition demo_argv : list string :=
  ["scanner"; "--path=root"; "--prefix=A"; "--filetypes=txt"].

(** The worker dequeued [root\A\locked] with two records in its buffer. *)
Definition holding_locked_worker : worker :=
  {| pc := Holding (L "root\A\locked");
     local_out_buf := [demo_record "root\A\a.txt"; demo_record "root\A\sub\c.TXT"] |}.

(** A filter that holds one empty extension, as [--filetypes=] leaves it. *)
Definition empty_extension_cfg : Config :=
  {| ROOT_DIR := L "root"; PREFIX := []; OUTPUT_BUFFER_FLUSH_COUNT := 5000;
     file_types := [[]] |}.

(** [--path=root --prefix=A --buffer=0 --filetypes=TXT] *)
Definition upper_case_cfg : Config :=
  {| ROOT_DIR := L "root"; PREFIX := L "A"; OUTPUT_BUFFER_FLUSH_COUNT := 0;
     file_types := [L "TXT"] |}.

Local Close Scope string_scope.

(** * The scanner *)

Section Scanner.

(** [FindFirstFile(Ex)W] followed by [FindNextFileW] until it fails: the
    entries matching a search pattern, or [None] for
    [INVALID_HANDLE_VALUE].  A valid handle carries at least one entry. *)
Variable FindFiles : wstring -> option (list WIN32_FIND_DATAW).

(** [WideCharToMultiByte(CP_UTF8, ...)]: the converted text; its length is
    the returned [utf8_len], 0 on failure. *)
Variable WideCharToMultiByte : wstring -> string.

Variable cfg : Config.

(** ** Filter stage *)

(** Seeding: [PREFIX.empty() || _wcsnicmp(name, PREFIX, PREFIX.size()) == 0]. *)
Definition top_level_prefix_ok (name : wstring) : bool :=
  wempty (PREFIX cfg) || wcsnicmp name (PREFIX cfg) (List.length (PREFIX cfg)).

(** Workers: the entry is skipped when
    [!PREFIX.empty() && subdir.find(PREFIX) == npos]. *)
Definition nested_prefix_rejects (subdir : wstring) : bool :=
  negb (wempty (PREFIX cfg)) && Z.eqb (wfind subdir (PREFIX cfg)) npos.

(** [full_path.substr(full_path.find_last_of(L".") + 1)] *)
Definition file_ext (full_path : wstring) : wstring :=
  substr full_path ((find_last_of full_path dot + 1) mod size_t_mod).

(** The loop over [file_types] that sets [match]. *)
Definition extension_match (full_path : wstring) : bool :=
  existsb (fun ext => wcsicmp (file_ext full_path) ext) (file_types cfg).

(** The entry is skipped when [!file_types.empty() && !match]. *)
Definition extension_rejects (full_path : wstring) : bool :=
  negb (match file_types cfg with [] => true | _ => false end) &&
  negb (extension_match full_path).

(** One iteration of the do-while of [process_directory]. *)
Definition process_entry (dir : wstring) (fdata : WIN32_FIND_DATAW) : entry_action :=
  if is_directory fdata then
    if is_dot_or_dotdot (cFileName fdata) then Skip
    else
      let subdir := child_path dir fdata in
      if nested_prefix_rejects subdir then Skip else Push subdir
  else
    let full_path := child_path dir fdata in
    if extension_rejects full_path then Skip
    else
      let utf8_path := WideCharToMultiByte full_path in
      if Nat.ltb 0 (String.length utf8_path)
      then Append (utf8_path ++ newline)%string
      else ConversionFailed.

(** [local_out_buf.size() >= OUTPUT_BUFFER_FLUSH_COUNT * 256] *)
Definition buffer_full (buffer : list string) : bool :=
  Z.leb ((OUTPUT_BUFFER_FLUSH_COUNT cfg * 256) mod size_t_mod) (buf_size buffer).

(** ** Seeding: [initialize_directory_queue] *)

(** The subdirectory that one iteration of the seeding loop enqueues. *)
Definition seed_entry (fdata : WIN32_FIND_DATAW) : option wstring :=
  if is_directory fdata then
    if is_dot_or_dotdot (cFileName fdata) then None
    else if top_level_prefix_ok (cFileName fdata)
         then Some (child_path (ROOT_DIR cfg) fdata)
         else None
  else None.

(** One iteration of the seeding loop. *)
Definition seed_step (c : ScanContext) (fdata : WIN32_FIND_DATAW) : ScanContext :=
  match seed_entry fdata with
  | Some subdir => enqueue c subdir
  | None => c
  end.

(** The whole function: its result and the context it leaves. *)
Definition initialize_directory_queue (c : ScanContext) : bool * ScanContext :=
  match FindFiles (search_pattern (ROOT_DIR cfg)) with
  | None => (false, c)
  | Some entries =>
      let c' := fold_left seed_step entries c in
      (Z.ltb 0 (active_dir_count c'), c')
  end.

(** The context when [main] has opened the sink and written the header. *)
Definition opened : ScanContext :=
  {| dir_queue := []; active_dir_count := 0; done := false;
     out_fp := [header]; file_count := 0 |}.

(** A worker that has not run yet. *)
Definition fresh_worker : worker := {| pc := AtWait; local_out_buf := [] |}.

(** [main] up to the launch of [NUM_THREADS] workers; when seeding finds
    nothing the sink is closed at once and no worker is started. *)
Definition main_start (NUM_THREADS : nat) : state :=
  let '(ok, c) := initialize_directory_queue opened in
  if ok
  then {| ctx := c; q_m := None; threads := replicate NUM_THREADS fresh_worker;
          main_pc := Polling |}
  else {| ctx := c; q_m := None; threads := []; main_pc := Closed |}.

(** ** One step of a worker

    [directory_processing_worker] and [process_directory], cut into steps:
    the critical section at the top of the loop (with the test of the wait
    predicate), blocking, the call of [FindFirstFileExW], one entry of the
    do-while, and the final decrement and flush.  A step that needs [q_m]
    is possible only when no worker holds it. *)
Definition worker_next (i : nat) (s : state) : option state :=
  match threads s !! i with
  | None => None
  | Some w =>
    let c := ctx s in
    match pc w with
    | AtWait =>
        match q_m s with
        | Some _ => None
        | None =>
            if negb (negb (qempty (dir_queue c)) || done c)
            then Some (update s c (Some i) i (at_pc Parking w))
            else if done c && qempty (dir_queue c)
            then Some (update s c None i (at_pc FinalFlush w))
            else match dir_queue c with
                 | current_dir :: q =>
                     Some (update s (set_queue c q) None i (at_pc (Holding current_dir) w))
                 | [] => Some (update s c None i (at_pc (Holding []) w))
                 end
        end
    | Parking => Some (update s c None i (at_pc Blocked w))
    | Blocked => None
    | Holding current_dir =>
        if wempty current_dir then Some (update s c (q_m s) i (at_pc AtWait w))
        else match FindFiles (search_pattern current_dir) with
             | None => Some (update s (mark_complete c) (q_m s) i (at_pc AtWait w))
             | Some entries =>
                 Some (update s c (q_m s) i (at_pc (Enumerating current_dir entries) w))
             end
    | Enumerating dir [] =>
        Some (update s (mark_complete c) (q_m s) i (at_pc AtWait w))
    | Enumerating dir (fdata :: rest) =>
        match process_entry dir fdata with
        | Skip | ConversionFailed =>
            Some (update s c (q_m s) i (at_pc (Enumerating dir rest) w))
        | Push subdir =>
            match q_m s with
            | Some _ => None
            | None => Some (update s (enqueue c subdir) None i (at_pc (Notifying dir rest) w))
            end
        | Append line =>
            let buf := local_out_buf w ++ [line] in
            let c1 := count_file c in
            if buffer_full buf
            then Some (update s (fwrite c1 buf) (q_m s) i
                         {| pc := Enumerating dir rest; local_out_buf := [] |})
            else Some (update s c1 (q_m s) i
                         {| pc := Enumerating dir rest; local_out_buf := buf |})
        end
    | Notifying _ _ => None
    | FinalFlush =>
        match local_out_buf w with
        | [] => Some (update s c (q_m s) i (at_pc Exited w))
        | buf => Some (update s (fwrite c buf) (q_m s) i {| pc := Exited; local_out_buf := [] |})
        end
    | Exited => None
    end
  end.

(** [q_cv.notify_one()] after a push.  It wakes one thread blocked on
    [q_cv]: worker [j] for [target = Some j]; for [target = None] no worker,
    which happens when none is blocked or when the main thread, waiting in
    [wait_for], takes the notification. *)
Definition notify_next (i : nat) (target : option nat) (s : state) : option state :=
  match threads s !! i with
  | None => None
  | Some w =>
    match pc w with
    | Notifying dir rest =>
        let s1 := update s (ctx s) (q_m s) i (at_pc (Enumerating dir rest) w) in
        match target with
        | Some j =>
            match threads s !! j with
            | Some wj => if is_blocked wj
                         then Some (update s1 (ctx s) (q_m s) j (at_pc AtWait wj))
                         else None
            | None => None
            end
        | None =>
            if forallb (fun w => negb (is_blocked w)) (threads s)
               || match main_pc s with Polling => true | _ => false end
            then Some s1 else None
        end
    | _ => None
    end
  end.

(** A spurious wake-up of worker [j]. *)
Definition spurious_next (j : nat) (s : state) : option state :=
  match threads s !! j with
  | Some wj => if is_blocked wj
               then Some (update s (ctx s) (q_m s) j (at_pc AtWait wj))
               else None
  | None => None
  end.

(** ** One step of the main thread

    The polling loop of [main] (the test is made under [q_m]), then
    [done.store(true)], [notify_all], the joins and [fclose]. *)
Definition main_next (s : state) : option state :=
  let c := ctx s in
  match main_pc s with
  | Polling =>
      match q_m s with
      | Some _ => None
      | None =>
          if Z.eqb (active_dir_count c) 0 && qempty (dir_queue c)
          then Some {| ctx := c; q_m := None; threads := threads s; main_pc := SetDone |}
          else Some s
      end
  | SetDone =>
      Some {| ctx := store_done c; q_m := q_m s; threads := threads s; main_pc := NotifyAll |}
  | NotifyAll =>
      Some {| ctx := c; q_m := q_m s; threads := map wake (threads s); main_pc := Joining |}
  | Joining =>
      if forallb is_exited (threads s)
      then Some {| ctx := c; q_m := q_m s; threads := threads s; main_pc := Closed |}
      else None
  | Closed => None
  end.

(** ** Interleavings *)

(** One step of the thread named by the label. *)
Definition next (l : label) (s : state) : option state :=
  match l with
  | Worker i => worker_next i s
  | NotifyOne i target => notify_next i target s
  | SpuriousWake j => spurious_next j s
  | Main => main_next s
  end.

(** The state after a schedule, when every step of it is possible. *)
Fixpoint run (ls : list label) (s : state) : option state :=
  match ls with
  | [] => Some s
  | l :: ls' => match next l s with
                | Some s' => run ls' s'
                | None => None
                end
  end.

(** Zero or more steps. *)
Inductive steps : state -> state -> Prop :=
| steps_refl s : steps s s
| steps_next s l s' s'' : next l s = Some s' -> steps s' s'' -> steps s s''.

(** The states of the runs with [NUM_THREADS] workers. *)
Definition reachable (NUM_THREADS : nat) (s : state) : Prop :=
  steps (main_start NUM_THREADS) s.

(** The run is complete when [main] has joined the workers and closed the sink. *)
Definition complete (s : state) : Prop := main_pc s = Closed.

(** ** Invariants *)

(** No queued path is the empty string. *)
Definition queue_nonempty_paths (s : state) : Prop :=
  Forall (fun d => d <> []) (dir_queue (ctx s)).

(** The directories that are queued or held by a worker. *)
Definition active_work (s : state) : Z :=
  Z.of_nat (List.length (dir_queue (ctx s))) + sumZ in_flight (threads s).

(** The Active-Work Counter counts them, modulo its width. *)
Definition counter_invariant (s : state) : Prop :=
  active_dir_count (ctx s) = int_wrap (active_work s).

(** No directory is queued and no worker holds one. *)
Definition quiescent (s : state) : Prop :=
  dir_queue (ctx s) = [] /\ Forall (fun w => in_flight w = 0) (threads s).

(** Once main has left its polling loop nothing is outstanding; [done] is
    set only after that; after [fclose] all workers have exited. *)
Definition detection_invariant (s : state) : Prop :=
  (main_pc s <> Polling -> quiescent s) /\
  (done (ctx s) = true -> main_pc s <> Polling /\ main_pc s <> SetDone) /\
  (main_pc s = Closed -> Forall (fun w => pc w = Exited) (threads s)).

(** ** The reference traversal *)

(** An entry that names a subdirectory other than "." and "..". *)
Definition real_subdirectory (fdata : WIN32_FIND_DATAW) : bool :=
  is_directory fdata && negb (is_dot_or_dotdot (cFileName fdata)).

(** The paths of the subdirectories in a listing of [dir]. *)
Definition subdirs_of (dir : wstring) (entries : list WIN32_FIND_DATAW) : list wstring :=
  map (child_path dir) (List.filter real_subdirectory entries).

(** The tree below [dir] has at most [h] levels of directories; a
    directory that cannot be listed is a leaf. *)
Fixpoint tree_depth_le (h : nat) (dir : wstring) : bool :=
  match h with
  | O => false
  | S h' =>
      match FindFiles (search_pattern dir) with
      | None => true
      | Some entries => forallb (tree_depth_le h') (subdirs_of dir entries)
      end
  end.

(** The lines one entry accounts for, given the lines of a subtree. *)
Definition entry_lines (scan_sub : wstring -> list string)
    (dir : wstring) (fdata : WIN32_FIND_DATAW) : list string :=
  match process_entry dir fdata with
  | Push subdir => scan_sub subdir
  | Append line => [line]
  | Skip | ConversionFailed => []
  end.

(** Sequential, depth-first run of [process_directory] over the tree below
    [dir], to depth [h]. *)
Fixpoint scan (h : nat) (dir : wstring) : list string :=
  match h with
  | O => []
  | S h' =>
      match FindFiles (search_pattern dir) with
      | None => []
      | Some entries => flat_map (entry_lines (scan h') dir) entries
      end
  end.

(** The directories seeded by [main]. *)
Definition seeds : list wstring :=
  dir_queue (snd (initialize_directory_queue opened)).

(** The records a sequential scan writes after the header. *)
Definition expected_lines (h : nat) : list string := flat_map (scan h) seeds.

(** The subdirectories the remaining entries will enqueue. *)
Definition pushes (dir : wstring) (rest : list WIN32_FIND_DATAW) : list wstring :=
  flat_map (fun fdata => match process_entry dir fdata with
                         | Push subdir => [subdir]
                         | _ => []
                         end) rest.

(** The directories a worker holds or is about to enqueue. *)
Definition held_dirs (w : worker) : list wstring :=
  match pc w with
  | Holding d => if wempty d then [] else [d]
  | Enumerating d rest | Notifying d rest => pushes d rest
  | _ => []
  end.

(** Every directory still to be visited roots a tree of depth at most [h]. *)
Definition depth_invariant (h : nat) (s : state) : Prop :=
  Forall (fun d => tree_depth_le h d = true) (dir_queue (ctx s)) /\
  Forall (fun w => Forall (fun d => tree_depth_le h d = true) (held_dirs w)) (threads s).

(** The records a worker still owes: those of the directory it holds. *)
Definition owed (h : nat) (w : worker) : list string :=
  match pc w with
  | Holding d => if wempty d then [] else scan h d
  | Enumerating d rest | Notifying d rest => flat_map (entry_lines (scan h) d) rest
  | _ => []
  end.

(** The records a worker has buffered or still owes. *)
Definition pending (h : nat) (w : worker) : list string := local_out_buf w ++ owed h w.

(** Written, buffered and owed records together are the expected ones. *)
Definition output_invariant (h : nat) (s : state) : Prop :=
  out_fp (ctx s) ++ flat_map (pending h) (threads s) ++ flat_map (scan h) (dir_queue (ctx s))
  ≡ₚ header :: expected_lines h.

(** Records written after the header plus records still in private buffers. *)
Definition records_produced (s : state) : Z :=
  Z.of_nat (List.length (out_fp (ctx s))) - 1 + sumZ buffered (threads s).

(** The matched-file counter counts them, modulo its width. *)
Definition file_count_invariant (s : state) : Prop :=
  file_count (ctx s) = llong_wrap (records_produced s).

(** A worker that has exited has flushed its buffer. *)
Definition flushed_invariant (s : state) : Prop :=
  Forall (fun w => pc w = Exited -> local_out_buf w = []) (threads s).

(** ** States of the schedule in which one worker does all the work *)

(** Main polls, no lock is held, nothing is signalled yet and every worker
    stands at the top of its loop. *)
Definition all_waiting (s : state) : Prop :=
  q_m s = None /\ main_pc s = Polling /\ done (ctx s) = false /\
  Forall (fun w => pc w = AtWait) (threads s).

(** The subdirectories that processing [dir] appends to the queue. *)
Definition enqueued_by (dir : wstring) : list wstring :=
  match FindFiles (search_pattern dir) with
  | None => []
  | Some entries => pushes dir entries
  end.

(** What remains once the queue has been drained. *)
Definition drained (s s' : state) : Prop :=
  steps s s' /\ all_waiting s' /\
  List.length (threads s') = List.length (threads s) /\ dir_queue (ctx s') = [].

(** Main has published [done] and joins; the queue is empty. *)
Definition shutting_down (s : state) : Prop :=
  q_m s = None /\ main_pc s = Joining /\ done (ctx s) = true /\ dir_queue (ctx s) = [].

(** When [main] has closed the sink every worker has exited. *)
Definition closed_invariant (s : state) : Prop :=
  main_pc s = Closed -> Forall (fun w => pc w = Exited) (threads s).

(** A worker leaves its loop only after [done] has been published. *)
Definition exit_invariant (s : state) : Prop :=
  Forall (fun w => pc w = FinalFlush \/ pc w = Exited -> done (ctx s) = true) (threads s).

(** The record written for a path. *)
Definition record_of (full_path : wstring) : string :=
  (WideCharToMultiByte full_path ++ newline)%string.

(** The paths one entry accounts for, given the paths of a subtree. *)
Definition entry_paths (below : wstring -> list wstring)
    (dir : wstring) (fdata : WIN32_FIND_DATAW) : list wstring :=
  match process_entry dir fdata with
  | Push subdir => below subdir
  | Append _ => [child_path dir fdata]
  | Skip | ConversionFailed => []
  end.

(** The paths of the files recorded below [dir], in traversal order. *)
Fixpoint matched_below (h : nat) (dir : wstring) : list wstring :=
  match h with
  | O => []
  | S h' =>
      match FindFiles (search_pattern dir) with
      | None => []
      | Some entries => flat_map (entry_paths (matched_below h') dir) entries
      end
  end.

(** The paths of all files a scan records. *)
Definition matched_files (h : nat) : list wstring := flat_map (matched_below h) seeds.

(** Names in one listing are pairwise distinct and contain no backslash. *)
Definition well_formed_listing (entries : list WIN32_FIND_DATAW) : Prop :=
  NoDup (map cFileName entries) /\
  Forall (fun fdata => backslash ∉ cFileName fdata) entries.



(** The state a schedule leads to (the start state if it cannot run). *)
Definition state_after (NUM_THREADS : nat) (ls : list label) : state :=
  default (main_start NUM_THREADS) (run ls (main_start NUM_THREADS)).

(** ** The lock, the private buffers and the wait predicate *)

(** Between two steps [q_m] is held only by a worker that has tested the
    wait predicate and is about to block in [q_cv.wait]. *)
Definition lock_invariant (s : state) : Prop :=
  forall i, q_m s = Some i -> exists w, threads s !! i = Some w /\ pc w = Parking.

(** The size in bytes at which a private buffer is flushed. *)
Definition flush_threshold : Z := (OUTPUT_BUFFER_FLUSH_COUNT cfg * 256) mod size_t_mod.

(** A private buffer that holds records is below the flush threshold. *)
Definition buffer_invariant (s : state) : Prop :=
  Forall (fun w => local_out_buf w <> [] -> buf_size (local_out_buf w) < flush_threshold)
         (threads s).

(** No worker holds an empty [current_dir]. *)
Definition holding_invariant (s : state) : Prop :=
  Forall (fun w => pc w <> Holding []) (threads s).

(** [done] is set while [main] notifies and joins. *)
Definition done_invariant (s : state) : Prop :=
  main_pc s = NotifyAll \/ main_pc s = Joining -> done (ctx s) = true.

(** The worker sleeps in [q_cv.wait] or has returned. *)
Definition is_idle (w : worker) : bool := is_blocked w || is_exited w.

(** The worker stands in its loop and is awake. *)
Definition is_active (w : worker) : bool :=
  match pc w with
  | AtWait | Holding _ | Enumerating _ _ | Notifying _ _ => true
  | _ => false
  end.

(** While [main] polls and directories are queued, some worker is awake in
    its loop. *)
Definition awake_invariant (s : state) : Prop :=
  main_pc s = Polling -> dir_queue (ctx s) <> [] ->
  exists i w, threads s !! i = Some w /\ is_active w = true.

(** A step of a worker thread: in its loop, or its [notify_one]. *)
Definition worker_step (l : label) : Prop :=
  match l with
  | Worker _ | NotifyOne _ _ => True
  | _ => False
  end.

(** A step by which a thread advances: every step of a worker, and a step
    of [main] that takes it to another place, which a poll that finds work
    outstanding does not.  A spurious wake-up is none. *)
Definition advances (l : label) (s s' : state) : Prop :=
  match l with
  | Worker _ | NotifyOne _ _ => True
  | Main => main_pc s' <> main_pc s
  | SpuriousWake _ => False
  end.

(** * Properties *)

(** ** Arithmetic of the wrapped counters *)

Lemma int_wrap_small x : - 2 ^ 31 <= x < 2 ^ 31 -> int_wrap x = x.
Proof.
  intros Hx. unfold int_wrap, wrap.
  change (2 ^ (32 - 1)) with 2147483648. change (2 ^ 32) with 4294967296.
  change (2 ^ 31) with 2147483648 in Hx.
  rewrite Z.mod_small; lia.
Qed.

Lemma int_wrap_idem x y : int_wrap (int_wrap x + y) = int_wrap (x + y).
Proof.
  unfold int_wrap, wrap. f_equal.
  replace ((x + 2 ^ (32 - 1)) mod 2 ^ 32 - 2 ^ (32 - 1) + y + 2 ^ (32 - 1))
    with ((x + 2 ^ (32 - 1)) mod 2 ^ 32 + y) by lia.
  rewrite Zplus_mod_idemp_l. f_equal. lia.
Qed.

Lemma llong_wrap_small x : - 2 ^ 63 <= x < 2 ^ 63 -> llong_wrap x = x.
Proof.
  intros Hx. unfold llong_wrap, wrap.
  change (2 ^ (64 - 1)) with 9223372036854775808.
  change (2 ^ 64) with 18446744073709551616.
  change (2 ^ 63) with 9223372036854775808 in Hx.
  rewrite Z.mod_small; lia.
Qed.

Lemma llong_wrap_idem x y : llong_wrap (llong_wrap x + y) = llong_wrap (x + y).
Proof.
  unfold llong_wrap, wrap. f_equal.
  replace ((x + 2 ^ (64 - 1)) mod 2 ^ 64 - 2 ^ (64 - 1) + y + 2 ^ (64 - 1))
    with ((x + 2 ^ (64 - 1)) mod 2 ^ 64 + y) by lia.
  rewrite Zplus_mod_idemp_l. f_equal. lia.
Qed.

Lemma int_wrap_idem_sub x y : int_wrap (int_wrap x - y) = int_wrap (x - y).
Proof. replace (int_wrap x - y) with (int_wrap x + - y) by lia. rewrite int_wrap_idem. reflexivity. Qed.

(** ** Sums over the thread table *)

Lemma sumZ_app {A} (f : A -> Z) l1 l2 : sumZ f (l1 ++ l2) = sumZ f l1 + sumZ f l2.
Proof. induction l1 as [|a l1 IH]; simpl; [lia | rewrite IH; lia]. Qed.

Lemma sumZ_insert {A} (f : A -> Z) (l : list A) i a b :
  l !! i = Some a -> sumZ f (<[i := b]> l) = sumZ f l - f a + f b.
Proof.
  revert i. induction l as [|x l IH]; intros [|i] Hi; simpl in *; try discriminate.
  - inversion Hi; subst. lia.
  - rewrite (IH i Hi). lia.
Qed.

Lemma sumZ_bounds {A} (f : A -> Z) (l : list A) :
  (forall a, 0 <= f a <= 1) -> 0 <= sumZ f l <= Z.of_nat (List.length l).
Proof.
  intros Hf. induction l as [|a l IH]; simpl; [lia|]. specialize (Hf a). lia.
Qed.

Lemma sumZ_zero {A} (f : A -> Z) (l : list A) :
  (forall a, 0 <= f a) -> sumZ f l = 0 -> Forall (fun a => f a = 0) l.
Proof.
  intros Hf. induction l as [|a l IH]; simpl; intros Hs; constructor.
  - assert (0 <= sumZ f l).
    { clear -Hf. induction l as [|b l IH]; simpl; [lia|]. specialize (Hf b). lia. }
    specialize (Hf a). lia.
  - apply IH. assert (0 <= sumZ f l).
    { clear -Hf. induction l as [|b l IH']; simpl; [lia|]. specialize (Hf b). lia. }
    specialize (Hf a). lia.
Qed.

Lemma sumZ_Forall_zero {A} (f : A -> Z) (l : list A) :
  Forall (fun a => f a = 0) l -> sumZ f l = 0.
Proof. induction 1 as [|a l Ha _ IH]; simpl; lia. Qed.

Lemma sumZ_replicate {A} (f : A -> Z) n a : f a = 0 -> sumZ f (replicate n a) = 0.
Proof. intros Ha. induction n as [|n IH]; simpl; lia. Qed.

(** ** Queue entries are never empty strings *)

(** Case analysis of one step, by unfolding the step functions. *)
Ltac step_cases H :=
  match type of H with
  | next ?l ?s = Some _ =>
      destruct l; simpl in H;
      unfold worker_next, notify_next, spurious_next, main_next in H;
      cbv zeta in H
  end;
  repeat (match type of H with
          | context [match ?x with _ => _ end] => destruct x eqn:?
          end; try discriminate; simpl in H);
  inversion H; subst; clear H.

Lemma child_path_nonempty dir fdata : child_path dir fdata <> [].
Proof. unfold child_path. destruct dir; discriminate. Qed.

Lemma process_entry_push dir fdata subdir :
  process_entry dir fdata = Push subdir -> subdir = child_path dir fdata.
Proof.
  unfold process_entry.
  repeat (match goal with |- context [if ?b then _ else _] => destruct b end);
    intros H; inversion H; reflexivity.
Qed.

(** The branch of the worker loop that would leave [current_dir] empty
    because the queue is empty is never taken. *)
Ltac dead_branch :=
  match goal with
  | H1 : negb (negb (qempty []) || ?d) = false, H2 : ?d && qempty [] = false |- _ =>
      exfalso; destruct d; simpl in H1, H2; discriminate
  end.

Lemma queue_nonempty_paths_step l s s' :
  next l s = Some s' -> queue_nonempty_paths s -> queue_nonempty_paths s'.
Proof.
  unfold queue_nonempty_paths. intros Hn Hq.
  step_cases Hn; simpl; auto; try dead_branch.
  - inversion Hq; assumption.
  - apply Forall_app; split; [assumption|]. constructor; [|constructor].
    match goal with Hp : process_entry _ _ = Push _ |- _ =>
      rewrite (process_entry_push _ _ _ Hp) end.
    apply child_path_nonempty.
Qed.

Lemma seed_fold_nonempty entries c :
  Forall (fun d => d <> []) (dir_queue c) ->
  Forall (fun d => d <> []) (dir_queue (fold_left seed_step entries c)).
Proof.
  revert c. induction entries as [|e entries IH]; intros c Hc; simpl; [assumption|].
  apply IH. unfold seed_step, seed_entry.
  destruct (is_directory e); [|assumption].
  destruct (is_dot_or_dotdot (cFileName e)); [assumption|].
  destruct (top_level_prefix_ok (cFileName e)); [|assumption].
  simpl. apply Forall_app; split; [assumption|].
  constructor; [apply child_path_nonempty | constructor].
Qed.

Lemma queue_nonempty_paths_start n : queue_nonempty_paths (main_start n).
Proof.
  unfold queue_nonempty_paths, main_start, initialize_directory_queue.
  destruct (FindFiles (search_pattern (ROOT_DIR cfg))) as [entries|]; simpl.
  - destruct (0 <? _); simpl; apply seed_fold_nonempty; constructor.
  - constructor.
Qed.

(** ** Runs *)

Lemma steps_invariant (P : state -> Prop) :
  (forall l s s', next l s = Some s' -> P s -> P s') ->
  forall s s', steps s s' -> P s -> P s'.
Proof.
  intros Hstep s s' Hs. induction Hs as [|s l s1 s2 Hn _ IH]; [auto|].
  intros HP. apply IH. eapply Hstep; eassumption.
Qed.

Lemma steps_trans s1 s2 s3 : steps s1 s2 -> steps s2 s3 -> steps s1 s3.
Proof.
  induction 1 as [|s l s' s'' Hn _ IH]; [auto|].
  intros H3. eapply steps_next; [eassumption | auto].
Qed.

Lemma steps_one l s s' : next l s = Some s' -> steps s s'.
Proof. intros Hn. eapply steps_next; [eassumption | apply steps_refl]. Qed.

Lemma run_steps ls s s' : run ls s = Some s' -> steps s s'.
Proof.
  revert s. induction ls as [|l ls IH]; simpl; intros s Hr.
  - inversion Hr. apply steps_refl.
  - destruct (next l s) as [s1|] eqn:Hn; [|discriminate].
    eapply steps_next; [eassumption | auto].
Qed.

Lemma queue_nonempty_paths_reachable n s :
  reachable n s -> queue_nonempty_paths s.
Proof.
  intros Hr. eapply (steps_invariant queue_nonempty_paths); try eassumption.
  - apply queue_nonempty_paths_step.
  - apply queue_nonempty_paths_start.
Qed.

(** ** The Active-Work Counter *)

Lemma in_flight_range w : 0 <= in_flight w <= 1.
Proof.
  unfold in_flight, in_flight_at. destruct (pc w); try lia. destruct (wempty _); lia.
Qed.

Lemma blocked_pc w : is_blocked w = true -> pc w = Blocked.
Proof. unfold is_blocked. destruct (pc w); congruence. Qed.

Lemma in_flight_wake w : in_flight (wake w) = in_flight w.
Proof.
  unfold wake. destruct (is_blocked w) eqn:Hb; [|reflexivity].
  unfold in_flight. rewrite (blocked_pc _ Hb). reflexivity.
Qed.

Lemma sumZ_map {A B} (f : B -> Z) (g : A -> B) l : sumZ f (map g l) = sumZ (fun a => f (g a)) l.
Proof. induction l as [|a l IH]; simpl; [reflexivity | rewrite IH; reflexivity]. Qed.

Lemma sumZ_ext {A} (f g : A -> Z) l : (forall a, f a = g a) -> sumZ f l = sumZ g l.
Proof. intros E. induction l as [|a l IH]; simpl; [reflexivity | rewrite IH, E; reflexivity]. Qed.

(** The notifier and the thread it wakes are distinct. *)
Lemma notifier_not_blocked (ws : list worker) i j w wj dir rest :
  ws !! i = Some w -> pc w = Notifying dir rest ->
  ws !! j = Some wj -> is_blocked wj = true -> i <> j.
Proof.
  intros Hi Hp Hj Hb ->. rewrite Hi in Hj. inversion Hj; subst.
  rewrite (blocked_pc _ Hb) in Hp. discriminate.
Qed.

(** Rewrites the sums over an updated thread table. *)
Ltac sum_updates :=
  repeat match goal with
  | Hi : ?ws !! ?i = Some ?w, Hp : pc ?w = Notifying _ _,
    Hj : ?ws !! ?j = Some ?wj, Hb : is_blocked ?wj = true
    |- context [<[?j := _]> (<[?i := _]> ?ws)] =>
      let Hne := fresh "Hne" in
      pose proof (notifier_not_blocked ws i j w wj _ _ Hi Hp Hj Hb) as Hne;
      rewrite (sumZ_insert _ (<[i := _]> ws) j wj)
        by (rewrite list_lookup_insert_ne by exact Hne; exact Hj)
  | Hi : ?ws !! ?i = Some ?w |- context [sumZ _ (<[?i := _]> ?ws)] =>
      rewrite (sumZ_insert _ ws i w) by exact Hi
  end.

Lemma counter_invariant_step l s s' :
  next l s = Some s' -> queue_nonempty_paths s ->
  counter_invariant s -> counter_invariant s'.
Proof.
  unfold counter_invariant, active_work, queue_nonempty_paths.
  intros Hn Hq Hc.
  step_cases Hn; simpl; try dead_branch; sum_updates;
    try (rewrite sumZ_map, (sumZ_ext _ _ _ in_flight_wake));
    unfold in_flight in *; simpl;
    repeat match goal with
           | H : pc ?w = _ |- _ => rewrite H in *; clear H; simpl in *
           | H : wempty _ = _ |- _ => rewrite H in *; clear H
           | H : is_blocked ?w = true |- _ => apply blocked_pc in H
           | H : Forall _ ([] :: _) |- _ => inversion H; congruence
           | H : Forall _ ((_ :: _) :: _) |- _ => clear H
           | |- context [wempty ?d] => is_var d; destruct d; simpl
           end; simpl in *;
    try (rewrite ?length_app; simpl; rewrite Hc;
         rewrite ?int_wrap_idem, ?int_wrap_idem_sub; f_equal; lia);
    try assumption.
Qed.

Lemma seed_fold_counter entries c :
  active_dir_count c = int_wrap (Z.of_nat (List.length (dir_queue c))) ->
  active_dir_count (fold_left seed_step entries c)
  = int_wrap (Z.of_nat (List.length (dir_queue (fold_left seed_step entries c)))).
Proof.
  revert c. induction entries as [|e entries IH]; intros c Hc; simpl; [assumption|].
  apply IH. unfold seed_step. destruct (seed_entry e); [|assumption].
  simpl. rewrite Hc, int_wrap_idem, length_app. simpl. f_equal. lia.
Qed.

Lemma counter_invariant_start n : counter_invariant (main_start n).
Proof.
  unfold counter_invariant, active_work, main_start, initialize_directory_queue.
  destruct (FindFiles (search_pattern (ROOT_DIR cfg))) as [entries|]; simpl.
  - destruct (0 <? _); simpl; rewrite ?sumZ_replicate by reflexivity;
      rewrite Z.add_0_r; apply seed_fold_counter; reflexivity.
  - reflexivity.
Qed.

Lemma counter_invariant_reachable n s : reachable n s -> counter_invariant s.
Proof.
  intros Hr.
  enough (queue_nonempty_paths s /\ counter_invariant s) by tauto.
  eapply (steps_invariant (fun s => queue_nonempty_paths s /\ counter_invariant s));
    try eassumption.
  - intros l s1 s2 Hn [H1 H2]. split.
    + eapply queue_nonempty_paths_step; eassumption.
    + eapply counter_invariant_step; eassumption.
  - split; [apply queue_nonempty_paths_start | apply counter_invariant_start].
Qed.

(** ** Termination detection *)

Lemma quiescent_step l s s' :
  next l s = Some s' -> quiescent s -> quiescent s'.
Proof.
  unfold quiescent. intros Hn [Hq Hw].
  assert (Hlk : forall i w, threads s !! i = Some w -> in_flight w = 0).
  { intros i w Hi. eapply Forall_lookup_1 in Hw; eassumption. }
  step_cases Hn; simpl; try dead_branch;
    repeat match goal with
           | H : threads s !! _ = Some _ |- _ => apply Hlk in H; unfold in_flight in H
           | H : pc ?w = _ |- _ => rewrite H in *; clear H; simpl in *
           end;
    try congruence; try lia;
    try (split; [assumption|]);
    repeat apply Forall_insert; try assumption; try reflexivity;
    try (apply Forall_map; eapply Forall_impl; [eassumption|];
         intros w0 Hw0; simpl; rewrite in_flight_wake; assumption).
  match goal with
  | H1 : wempty ?d = false, H2 : (if wempty ?d then 0 else 1) = 0 |- _ =>
      rewrite H1 in H2; discriminate
  end.
Qed.

(** The only steps that move the main thread or set [done]. *)
Lemma main_thread_cases l s s' :
  next l s = Some s' ->
  (main_pc s' = main_pc s /\ done (ctx s') = done (ctx s)) \/
  (main_pc s = Polling /\ main_pc s' = SetDone /\ ctx s' = ctx s /\ threads s' = threads s
   /\ active_dir_count (ctx s) = 0 /\ dir_queue (ctx s) = []) \/
  (main_pc s = SetDone /\ main_pc s' = NotifyAll) \/
  (main_pc s = NotifyAll /\ main_pc s' = Joining /\ done (ctx s') = done (ctx s)) \/
  (main_pc s = Joining /\ main_pc s' = Closed /\ done (ctx s') = done (ctx s)
   /\ threads s' = threads s /\ Forall (fun w => pc w = Exited) (threads s)).
Proof.
  intros Hn. step_cases Hn; simpl; auto.
  - match goal with H : andb _ _ = true |- _ => apply andb_prop in H; destruct H as [H1 H2] end.
    right; left. repeat split; auto.
    + lia.
    + destruct (dir_queue (ctx s)); [reflexivity | discriminate].
  - do 3 right; left. auto.
  - do 4 right. repeat split; auto.
    match goal with H : forallb _ _ = true |- _ => rename H into Hf end.
    apply Forall_forall. intros w Hw. apply list_elem_of_In in Hw.
    rewrite forallb_forall in Hf. specialize (Hf w Hw).
    unfold is_exited in Hf. destruct (pc w); congruence.
Qed.

Lemma threads_length_step l s s' :
  next l s = Some s' -> List.length (threads s') = List.length (threads s).
Proof.
  intros Hn. step_cases Hn; simpl; rewrite ?length_insert, ?length_map; reflexivity.
Qed.

Lemma exited_stays l s s' :
  next l s = Some s' ->
  Forall (fun w => pc w = Exited) (threads s) ->
  Forall (fun w => pc w = Exited) (threads s').
Proof.
  intros Hn Hw.
  assert (Hlk : forall i w, threads s !! i = Some w -> pc w = Exited).
  { intros i w Hi. eapply Forall_lookup_1 in Hw; eassumption. }
  step_cases Hn; simpl; auto;
    repeat match goal with
           | H : threads s !! _ = Some _ |- _ => apply Hlk in H
           | H : is_blocked _ = true |- _ => apply blocked_pc in H
           end; try congruence.
  apply Forall_map. eapply Forall_impl; [eassumption|].
  intros w Hp. unfold wake, is_blocked. rewrite Hp. assumption.
Qed.

Lemma detection_invariant_step l s s' :
  Z.of_nat (List.length (threads s)) <= INT_MAX ->
  next l s = Some s' -> counter_invariant s ->
  detection_invariant s -> detection_invariant s'.
Proof.
  intros Hlen Hn Hc (Hq & Hd & He).
  pose proof (quiescent_step _ _ _ Hn) as Hqs.
  pose proof (exited_stays _ _ _ Hn) as Hes.
  destruct (main_thread_cases _ _ _ Hn)
    as [[Hm Hdn] | [(Hm & Hm' & Hctx & Hth & Hcnt & Hqe) | [[Hm Hm'] | [(Hm & Hm' & Hdn) | (Hm & Hm' & Hdn & Hth & Hex)]]]].
  - unfold detection_invariant. rewrite Hm, Hdn. split; [|split].
    + intros Hp. apply Hqs, Hq, Hp.
    + assumption.
    + intros Hcl. apply Hes, He, Hcl.
  - unfold detection_invariant. rewrite Hm', Hctx. split; [|split].
    + intros _. unfold quiescent. rewrite Hctx, Hth. split; [assumption|].
      unfold counter_invariant, active_work in Hc. rewrite Hcnt, Hqe in Hc. simpl in Hc.
      pose proof (sumZ_bounds in_flight (threads s) in_flight_range) as Hb.
      rewrite int_wrap_small in Hc by (unfold INT_MAX in Hlen; lia).
      apply sumZ_zero; [intros a; apply in_flight_range | lia].
    + intros Hd'. apply Hd in Hd'. tauto.
    + discriminate.
  - unfold detection_invariant. rewrite Hm'. split; [|split].
    + intros _. apply Hqs, Hq. congruence.
    + intros _. split; discriminate.
    + discriminate.
  - unfold detection_invariant. rewrite Hm'. split; [|split].
    + intros _. apply Hqs, Hq. congruence.
    + intros _. split; discriminate.
    + discriminate.
  - unfold detection_invariant. rewrite Hm'. split; [|split].
    + intros _. apply Hqs, Hq. congruence.
    + intros _. split; discriminate.
    + intros _. rewrite Hth. assumption.
Qed.

(** ** The reference traversal *)

Lemma tree_depth_le_mono h h' dir :
  tree_depth_le h dir = true -> (h <= h')%nat -> tree_depth_le h' dir = true.
Proof.
  revert h' dir. induction h as [|h IH]; intros h' dir Hd Hle; [discriminate|].
  destruct h' as [|h']; [lia|]. simpl in *.
  destruct (FindFiles (search_pattern dir)) as [entries|]; [|reflexivity].
  rewrite forallb_forall in *. intros x Hx. apply IH; [auto | lia].
Qed.

Lemma pushes_are_subdirs dir entries :
  forall x, In x (pushes dir entries) -> In x (subdirs_of dir entries).
Proof.
  unfold pushes, subdirs_of. induction entries as [|e entries IH]; simpl; intros x Hx; [assumption|].
  apply in_app_or in Hx. destruct Hx as [Hx|Hx].
  - destruct (process_entry dir e) eqn:Hp; simpl in Hx; try contradiction.
    destruct Hx as [<-|[]]. pose proof (process_entry_push _ _ _ Hp) as ->.
    assert (Hr : real_subdirectory e = true).
    { unfold real_subdirectory. unfold process_entry in Hp.
      destruct (is_directory e); simpl.
      - destruct (is_dot_or_dotdot (cFileName e)); [discriminate | reflexivity].
      - repeat (match type of Hp with context [if ?b then _ else _] => destruct b end);
          discriminate. }
    rewrite Hr. simpl. left; reflexivity.
  - destruct (real_subdirectory e); simpl; [right|]; apply IH; assumption.
Qed.

Lemma entry_lines_ext f g dir entries :
  (forall x, In x (pushes dir entries) -> f x = g x) ->
  flat_map (entry_lines f dir) entries = flat_map (entry_lines g dir) entries.
Proof.
  unfold pushes. induction entries as [|e entries IH]; simpl; intros Hfg; [reflexivity|].
  rewrite IH by (intros x Hx; apply Hfg; apply in_or_app; right; assumption).
  f_equal. unfold entry_lines. destruct (process_entry dir e) eqn:Hp; try reflexivity.
  apply Hfg. apply in_or_app. left. simpl. left; reflexivity.
Qed.

Lemma scan_stable h h1 h2 dir :
  tree_depth_le h dir = true -> (h <= h1)%nat -> (h <= h2)%nat ->
  scan h1 dir = scan h2 dir.
Proof.
  revert h1 h2 dir. induction h as [|h IH]; intros h1 h2 dir Hd H1 H2; [discriminate|].
  destruct h1 as [|h1]; [lia|]. destruct h2 as [|h2]; [lia|]. simpl in *.
  destruct (FindFiles (search_pattern dir)) as [entries|]; [|reflexivity].
  apply entry_lines_ext. intros x Hx. apply IH; try lia.
  rewrite forallb_forall in Hd. apply Hd, pushes_are_subdirs, Hx.
Qed.

Lemma scan_S h dir :
  scan (S h) dir = match FindFiles (search_pattern dir) with
                   | None => []
                   | Some entries => flat_map (entry_lines (scan h) dir) entries
                   end.
Proof. reflexivity. Qed.

(** One unfolding of the reference traversal at a fixed depth bound. *)
Lemma scan_unfold h dir :
  tree_depth_le h dir = true ->
  scan h dir = match FindFiles (search_pattern dir) with
               | None => []
               | Some entries => flat_map (entry_lines (scan h) dir) entries
               end.
Proof.
  intros Hd. destruct h as [|h]; [discriminate|]. rewrite scan_S. simpl in Hd.
  destruct (FindFiles (search_pattern dir)) as [entries|]; [|reflexivity].
  apply entry_lines_ext. intros x Hx.
  rewrite forallb_forall in Hd.
  apply (scan_stable h); [apply Hd, pushes_are_subdirs, Hx | lia | lia].
Qed.

Lemma pushes_depth h dir entries :
  tree_depth_le h dir = true -> FindFiles (search_pattern dir) = Some entries ->
  Forall (fun d => tree_depth_le h d = true) (pushes dir entries).
Proof.
  intros Hd Hf. destruct h as [|h]; [discriminate|]. simpl in Hd. rewrite Hf in Hd.
  rewrite forallb_forall in Hd. apply Forall_forall. intros x Hx.
  apply list_elem_of_In in Hx.
  apply (tree_depth_le_mono h); [|lia]. apply Hd, pushes_are_subdirs, Hx.
Qed.

(** ** Directories still to visit root finite trees *)

Lemma held_dirs_wake w : held_dirs (wake w) = held_dirs w.
Proof.
  unfold wake. destruct (is_blocked w) eqn:Hb; [|reflexivity].
  unfold held_dirs. rewrite (blocked_pc _ Hb). reflexivity.
Qed.

Lemma depth_invariant_step h l s s' :
  next l s = Some s' -> depth_invariant h s -> depth_invariant h s'.
Proof.
  unfold depth_invariant. intros Hn [Hq Hw].
  assert (Hlk : forall i w, threads s !! i = Some w ->
                            Forall (fun d => tree_depth_le h d = true) (held_dirs w)).
  { intros i w Hi. eapply Forall_lookup_1 in Hw; eassumption. }
  step_cases Hn; simpl; try dead_branch;
    repeat match goal with
           | H : threads s !! _ = Some _ |- _ => apply Hlk in H; unfold held_dirs in H
           | H : pc ?w = _ |- _ => rewrite H in *; clear H; simpl in *
           | H : wempty _ = _ |- _ => rewrite H in *; clear H
           | H : process_entry _ _ = _ |- _ => rewrite H in *; clear H; simpl in *
           end;
    try (split; [try assumption | repeat apply Forall_insert; try assumption;
                                  unfold held_dirs; simpl; try assumption; try constructor]).
  - inversion Hq; assumption.
  - destruct (wempty _); [constructor|]. inversion Hq; subst.
    constructor; [assumption | constructor].
  - match goal with
    | H : Forall _ [_] |- _ => inversion H; subst
    end.
    eapply pushes_depth; eassumption.
  - match goal with
    | H : Forall _ (_ :: pushes _ _) |- _ => inversion H; subst
    end.
    apply Forall_app; split; [assumption|]. constructor; [assumption | constructor].
  - match goal with
    | H : Forall _ (_ :: pushes _ _) |- _ => inversion H; subst
    end.
    assumption.
  - apply Forall_map. eapply Forall_impl; [eassumption|].
    intros w0 Hw0. simpl. fold (held_dirs (wake w0)). rewrite held_dirs_wake. assumption.
Qed.

Lemma seeds_are_subdirs entries c :
  forall x, In x (dir_queue (fold_left seed_step entries c)) ->
            In x (dir_queue c) \/ In x (subdirs_of (ROOT_DIR cfg) entries).
Proof.
  revert c. induction entries as [|e entries IH]; simpl; intros c x Hx; [left; assumption|].
  apply IH in Hx. unfold subdirs_of in *. simpl.
  destruct Hx as [Hx|Hx].
  - unfold seed_step, seed_entry, real_subdirectory in *.
    destruct (is_directory e); simpl in *; [|left; assumption].
    destruct (is_dot_or_dotdot (cFileName e)); simpl in *; [left; assumption|].
    destruct (top_level_prefix_ok (cFileName e)); simpl in *.
    + apply in_app_or in Hx. destruct Hx as [Hx|[<-|[]]]; [left; assumption|].
      right. left. reflexivity.
    + left; assumption.
  - right. destruct (real_subdirectory e); simpl; [right|]; assumption.
Qed.

Lemma main_start_queue n : dir_queue (ctx (main_start n)) = seeds.
Proof.
  unfold main_start, seeds.
  destruct (initialize_directory_queue opened) as [ok c]. destruct ok; reflexivity.
Qed.

Lemma seeds_depth h :
  tree_depth_le h (ROOT_DIR cfg) = true ->
  Forall (fun d => tree_depth_le h d = true) seeds.
Proof.
  intros Hd. unfold seeds, initialize_directory_queue.
  destruct h as [|h]; [discriminate|]. simpl in Hd.
  destruct (FindFiles (search_pattern (ROOT_DIR cfg))) as [entries|]; simpl; [|constructor].
  rewrite forallb_forall in Hd. apply Forall_forall. intros x Hx.
  apply list_elem_of_In in Hx. apply seeds_are_subdirs in Hx. destruct Hx as [[]|Hx].
  change (tree_depth_le (S h) x = true).
  apply (tree_depth_le_mono h); [auto | lia].
Qed.

Lemma depth_invariant_start h n :
  tree_depth_le h (ROOT_DIR cfg) = true -> depth_invariant h (main_start n).
Proof.
  intros Hd. split.
  - rewrite main_start_queue. apply seeds_depth, Hd.
  - unfold main_start. destruct (initialize_directory_queue opened) as [ok c].
    destruct ok; simpl; [|constructor].
    apply Forall_forall. intros w Hw. apply elem_of_replicate in Hw as [-> _]. constructor.
Qed.

(** ** Output accounting *)

Lemma occZ_app x l1 l2 : occZ x (l1 ++ l2) = occZ x l1 + occZ x l2.
Proof. unfold occZ. rewrite count_occ_app. lia. Qed.

Lemma occZ_cons x a l : occZ x (a :: l) = occ1 x a + occZ x l.
Proof. unfold occZ, occ1. simpl. destruct (string_dec a x); lia. Qed.

Lemma occZ_nil x : occZ x [] = 0.
Proof. reflexivity. Qed.

Lemma occZ_flat_map {A} x (f : A -> list string) l :
  occZ x (flat_map f l) = sumZ (fun a => occZ x (f a)) l.
Proof.
  induction l as [|a l IH]; simpl; [reflexivity|]. rewrite occZ_app, IH. reflexivity.
Qed.

Lemma perm_occZ (l1 l2 : list string) :
  l1 ≡ₚ l2 <-> forall x, occZ x l1 = occZ x l2.
Proof.
  rewrite (Permutation.Permutation_count_occ string_dec). unfold occZ.
  split; intros H x; specialize (H x); lia.
Qed.

Lemma pending_wake h w : pending h (wake w) = pending h w.
Proof.
  unfold wake. destruct (is_blocked w) eqn:Hb; [|reflexivity].
  unfold pending, owed. simpl. rewrite (blocked_pc _ Hb). reflexivity.
Qed.

Lemma output_invariant_step h l s s' :
  next l s = Some s' -> queue_nonempty_paths s -> depth_invariant h s ->
  output_invariant h s -> output_invariant h s'.
Proof.
  unfold output_invariant, queue_nonempty_paths. intros Hn Hq [Hdq Hdw] Hinv.
  assert (Hlk : forall i w, threads s !! i = Some w ->
                            Forall (fun d => tree_depth_le h d = true) (held_dirs w)).
  { intros i w Hi. eapply Forall_lookup_1 in Hdw; eassumption. }
  rewrite perm_occZ in Hinv. apply perm_occZ. intros x. specialize (Hinv x).
  rewrite <- Hinv. clear Hinv.
  step_cases Hn; simpl; try dead_branch;
    rewrite ?occZ_app, ?occZ_flat_map; sum_updates;
    try (rewrite sumZ_map, (sumZ_ext _ (fun w => occZ x (pending h w)))
           by (intros a; rewrite pending_wake; reflexivity));
    try lia;
    generalize (sumZ (fun a => occZ x (pending h a)) (threads s)); intros total;
    repeat match goal with
           | H : threads s !! _ = Some ?w |- _ =>
               apply Hlk in H; unfold held_dirs in H
           end;
    unfold pending, owed; simpl;
    repeat match goal with
           | H : pc ?w = _ |- _ => rewrite H in *; clear H; simpl in *
           | H : is_blocked ?w = true |- _ => apply blocked_pc in H
           | H : wempty _ = _ |- _ => rewrite H in *; clear H; simpl in *
           | H : process_entry _ _ = _ |- _ =>
               unfold entry_lines at 1; rewrite H in *; clear H; simpl in *
           | H : local_out_buf _ = _ |- _ => rewrite H in *; clear H; simpl in *
           | H : Forall (fun p => p <> []) (?d :: _) |- _ =>
               is_var d; destruct d; [inversion H; congruence | clear H; simpl in *]
           | H : Forall _ [?d], F : FindFiles (search_pattern ?d) = _ |- _ =>
               inversion H; subst; clear H;
               rewrite (scan_unfold h d) by assumption; rewrite F
           end;
    rewrite ?occZ_app, ?occZ_cons, ?occZ_nil, ?occZ_flat_map, ?sumZ_app; simpl;
    rewrite ?occZ_app, ?occZ_cons, ?occZ_nil, ?occZ_flat_map, ?sumZ_app; simpl;
    try lia.
Qed.

Lemma flat_map_replicate_nil {A B} (f : A -> list B) n a :
  f a = [] -> flat_map f (replicate n a) = [].
Proof. intros Ha. induction n as [|n IH]; simpl; [reflexivity | rewrite Ha, IH; reflexivity]. Qed.

Lemma main_start_out n : out_fp (ctx (main_start n)) = [header].
Proof.
  assert (Hf : forall entries c, out_fp (fold_left seed_step entries c) = out_fp c).
  { induction entries as [|e entries IH]; intros c; simpl; [reflexivity|].
    rewrite IH. unfold seed_step. destruct (seed_entry e); reflexivity. }
  unfold main_start, initialize_directory_queue.
  destruct (FindFiles (search_pattern (ROOT_DIR cfg))) as [entries|]; simpl.
  - destruct (0 <? _); simpl; apply Hf.
  - reflexivity.
Qed.

Lemma main_start_threads n :
  threads (main_start n) = [] \/ threads (main_start n) = replicate n fresh_worker.
Proof.
  unfold main_start. destruct (initialize_directory_queue opened) as [ok c].
  destruct ok; simpl; auto.
Qed.

Lemma output_invariant_start h n : output_invariant h (main_start n).
Proof.
  unfold output_invariant. rewrite main_start_queue, main_start_out.
  destruct (main_start_threads n) as [-> | ->]; simpl.
  - reflexivity.
  - rewrite flat_map_replicate_nil by reflexivity. reflexivity.
Qed.

(** ** The matched-file counter *)

Lemma buffered_wake w : buffered (wake w) = buffered w.
Proof. unfold wake. destruct (is_blocked w); reflexivity. Qed.

Lemma file_count_invariant_step l s s' :
  next l s = Some s' -> file_count_invariant s -> file_count_invariant s'.
Proof.
  unfold file_count_invariant, records_produced. intros Hn Hc.
  step_cases Hn; simpl; try dead_branch; sum_updates;
    try (rewrite sumZ_map, (sumZ_ext _ _ _ buffered_wake));
    unfold buffered in *; simpl;
    repeat match goal with
           | H : local_out_buf _ = _ |- _ => rewrite H in *; clear H; simpl in *
           end;
    rewrite ?length_app; simpl;
    try (rewrite Hc; rewrite ?llong_wrap_idem; f_equal; lia).
Qed.

Lemma main_start_file_count n : file_count (ctx (main_start n)) = 0.
Proof.
  assert (Hf : forall entries c, file_count (fold_left seed_step entries c) = file_count c).
  { induction entries as [|e entries IH]; intros c; simpl; [reflexivity|].
    rewrite IH. unfold seed_step. destruct (seed_entry e); reflexivity. }
  unfold main_start, initialize_directory_queue.
  destruct (FindFiles (search_pattern (ROOT_DIR cfg))) as [entries|]; simpl.
  - destruct (0 <? _); simpl; apply Hf.
  - reflexivity.
Qed.

Lemma file_count_invariant_start n : file_count_invariant (main_start n).
Proof.
  unfold file_count_invariant, records_produced.
  rewrite main_start_file_count, main_start_out.
  destruct (main_start_threads n) as [-> | ->]; simpl.
  - reflexivity.
  - rewrite sumZ_replicate by reflexivity. reflexivity.
Qed.

(** ** Buffers of exited workers *)

Lemma flushed_invariant_step l s s' :
  next l s = Some s' -> flushed_invariant s -> flushed_invariant s'.
Proof.
  unfold flushed_invariant. intros Hn Hw.
  assert (Hlk : forall i w, threads s !! i = Some w -> pc w = Exited -> local_out_buf w = []).
  { intros i w Hi. eapply Forall_lookup_1 in Hw; eassumption. }
  step_cases Hn; simpl; try dead_branch; try assumption;
    repeat apply Forall_insert; try assumption; simpl; try discriminate; auto.
  apply Forall_map. eapply Forall_impl; [eassumption|].
  intros w Hw0. unfold wake. destruct (is_blocked w) eqn:Hb; simpl; [discriminate | assumption].
Qed.

Lemma flushed_invariant_start n : flushed_invariant (main_start n).
Proof.
  unfold flushed_invariant.
  destruct (main_start_threads n) as [-> | ->]; [constructor|].
  apply Forall_forall. intros w Hw. apply elem_of_replicate in Hw as [-> _]. reflexivity.
Qed.

(** ** A schedule that completes: one worker does all the work *)

Lemma lookup_lt_length {A} (l : list A) i a : l !! i = Some a -> (i < List.length l)%nat.
Proof. intros H. eapply lookup_lt_Some; eassumption. Qed.

(** The first worker handles every remaining entry of the directory it
    enumerates. *)
Lemma enumerate_rest dir rest :
  forall s w,
    q_m s = None -> main_pc s = Polling ->
    threads s !! 0%nat = Some w -> pc w = Enumerating dir rest ->
    exists s' w',
      steps s s' /\ q_m s' = None /\ main_pc s' = Polling /\
      threads s' = <[0%nat := w']> (threads s) /\ pc w' = Enumerating dir [] /\
      dir_queue (ctx s') = dir_queue (ctx s) ++ pushes dir rest /\
      done (ctx s') = done (ctx s).
Proof.
  induction rest as [|e rest IH]; intros s w Hm Hp Hw Hpc.
  - exists s, w. repeat split; try assumption.
    + apply steps_refl.
    + symmetry. apply list_insert_id, Hw.
    + simpl. rewrite app_nil_r. reflexivity.
  - pose proof (lookup_lt_length _ _ _ Hw) as Hlen.
    destruct (process_entry dir e) eqn:Hpe.
    + (* Skip *)
      set (s1 := update s (ctx s) (q_m s) 0 (at_pc (Enumerating dir rest) w)).
      assert (Hn : next (Worker 0) s = Some s1).
      { simpl. unfold worker_next. rewrite Hw, Hpc, Hpe. reflexivity. }
      destruct (IH s1 (at_pc (Enumerating dir rest) w)) as (s' & w' & Hs & H1 & H2 & H3 & H4 & H5 & H6);
        try assumption; try reflexivity.
      { simpl. apply list_lookup_insert_eq, Hlen. }
      exists s', w'. repeat split; try assumption.
      * eapply steps_next; eassumption.
      * rewrite H3. simpl. apply list_insert_insert_eq.
      * rewrite H5. simpl. unfold pushes. simpl. rewrite Hpe. reflexivity.
    + (* Push *)
      set (s1 := update s (enqueue (ctx s) subdir) None 0 (at_pc (Notifying dir rest) w)).
      assert (Hn1 : next (Worker 0) s = Some s1).
      { simpl. unfold worker_next. rewrite Hw, Hpc, Hpe, Hm. reflexivity. }
      set (s2 := update s1 (ctx s1) (q_m s1) 0
                   (at_pc (Enumerating dir rest) (at_pc (Notifying dir rest) w))).
      assert (Hn2 : next (NotifyOne 0 None) s1 = Some s2).
      { simpl. unfold notify_next. simpl.
        rewrite (list_lookup_insert_eq _ _ _ Hlen). simpl.
        rewrite Hp, orb_true_r. reflexivity. }
      destruct (IH s2 (at_pc (Enumerating dir rest) (at_pc (Notifying dir rest) w)))
        as (s' & w' & Hs & H1 & H2 & H3 & H4 & H5 & H6); try assumption; try reflexivity.
      { simpl. apply list_lookup_insert_eq. rewrite length_insert. exact Hlen. }
      exists s', w'. repeat split; try assumption.
      * eapply steps_next; [exact Hn1|]. eapply steps_next; eassumption.
      * rewrite H3. simpl. rewrite !list_insert_insert_eq. reflexivity.
      * rewrite H5. simpl. unfold pushes. simpl. rewrite Hpe. simpl.
        rewrite <- app_assoc. reflexivity.
    + (* Append *)
      destruct (buffer_full (local_out_buf w ++ [line])) eqn:Hfull.
      * set (w1 := {| pc := Enumerating dir rest; local_out_buf := [] |}).
        set (s1 := update s (fwrite (count_file (ctx s)) (local_out_buf w ++ [line])) (q_m s) 0 w1).
        assert (Hn : next (Worker 0) s = Some s1).
        { simpl. unfold worker_next. rewrite Hw, Hpc, Hpe. cbv zeta. rewrite Hfull. reflexivity. }
        destruct (IH s1 w1) as (s' & w' & Hs & H1 & H2 & H3 & H4 & H5 & H6);
          try assumption; try reflexivity.
        { simpl. apply list_lookup_insert_eq, Hlen. }
        exists s', w'. repeat split; try assumption.
        -- eapply steps_next; eassumption.
        -- rewrite H3. simpl. apply list_insert_insert_eq.
        -- rewrite H5. simpl. unfold pushes. simpl. rewrite Hpe. reflexivity.
      * set (w1 := {| pc := Enumerating dir rest; local_out_buf := local_out_buf w ++ [line] |}).
        set (s1 := update s (count_file (ctx s)) (q_m s) 0 w1).
        assert (Hn : next (Worker 0) s = Some s1).
        { simpl. unfold worker_next. rewrite Hw, Hpc, Hpe. cbv zeta. rewrite Hfull. reflexivity. }
        destruct (IH s1 w1) as (s' & w' & Hs & H1 & H2 & H3 & H4 & H5 & H6);
          try assumption; try reflexivity.
        { simpl. apply list_lookup_insert_eq, Hlen. }
        exists s', w'. repeat split; try assumption.
        -- eapply steps_next; eassumption.
        -- rewrite H3. simpl. apply list_insert_insert_eq.
        -- rewrite H5. simpl. unfold pushes. simpl. rewrite Hpe. reflexivity.
    + (* ConversionFailed *)
      set (s1 := update s (ctx s) (q_m s) 0 (at_pc (Enumerating dir rest) w)).
      assert (Hn : next (Worker 0) s = Some s1).
      { simpl. unfold worker_next. rewrite Hw, Hpc, Hpe. reflexivity. }
      destruct (IH s1 (at_pc (Enumerating dir rest) w)) as (s' & w' & Hs & H1 & H2 & H3 & H4 & H5 & H6);
        try assumption; try reflexivity.
      { simpl. apply list_lookup_insert_eq, Hlen. }
      exists s', w'. repeat split; try assumption.
      * eapply steps_next; eassumption.
      * rewrite H3. simpl. apply list_insert_insert_eq.
      * rewrite H5. simpl. unfold pushes. simpl. rewrite Hpe. reflexivity.
Qed.

(** The first worker takes the front directory and processes it completely. *)
Lemma process_one s dir q :
  all_waiting s -> (0 < List.length (threads s))%nat ->
  dir_queue (ctx s) = dir :: q -> dir <> [] ->
  exists s',
    steps s s' /\ all_waiting s' /\
    List.length (threads s') = List.length (threads s) /\
    dir_queue (ctx s') = q ++ enqueued_by dir.
Proof.
  intros (Hm & Hp & Hd & Hall) Hlen Hq Hne.
  destruct (threads s !! 0%nat) as [w|] eqn:Hw;
    [|apply lookup_ge_None in Hw; lia].
  assert (Hpc : pc w = AtWait) by (eapply Forall_lookup_1 in Hall; eassumption).
  set (w1 := at_pc (Holding dir) w).
  set (s1 := update s (set_queue (ctx s) q) None 0 w1).
  assert (Hn1 : next (Worker 0) s = Some s1).
  { simpl. unfold worker_next. rewrite Hw, Hpc, Hm, Hq, Hd. reflexivity. }
  assert (Hw1 : threads s1 !! 0%nat = Some w1).
  { simpl. apply list_lookup_insert_eq, Hlen. }
  assert (Hemp : wempty dir = false) by (destruct dir; [congruence | reflexivity]).
  unfold enqueued_by.
  destruct (FindFiles (search_pattern dir)) as [entries|] eqn:Hf.
  - set (w2 := at_pc (Enumerating dir entries) w1).
    set (s2 := update s1 (ctx s1) (q_m s1) 0 w2).
    assert (Hn2 : next (Worker 0) s1 = Some s2).
    { simpl. unfold worker_next. rewrite Hw1. simpl. rewrite Hemp, Hf. reflexivity. }
    destruct (enumerate_rest dir entries s2 w2)
      as (s3 & w3 & Hs3 & Hm3 & Hp3 & Ht3 & Hpc3 & Hq3 & Hd3); try reflexivity; try assumption.
    { simpl. apply list_lookup_insert_eq. rewrite length_insert. exact Hlen. }
    assert (Hw3 : threads s3 !! 0%nat = Some w3).
    { rewrite Ht3. apply list_lookup_insert_eq. simpl. rewrite !length_insert. exact Hlen. }
    set (s4 := update s3 (mark_complete (ctx s3)) (q_m s3) 0 (at_pc AtWait w3)).
    assert (Hn4 : next (Worker 0) s3 = Some s4).
    { simpl. unfold worker_next. rewrite Hw3, Hpc3. reflexivity. }
    exists s4. split; [|split; [|split]].
    + eapply steps_next; [exact Hn1|]. eapply steps_next; [exact Hn2|].
      eapply steps_trans; [exact Hs3|]. eapply steps_one; exact Hn4.
    + unfold all_waiting. simpl. rewrite Hm3, Hp3, Hd3. simpl. repeat split; try assumption.
      rewrite Ht3. simpl. rewrite !list_insert_insert_eq.
      apply Forall_insert; [assumption | reflexivity].
    + simpl. rewrite Ht3. simpl. rewrite !length_insert. reflexivity.
    + simpl. rewrite Hq3. reflexivity.
  - set (s2 := update s1 (mark_complete (ctx s1)) (q_m s1) 0 (at_pc AtWait w1)).
    assert (Hn2 : next (Worker 0) s1 = Some s2).
    { simpl. unfold worker_next. rewrite Hw1. simpl. rewrite Hemp, Hf. reflexivity. }
    exists s2. split; [|split; [|split]].
    + eapply steps_next; [exact Hn1|]. eapply steps_one; exact Hn2.
    + unfold all_waiting. simpl. repeat split; try assumption.
      rewrite !list_insert_insert_eq.
      apply Forall_insert; [assumption | reflexivity].
    + simpl. rewrite !length_insert. reflexivity.
    + simpl. rewrite app_nil_r. reflexivity.
Qed.

Lemma enqueued_by_depth h dir :
  tree_depth_le (S h) dir = true ->
  Forall (fun d => tree_depth_le h d = true) (enqueued_by dir).
Proof.
  intros Hd. unfold enqueued_by. simpl in Hd.
  destruct (FindFiles (search_pattern dir)) as [entries|]; [|constructor].
  rewrite forallb_forall in Hd. apply Forall_forall. intros x Hx.
  apply list_elem_of_In in Hx. apply Hd, pushes_are_subdirs, Hx.
Qed.

Lemma enqueued_by_nonempty dir : Forall (fun d => d <> []) (enqueued_by dir).
Proof.
  unfold enqueued_by. destruct (FindFiles (search_pattern dir)) as [entries|]; [|constructor].
  unfold pushes. induction entries as [|e entries IH]; simpl; [constructor|].
  apply Forall_app; split; [|assumption].
  destruct (process_entry dir e) eqn:Hp; try constructor; [|constructor].
  rewrite (process_entry_push _ _ _ Hp). apply child_path_nonempty.
Qed.

(** Directories of depth at most [S h] in front, of depth at most [h]
    behind: the front is processed first, its subdirectories join the back. *)
Lemma drain_level h :
  (forall s, all_waiting s -> (0 < List.length (threads s))%nat ->
             Forall (fun d => d <> []) (dir_queue (ctx s)) ->
             Forall (fun d => tree_depth_le h d = true) (dir_queue (ctx s)) ->
             exists s', drained s s') ->
  forall front s back,
    all_waiting s -> (0 < List.length (threads s))%nat ->
    dir_queue (ctx s) = front ++ back ->
    Forall (fun d => d <> []) (front ++ back) ->
    Forall (fun d => tree_depth_le (S h) d = true) front ->
    Forall (fun d => tree_depth_le h d = true) back ->
    exists s', drained s s'.
Proof.
  intros IHh. induction front as [|dir front IH]; intros s back Hall Hlen Hq Hne Hf Hb.
  - simpl in *. apply IHh; try assumption; rewrite Hq; assumption.
  - simpl in Hq, Hne. inversion Hne as [|? ? Hdne Hne']; subst.
    inversion Hf as [|? ? Hdd Hf']; subst.
    destruct (process_one s dir (front ++ back) Hall Hlen Hq Hdne)
      as (s1 & Hs1 & Hall1 & Hlen1 & Hq1).
    destruct (IH s1 (back ++ enqueued_by dir)) as (s' & Hs' & Hall' & Hlen' & Hq');
      try assumption.
    + lia.
    + rewrite Hq1, app_assoc. reflexivity.
    + rewrite app_assoc. apply Forall_app; split; [assumption | apply enqueued_by_nonempty].
    + apply Forall_app; split; [assumption | apply enqueued_by_depth, Hdd].
    + exists s'. split; [|split; [|split]]; try assumption.
      * eapply steps_trans; eassumption.
      * lia.
Qed.

Lemma drain h :
  forall s, all_waiting s -> (0 < List.length (threads s))%nat ->
            Forall (fun d => d <> []) (dir_queue (ctx s)) ->
            Forall (fun d => tree_depth_le h d = true) (dir_queue (ctx s)) ->
            exists s', drained s s'.
Proof.
  induction h as [|h IH]; intros s Hall Hlen Hne Hd.
  - destruct (dir_queue (ctx s)) as [|d q] eqn:Hq.
    + exists s. split; [apply steps_refl | auto].
    + inversion Hd; subst. discriminate.
  - apply (drain_level h IH (dir_queue (ctx s)) s []); try assumption.
    + rewrite app_nil_r. reflexivity.
    + rewrite app_nil_r. assumption.
    + constructor.
Qed.

(** Workers [k], [k+1], ... see [done] with an empty queue, flush and exit. *)
Lemma exit_from m :
  forall k s,
    shutting_down s -> (List.length (threads s) - k)%nat = m ->
    (forall j w, threads s !! j = Some w ->
                 ((j < k)%nat -> pc w = Exited) /\ ((k <= j)%nat -> pc w = AtWait)) ->
    exists s', steps s s' /\ shutting_down s' /\
               Forall (fun w => pc w = Exited) (threads s').
Proof.
  induction m as [|m IH]; intros k s Hsd Hm Hws.
  - exists s. split; [apply steps_refl | split; [assumption|]].
    apply Forall_lookup_2. intros j w Hj.
    pose proof (lookup_lt_length _ _ _ Hj). apply (Hws j w Hj). lia.
  - destruct Hsd as (Hlock & Hmain & Hdone & Hq).
    destruct (threads s !! k) as [w|] eqn:Hw; [|apply lookup_ge_None in Hw; lia].
    pose proof (lookup_lt_length _ _ _ Hw) as Hlen.
    assert (Hpc : pc w = AtWait) by (apply (Hws k w Hw); lia).
    set (w1 := at_pc FinalFlush w).
    set (s1 := update s (ctx s) None k w1).
    assert (Hn1 : next (Worker k) s = Some s1).
    { simpl. unfold worker_next. rewrite Hw, Hpc, Hlock, Hq, Hdone. reflexivity. }
    assert (Hw1 : threads s1 !! k = Some w1).
    { simpl. apply list_lookup_insert_eq, Hlen. }
    assert (Hex : exists s2 w2,
               next (Worker k) s1 = Some s2 /\ pc w2 = Exited /\
               threads s2 = <[k := w2]> (threads s1) /\ q_m s2 = None /\
               main_pc s2 = Joining /\ done (ctx s2) = true /\ dir_queue (ctx s2) = []).
    { destruct (local_out_buf w) as [|r buf] eqn:Hbuf.
      - exists (update s1 (ctx s1) (q_m s1) k (at_pc Exited w1)), (at_pc Exited w1).
        repeat split; try assumption.
        simpl. unfold worker_next. rewrite Hw1. simpl. rewrite Hbuf. reflexivity.
      - exists (update s1 (fwrite (ctx s1) (r :: buf)) (q_m s1) k
                  {| pc := Exited; local_out_buf := [] |}),
               {| pc := Exited; local_out_buf := [] |}.
        repeat split; try assumption.
        simpl. unfold worker_next. rewrite Hw1. simpl. rewrite Hbuf. reflexivity. }
    destruct Hex as (s2 & w2 & Hn2 & Hpc2 & Ht2 & Hlock2 & Hmain2 & Hdone2 & Hq2).
    destruct (IH (S k) s2) as (s' & Hs' & Hsd' & Hall').
    + repeat split; assumption.
    + rewrite Ht2. simpl. rewrite !length_insert. lia.
    + intros j wj Hj. rewrite Ht2 in Hj. simpl in Hj.
      rewrite list_insert_insert_eq in Hj.
      destruct (decide (j = k)) as [->|Hne].
      * rewrite list_lookup_insert_eq in Hj by exact Hlen. inversion Hj; subst.
        split; [intros _; assumption | lia].
      * rewrite list_lookup_insert_ne in Hj by congruence.
        destruct (Hws j wj Hj) as [Hlt Hge]. split; intros Hjk; [apply Hlt | apply Hge]; lia.
    + exists s'. split; [|split; assumption].
      eapply steps_next; [exact Hn1|]. eapply steps_next; [exact Hn2 | exact Hs'].
Qed.

Lemma wake_waiting ws :
  Forall (fun w => pc w = AtWait) ws -> map wake ws = ws.
Proof.
  induction 1 as [|w ws Hw _ IH]; simpl; [reflexivity|].
  rewrite IH. unfold wake, is_blocked. rewrite Hw. reflexivity.
Qed.

(** From a drained state the main thread detects completion, publishes
    [done], and every worker exits. *)
Lemma shutdown s :
  all_waiting s -> dir_queue (ctx s) = [] -> counter_invariant s ->
  exists s', steps s s' /\ complete s'.
Proof.
  intros (Hlock & Hmain & Hdone & Hall) Hq Hc.
  assert (Hcnt : active_dir_count (ctx s) = 0).
  { unfold counter_invariant, active_work in Hc. rewrite Hc, Hq. simpl.
    rewrite sumZ_Forall_zero; [reflexivity|].
    eapply Forall_impl; [exact Hall|]. intros w Hw. unfold in_flight. rewrite Hw. reflexivity. }
  set (s1 := {| ctx := ctx s; q_m := None; threads := threads s; main_pc := SetDone |}).
  assert (Hn1 : next Main s = Some s1).
  { simpl. unfold main_next. rewrite Hmain, Hlock, Hcnt, Hq. reflexivity. }
  set (s2 := {| ctx := store_done (ctx s); q_m := None; threads := threads s;
                main_pc := NotifyAll |}).
  assert (Hn2 : next Main s1 = Some s2) by reflexivity.
  set (s3 := {| ctx := store_done (ctx s); q_m := None; threads := threads s;
                main_pc := Joining |}).
  assert (Hn3 : next Main s2 = Some s3).
  { simpl. unfold main_next. simpl. rewrite (wake_waiting _ Hall). reflexivity. }
  destruct (exit_from (List.length (threads s3) - 0) 0 s3) as (s4 & Hs4 & Hsd4 & Hall4).
  - repeat split; assumption.
  - reflexivity.
  - intros j w Hj. split; [lia|]. intros _.
    eapply Forall_lookup_1 in Hall; eassumption.
  - destruct Hsd4 as (Hlock4 & Hmain4 & _).
    set (s5 := {| ctx := ctx s4; q_m := q_m s4; threads := threads s4; main_pc := Closed |}).
    assert (Hn5 : next Main s4 = Some s5).
    { simpl. unfold main_next. rewrite Hmain4.
      replace (forallb is_exited (threads s4)) with true; [reflexivity|].
      symmetry. apply forallb_forall. intros w Hw.
      apply list_elem_of_In in Hw. rewrite Forall_forall in Hall4.
      unfold is_exited. rewrite (Hall4 w Hw). reflexivity. }
    exists s5. split; [|reflexivity].
    eapply steps_next; [exact Hn1|]. eapply steps_next; [exact Hn2|].
    eapply steps_next; [exact Hn3|]. eapply steps_trans; [exact Hs4|].
    eapply steps_one; exact Hn5.
Qed.

Lemma seed_fold_done entries c : done (fold_left seed_step entries c) = done c.
Proof.
  revert c. induction entries as [|e entries IH]; intros c; simpl; [reflexivity|].
  rewrite IH. unfold seed_step. destruct (seed_entry e); reflexivity.
Qed.


(** ** Invariants of every reachable state *)

Lemma closed_invariant_step l s s' :
  next l s = Some s' -> closed_invariant s -> closed_invariant s'.
Proof.
  unfold closed_invariant. intros Hn Hc.
  pose proof (exited_stays _ _ _ Hn) as Hes.
  destruct (main_thread_cases _ _ _ Hn)
    as [[Hm Hdn] | [(Hm & Hm' & _) | [[Hm Hm'] | [(Hm & Hm' & _) | (Hm & Hm' & Hdn & Hth & Hex)]]]];
    rewrite ?Hm'; try discriminate.
  - rewrite Hm. intros Hcl. apply Hes, Hc, Hcl.
  - intros _. rewrite Hth. assumption.
Qed.

Lemma closed_invariant_start n : closed_invariant (main_start n).
Proof.
  unfold closed_invariant, main_start.
  destruct (initialize_directory_queue opened) as [ok c].
  destruct ok; simpl; [discriminate | constructor].
Qed.

Lemma closed_invariant_reachable n s : reachable n s -> closed_invariant s.
Proof.
  intros Hr. eapply (steps_invariant closed_invariant); try eassumption.
  - apply closed_invariant_step.
  - apply closed_invariant_start.
Qed.

Lemma file_count_invariant_reachable n s : reachable n s -> file_count_invariant s.
Proof.
  intros Hr. eapply (steps_invariant file_count_invariant); try eassumption.
  - apply file_count_invariant_step.
  - apply file_count_invariant_start.
Qed.

Lemma flushed_invariant_reachable n s : reachable n s -> flushed_invariant s.
Proof.
  intros Hr. eapply (steps_invariant flushed_invariant); try eassumption.
  - apply flushed_invariant_step.
  - apply flushed_invariant_start.
Qed.

Lemma threads_length_reachable n s :
  reachable n s -> (List.length (threads s) <= n)%nat.
Proof.
  intros Hr.
  eapply (steps_invariant (fun s => (List.length (threads s) <= n)%nat)); try eassumption.
  - intros l s1 s2 Hn Hle. rewrite (threads_length_step _ _ _ Hn). exact Hle.
  - destruct (main_start_threads n) as [-> | ->]; simpl; [lia | rewrite length_replicate; lia].
Qed.

Lemma seeds_counter : active_dir_count (snd (initialize_directory_queue opened))
                      = int_wrap (Z.of_nat (List.length seeds)).
Proof.
  unfold seeds, initialize_directory_queue.
  destruct (FindFiles (search_pattern (ROOT_DIR cfg))) as [entries|]; simpl; [|reflexivity].
  apply seed_fold_counter. reflexivity.
Qed.

Lemma detection_invariant_start n :
  Z.of_nat (List.length seeds) <= INT_MAX -> detection_invariant (main_start n).
Proof.
  intros Hs. pose proof seeds_counter as Hc.
  rewrite int_wrap_small in Hc by (unfold INT_MAX in Hs; lia).
  unfold detection_invariant, quiescent, main_start, seeds in *.
  destruct (initialize_directory_queue opened) as [ok c] eqn:Hi.
  assert (Hok : ok = (0 <? active_dir_count c) \/ (ok = false /\ dir_queue c = [])).
  { revert Hi. unfold initialize_directory_queue.
    destruct (FindFiles (search_pattern (ROOT_DIR cfg))) as [entries|].
    - intros Hi. inversion Hi; subst. left; reflexivity.
    - intros Hi. inversion Hi; subst. right. split; reflexivity. }
  assert (Hdn : done c = false).
  { revert Hi. unfold initialize_directory_queue.
    destruct (FindFiles (search_pattern (ROOT_DIR cfg))) as [entries|];
      intros Hi; inversion Hi; subst; [apply seed_fold_done | reflexivity]. }
  simpl in Hc.
  destruct ok; simpl.
  - repeat split; try congruence.
  - split; [|split].
    + intros _. split; [|constructor].
      destruct Hok as [Hok | [_ Hq]]; [|assumption].
      symmetry in Hok. apply Z.ltb_ge in Hok.
      destruct (dir_queue c); [reflexivity | simpl in Hc; lia].
    + congruence.
    + intros _. constructor.
Qed.

Lemma exit_invariant_step l s s' :
  next l s = Some s' -> exit_invariant s -> exit_invariant s'.
Proof.
  unfold exit_invariant. intros Hn Hw.
  assert (Hlk : forall i w, threads s !! i = Some w ->
                            pc w = FinalFlush \/ pc w = Exited -> done (ctx s) = true).
  { intros i w Hi. eapply Forall_lookup_1 in Hw; eassumption. }
  step_cases Hn; simpl; try dead_branch; try assumption;
    repeat match goal with
           | H : threads s !! _ = Some _ |- _ => pose proof (Hlk _ _ H); clear H
           | H : is_blocked _ = true |- _ => apply blocked_pc in H
           end;
    repeat apply Forall_insert; try assumption; simpl;
    try (intros [?|?]; discriminate).
  - intros _. match goal with H : andb _ _ = true |- _ => apply andb_prop in H; tauto end.
  - intros _. match goal with
              | H : pc ?w = FinalFlush, H' : pc ?w = FinalFlush \/ _ -> _ |- _ =>
                  apply H'; left; exact H
              end.
  - intros _. match goal with
              | H : pc ?w = FinalFlush, H' : pc ?w = FinalFlush \/ _ -> _ |- _ =>
                  apply H'; left; exact H
              end.
  - apply Forall_forall. intros; reflexivity.
  - apply Forall_map. eapply Forall_impl; [eassumption|].
    intros w Hw0 Hpc. apply Hw0. unfold wake in Hpc.
    destruct (is_blocked w); [destruct Hpc; discriminate | assumption].
Qed.

Lemma exit_invariant_start n : exit_invariant (main_start n).
Proof.
  unfold exit_invariant.
  destruct (main_start_threads n) as [-> | ->]; [constructor|].
  apply Forall_forall. intros w Hw. apply elem_of_replicate in Hw as [-> _].
  simpl. intros [?|?]; discriminate.
Qed.

(** All invariants of a reachable state, for a pool that fits an [int] and
    a seeding that does not overflow the counter. *)
Lemma reachable_invariants h n s :
  tree_depth_le h (ROOT_DIR cfg) = true ->
  Z.of_nat n <= INT_MAX -> Z.of_nat (List.length seeds) <= INT_MAX ->
  reachable n s ->
  queue_nonempty_paths s /\ counter_invariant s /\ detection_invariant s /\
  depth_invariant h s /\ output_invariant h s /\ exit_invariant s.
Proof.
  intros Hd Hn Hs Hr.
  eapply (steps_invariant (fun s =>
            (List.length (threads s) <= n)%nat /\
            queue_nonempty_paths s /\ counter_invariant s /\ detection_invariant s /\
            depth_invariant h s /\ output_invariant h s /\ exit_invariant s)) in Hr.
  - tauto.
  - intros l s1 s2 Hstep (Hlen & H1 & H2 & H3 & H4 & H5 & H6).
    split; [rewrite (threads_length_step _ _ _ Hstep); exact Hlen|].
    split; [eapply queue_nonempty_paths_step; eassumption|].
    split; [eapply counter_invariant_step; eassumption|].
    split; [eapply detection_invariant_step; try eassumption; lia|].
    split; [eapply depth_invariant_step; eassumption|].
    split; [eapply output_invariant_step; eassumption|].
    eapply exit_invariant_step; eassumption.
  - split; [apply threads_length_reachable; apply steps_refl|].
    split; [apply queue_nonempty_paths_start|].
    split; [apply counter_invariant_start|].
    split; [apply detection_invariant_start, Hs|].
    split; [apply depth_invariant_start, Hd|].
    split; [apply output_invariant_start | apply exit_invariant_start].
Qed.

(** The sink of a completed run holds the header and, in some order, the
    records of the reference traversal. *)
Lemma complete_output h n s :
  tree_depth_le h (ROOT_DIR cfg) = true ->
  Z.of_nat n <= INT_MAX -> Z.of_nat (List.length seeds) <= INT_MAX ->
  reachable n s -> complete s ->
  out_fp (ctx s) ≡ₚ header :: expected_lines h.
Proof.
  intros Hd Hn Hs Hr Hc.
  destruct (reachable_invariants h n s Hd Hn Hs Hr) as (_ & _ & Hdet & _ & Hout & _).
  pose proof (closed_invariant_reachable n s Hr Hc) as Hex.
  pose proof (flushed_invariant_reachable n s Hr) as Hfl.
  destruct Hdet as (Hq & _ & _).
  destruct Hq as [Hq _]; [rewrite Hc; discriminate|].
  unfold output_invariant in Hout. rewrite Hq in Hout. simpl in Hout.
  rewrite app_nil_r in Hout.
  assert (Hp : flat_map (pending h) (threads s) = []).
  { unfold flushed_invariant in Hfl. clear -Hex Hfl.
    induction (threads s) as [|w ws IH]; simpl; [reflexivity|].
    inversion Hex; subst. inversion Hfl; subst.
    rewrite IH by assumption. unfold pending, owed.
    match goal with H : pc w = Exited |- _ => rewrite H end.
    match goal with H : pc w = Exited -> _ |- _ => rewrite H by assumption end.
    reflexivity. }
  rewrite Hp, app_nil_r in Hout. exact Hout.
Qed.

(** ** Each matched file accounts for exactly one record *)

Lemma process_entry_append dir fdata line :
  process_entry dir fdata = Append line -> line = record_of (child_path dir fdata).
Proof.
  unfold process_entry, record_of.
  repeat (match goal with |- context [if ?b then _ else _] => destruct b end);
    intros H; inversion H; reflexivity.
Qed.

Lemma scan_records h dir : scan h dir = map record_of (matched_below h dir).
Proof.
  revert dir. induction h as [|h IH]; intros dir; simpl; [reflexivity|].
  destruct (FindFiles (search_pattern dir)) as [entries|]; [|reflexivity].
  induction entries as [|e entries IHe]; simpl; [reflexivity|].
  rewrite map_app, IHe. f_equal.
  unfold entry_lines, entry_paths. destruct (process_entry dir e) eqn:Hp; simpl; try reflexivity.
  - apply IH.
  - rewrite (process_entry_append _ _ _ Hp). reflexivity.
Qed.

Lemma expected_records h : expected_lines h = map record_of (matched_files h).
Proof.
  unfold expected_lines, matched_files. induction seeds as [|d ds IH]; simpl; [reflexivity|].
  rewrite map_app, IH, scan_records. reflexivity.
Qed.





Lemma seed_fold_queue entries c :
  dir_queue (fold_left seed_step entries c)
  = dir_queue c ++ flat_map (fun e => match seed_entry e with
                                      | Some subdir => [subdir]
                                      | None => []
                                      end) entries.
Proof.
  revert c. induction entries as [|e entries IH]; intros c; simpl.
  - rewrite app_nil_r. reflexivity.
  - rewrite IH. unfold seed_step. destruct (seed_entry e); simpl.
    + rewrite <- app_assoc. reflexivity.
    + reflexivity.
Qed.


(** ** Main results *)

(** The outstanding work drops only when a worker has handled the last
    entry of its directory, or could not list it. *)
Lemma work_drops_after_enumeration l s s' :
  next l s = Some s' -> queue_nonempty_paths s -> active_work s' < active_work s ->
  exists i w dir,
    l = Worker i /\ threads s !! i = Some w /\
    (pc w = Enumerating dir [] \/
     (pc w = Holding dir /\ FindFiles (search_pattern dir) = None)).
Proof.
  unfold active_work, queue_nonempty_paths. intros Hn Hq Hlt.
  pose proof Hn as Hn'.
  step_cases Hn; simpl in Hlt; try dead_branch; revert Hlt; sum_updates;
    try (rewrite sumZ_map, (sumZ_ext _ _ _ in_flight_wake));
    unfold in_flight; simpl;
    repeat match goal with
           | H : is_blocked ?w = true |- _ => apply blocked_pc in H
           end;
    repeat match goal with
           | H : pc ?w = _ |- context [pc ?w] => rewrite H; simpl
           | H : wempty _ = _ |- _ => rewrite H; simpl
           | H : Forall (fun p => p <> []) (?d :: _) |- _ =>
               is_var d; destruct d; [inversion H; congruence | clear H; simpl in *]
           end;
    rewrite ?length_app; simpl; try lia; intros _; eauto 10.
Qed.

Lemma detection_reachable n s :
  Z.of_nat n <= INT_MAX -> Z.of_nat (List.length seeds) <= INT_MAX ->
  reachable n s ->
  counter_invariant s /\ detection_invariant s /\ exit_invariant s.
Proof.
  intros Hn Hs Hr.
  eapply (steps_invariant (fun s =>
            (List.length (threads s) <= n)%nat /\
            queue_nonempty_paths s /\ counter_invariant s /\ detection_invariant s /\
            exit_invariant s)) in Hr.
  - tauto.
  - intros l s1 s2 Hstep (Hlen & H1 & H2 & H3 & H6).
    split; [rewrite (threads_length_step _ _ _ Hstep); exact Hlen|].
    split; [eapply queue_nonempty_paths_step; eassumption|].
    split; [eapply counter_invariant_step; eassumption|].
    split; [eapply detection_invariant_step; try eassumption; lia|].
    eapply exit_invariant_step; eassumption.
  - split; [apply threads_length_reachable; apply steps_refl|].
    split; [apply queue_nonempty_paths_start|].
    split; [apply counter_invariant_start|].
    split; [apply detection_invariant_start, Hs | apply exit_invariant_start].
Qed.

Lemma active_work_nonneg s : 0 <= active_work s.
Proof.
  unfold active_work.
  pose proof (sumZ_bounds in_flight (threads s) in_flight_range). lia.
Qed.

(** C2: in every reachable state the Active-Work Counter equals the number
    of directories that are queued or held by a worker (each counted once),
    so it is positive whenever a worker is enumerating; a push and its
    increment are one step, and the outstanding work only drops when a
    worker has finished the entries of its directory or failed to list it. *)
Theorem active_work_counted_exactly_once n s :
  reachable n s -> active_work s <= INT_MAX ->
  active_dir_count (ctx s)
  = Z.of_nat (List.length (dir_queue (ctx s))) + sumZ in_flight (threads s) /\
  (forall i w, threads s !! i = Some w -> in_flight w = 1 ->
               0 < active_dir_count (ctx s)) /\
  (forall l s', next l s = Some s' ->
     active_dir_count (ctx s') = int_wrap (active_work s') /\
     (active_work s' < active_work s ->
      exists i w dir,
        l = Worker i /\ threads s !! i = Some w /\
        (pc w = Enumerating dir [] \/
         (pc w = Holding dir /\ FindFiles (search_pattern dir) = None)))).
Proof.
  intros Hr Hsmall.
  pose proof (counter_invariant_reachable n s Hr) as Hc.
  pose proof (queue_nonempty_paths_reachable n s Hr) as Hq.
  pose proof (active_work_nonneg s) as Hnn.
  assert (Heq : active_dir_count (ctx s) = active_work s).
  { rewrite Hc. apply int_wrap_small. unfold INT_MAX in Hsmall. lia. }
  split; [exact Heq|]. split.
  - intros i w Hi Hw. rewrite Heq. unfold active_work.
    assert (1 <= sumZ in_flight (threads s)); [|lia].
    rewrite <- (list_insert_id _ _ _ Hi).
    rewrite (sumZ_insert _ _ _ _ _ Hi).
    clear -Hi Hw. revert i Hi.
    induction (threads s) as [|a ws IH]; intros [|i] Hi; simpl in *; try discriminate.
    + inversion Hi; subst. pose proof (sumZ_bounds in_flight ws in_flight_range). lia.
    + specialize (IH i Hi). pose proof (in_flight_range a). lia.
  - intros l s' Hstep. split.
    + apply (counter_invariant_step l s s'); assumption.
    + intros Hlt. eapply work_drops_after_enumeration; eassumption.
Qed.

(** C4: the matched-file counter always equals, modulo its width, the
    number of records written after the header plus those still buffered; a
    failed conversion changes neither; when the run is complete every buffer
    has been flushed, so the counter equals the number of records in the
    sink after the header. *)
Theorem matched_counter_equals_output_lines n s :
  reachable n s ->
  file_count (ctx s) = llong_wrap (records_produced s) /\
  (forall i w dir fdata rest,
     threads s !! i = Some w -> pc w = Enumerating dir (fdata :: rest) ->
     is_directory fdata = false -> extension_rejects (child_path dir fdata) = false ->
     String.length (WideCharToMultiByte (child_path dir fdata)) = 0%nat ->
     next (Worker i) s = Some (update s (ctx s) (q_m s) i (at_pc (Enumerating dir rest) w))) /\
  (complete s ->
     Forall (fun w => local_out_buf w = []) (threads s) /\
     records_produced s = Z.of_nat (List.length (out_fp (ctx s))) - 1 /\
     (Z.of_nat (List.length (out_fp (ctx s))) - 1 <= LLONG_MAX ->
      file_count (ctx s) = Z.of_nat (List.length (out_fp (ctx s))) - 1)).
Proof.
  intros Hr.
  pose proof (file_count_invariant_reachable n s Hr) as Hfc.
  split; [exact Hfc|]. split.
  - intros i w dir fdata rest Hi Hpc Hdir Hext Hlen.
    simpl. unfold worker_next. rewrite Hi, Hpc.
    unfold process_entry. rewrite Hdir, Hext, Hlen. reflexivity.
  - intros Hc.
    pose proof (closed_invariant_reachable n s Hr Hc) as Hex.
    pose proof (flushed_invariant_reachable n s Hr) as Hfl.
    assert (Hbuf : Forall (fun w => local_out_buf w = []) (threads s)).
    { unfold flushed_invariant in Hfl. clear -Hex Hfl.
      induction (threads s) as [|w ws IH]; [constructor|].
      inversion Hex; subst. inversion Hfl; subst. constructor; auto. }
    assert (Hsum : sumZ buffered (threads s) = 0).
    { apply sumZ_Forall_zero. eapply Forall_impl; [exact Hbuf|].
      intros w Hw. unfold buffered. rewrite Hw. reflexivity. }
    split; [exact Hbuf|]. split.
    + unfold records_produced. lia.
    + intros Hsmall. rewrite Hfc. unfold records_produced. rewrite Hsum, Z.add_0_r.
      apply llong_wrap_small. unfold LLONG_MAX in Hsmall. lia.
Qed.

(** C10: a worker at the top of its loop that finds the queue non-empty
    takes the front directory, whatever the value of [done]; it leaves the
    loop only when [done] is set and the queue is empty; and once any worker
    has left its loop, the queue is empty and no worker holds a directory. *)
Theorem worker_exits_only_when_drained n s :
  Z.of_nat n <= INT_MAX -> Z.of_nat (List.length seeds) <= INT_MAX ->
  reachable n s ->
  (forall i w, threads s !! i = Some w -> pc w = AtWait -> q_m s = None ->
     dir_queue (ctx s) <> [] ->
     exists d q, dir_queue (ctx s) = d :: q /\
                 next (Worker i) s
                 = Some (update s (set_queue (ctx s) q) None i (at_pc (Holding d) w))) /\
  (forall i w s' w', threads s !! i = Some w -> pc w = AtWait ->
     next (Worker i) s = Some s' -> threads s' !! i = Some w' -> pc w' = FinalFlush ->
     done (ctx s) = true /\ dir_queue (ctx s) = []) /\
  (forall i w, threads s !! i = Some w -> pc w = FinalFlush \/ pc w = Exited ->
     done (ctx s) = true /\ dir_queue (ctx s) = [] /\
     Forall (fun w' => in_flight w' = 0) (threads s)).
Proof.
  intros Hn Hs Hr.
  destruct (detection_reachable n s Hn Hs Hr) as (_ & (Hq & Hdn & _) & Hex).
  split; [|split].
  - intros i w Hi Hpc Hlock Hne.
    destruct (dir_queue (ctx s)) as [|d q] eqn:Hqe; [congruence|].
    exists d, q. split; [reflexivity|].
    simpl. unfold worker_next. rewrite Hi, Hpc, Hlock, Hqe. simpl.
    rewrite andb_false_r. reflexivity.
  - intros i w s' w' Hi Hpc Hstep Hi' Hpc'.
    pose proof (lookup_lt_length _ _ _ Hi) as Hlen.
    simpl in Hstep. unfold worker_next in Hstep. rewrite Hi, Hpc in Hstep.
    destruct (q_m s); [discriminate|].
    destruct (dir_queue (ctx s)) as [|d q] eqn:Hqe; simpl in Hstep.
    + destruct (done (ctx s)); simpl in Hstep; [auto|].
      inversion Hstep; subst. simpl in Hi'.
      rewrite list_lookup_insert_eq in Hi' by exact Hlen.
      inversion Hi'; subst. discriminate.
    + rewrite andb_false_r in Hstep. inversion Hstep; subst. simpl in Hi'.
      rewrite list_lookup_insert_eq in Hi' by exact Hlen.
      inversion Hi'; subst. discriminate.
  - intros i w Hi Hpc.
    unfold exit_invariant in Hex. eapply Forall_lookup_1 in Hex; [|exact Hi].
    specialize (Hex Hpc). destruct (Hdn Hex) as [Hp1 Hp2].
    destruct (Hq Hp1) as [Hqe Hfl]. auto.
Qed.


Lemma run_reachable n ls s : run ls (main_start n) = Some s -> reachable n s.
Proof. apply run_steps. Qed.


(** ** The extension filter and the file name *)

Lemma find_last_of_from_app c a b pos acc :
  find_last_of_from c (a ++ b) pos acc
  = find_last_of_from c b (pos + Z.of_nat (List.length a)) (find_last_of_from c a pos acc).
Proof.
  revert pos acc. induction a as [|x a IH]; intros pos acc; simpl.
  - rewrite Z.add_0_r. reflexivity.
  - rewrite IH. f_equal. lia.
Qed.

Lemma find_last_of_from_absent c s pos acc :
  ~ In c s -> find_last_of_from c s pos acc = acc.
Proof.
  revert pos acc. induction s as [|x s IH]; intros pos acc Hc; simpl; [reflexivity|].
  rewrite IH by (intros Hin; apply Hc; right; exact Hin).
  unfold wchar_eqb. destruct (N.eqb_spec x c) as [->|]; [|reflexivity].
  exfalso. apply Hc. left; reflexivity.
Qed.

(** When [c] occurs, the scan returns the offset of its last occurrence. *)
Lemma find_last_of_from_present c s :
  In c s ->
  exists k, (k < List.length s)%nat /\
            forall pos acc, find_last_of_from c s pos acc = pos + Z.of_nat k.
Proof.
  induction s as [|x s IH]; intros Hc; [contradiction|].
  destruct (in_dec N.eq_dec c s) as [Hin|Hout].
  - destruct (IH Hin) as (k & Hk & Hf). exists (S k). split; [simpl; lia|].
    intros pos acc. simpl. rewrite Hf. lia.
  - destruct Hc as [->|Hc]; [|contradiction].
    exists 0%nat. split; [simpl; lia|].
    intros pos acc. simpl. rewrite find_last_of_from_absent by exact Hout.
    unfold wchar_eqb. rewrite N.eqb_refl. lia.
Qed.

(** For a name with a '.', the code's extension is the name's extension. *)
Lemma file_ext_of_dotted_name dir fdata :
  In dot (cFileName fdata) ->
  Z.of_nat (List.length (child_path dir fdata)) < size_t_mod ->
  name_extension (cFileName fdata) = Some (file_ext (child_path dir fdata)).
Proof.
  intros Hdot Hlen. destruct (find_last_of_from_present dot _ Hdot) as (k & Hk & Hf).
  unfold child_path in *. rewrite length_app in Hlen. simpl in Hlen.
  assert (Hm : size_t_mod = 18446744073709551616) by reflexivity.
  unfold name_extension, file_ext, find_last_of.
  replace (dir ++ backslash :: cFileName fdata)
    with ((dir ++ [backslash]) ++ cFileName fdata) by (rewrite <- app_assoc; reflexivity).
  rewrite find_last_of_from_app, !Hf, length_app. simpl.
  unfold npos. rewrite Hm in *. rewrite !Z.add_0_l.
  destruct (Z.eqb_spec (Z.of_nat k) (18446744073709551616 - 1)) as [E|_]; [lia|].
  f_equal. unfold substr.
  rewrite Z.mod_small by lia.
  replace (Z.to_nat (Z.of_nat k + 1)) with (S k) by lia.
  replace (Z.to_nat (Z.of_nat (List.length dir + 1) + Z.of_nat k + 1))
    with (List.length (dir ++ [backslash]) + S k)%nat by (rewrite length_app; simpl; lia).
  rewrite drop_app_add. reflexivity.
Qed.

(** For a name without '.', the code's extension ends with the backslash
    and the name. *)
Lemma file_ext_of_dotless_name dir fdata :
  ~ In dot (cFileName fdata) ->
  Z.of_nat (List.length (child_path dir fdata)) < size_t_mod ->
  In backslash (file_ext (child_path dir fdata)).
Proof.
  intros Hdot Hlen. unfold child_path in *. rewrite length_app in Hlen. simpl in Hlen.
  assert (Hm : size_t_mod = 18446744073709551616) by reflexivity.
  assert (Hrest : ~ In dot (backslash :: cFileName fdata)).
  { intros [E|Hin]; [discriminate E | exact (Hdot Hin)]. }
  unfold file_ext, find_last_of.
  rewrite find_last_of_from_app, (find_last_of_from_absent _ _ _ _ Hrest).
  unfold substr.
  destruct (in_dec N.eq_dec dot dir) as [Hin|Hout].
  - destruct (find_last_of_from_present dot _ Hin) as (k & Hk & Hf).
    rewrite Hf, Hm. rewrite Z.mod_small by lia.
    rewrite drop_app_le by lia. apply in_or_app. right. left. reflexivity.
  - rewrite find_last_of_from_absent by exact Hout.
    unfold npos. rewrite Hm. simpl.
    apply in_or_app. right. left. reflexivity.
Qed.

Lemma towlower_backslash x y :
  towlower x = towlower y -> x = backslash -> y = backslash.
Proof.
  intros E ->. unfold towlower, backslash in *. simpl in E.
  destruct (N.leb_spec 65 y); destruct (N.leb_spec y 90); simpl in E; lia.
Qed.

Lemma wcsicmp_backslash a b :
  wcsicmp a b = true -> In backslash a -> In backslash b.
Proof.
  revert b. induction a as [|x a IH]; intros b Hc Hin; [contradiction|].
  destruct b as [|y b]; simpl in Hc; [discriminate|].
  apply andb_prop in Hc. destruct Hc as [Hxy Hab].
  unfold wchar_eqb in Hxy. apply N.eqb_eq in Hxy.
  destruct Hin as [E|Hin].
  - left. apply (towlower_backslash x y); auto.
  - right. apply IH; assumption.
Qed.

(** C7 (amended): for a file entry whose path converts to UTF-8 and an
    extension list without backslashes, the entry is recorded exactly when
    the list is empty or the text after the last '.' of the file's name
    equals a configured extension up to case, and it is skipped otherwise;
    a name without '.' is skipped by every such non-empty list. *)
Theorem extension_filter_follows_file_name dir fdata :
  is_directory fdata = false ->
  Forall (fun ext => ~ In backslash ext) (file_types cfg) ->
  Z.of_nat (List.length (child_path dir fdata)) < size_t_mod ->
  (0 < String.length (WideCharToMultiByte (child_path dir fdata)))%nat ->
  (process_entry dir fdata = Append (record_of (child_path dir fdata))
   <-> spec_extension_ok cfg (cFileName fdata) = true) /\
  (process_entry dir fdata = Skip
   <-> spec_extension_ok cfg (cFileName fdata) = false) /\
  (~ In dot (cFileName fdata) -> file_types cfg <> [] -> process_entry dir fdata = Skip).
Proof.
  intros Hfile Hexts Hlen Hconv.
  assert (Hcode : process_entry dir fdata
                  = if extension_rejects (child_path dir fdata)
                    then Skip else Append (record_of (child_path dir fdata))).
  { unfold process_entry. rewrite Hfile.
    destruct (extension_rejects (child_path dir fdata)); [reflexivity|].
    apply Nat.ltb_lt in Hconv. rewrite Hconv. reflexivity. }
  assert (Hagree : extension_rejects (child_path dir fdata)
                   = negb (spec_extension_ok cfg (cFileName fdata))).
  { unfold extension_rejects, extension_match, spec_extension_ok.
    destruct (file_types cfg) as [|ext exts] eqn:Hft; [reflexivity|].
    simpl negb at 1. rewrite andb_true_l. f_equal.
    destruct (in_dec N.eq_dec dot (cFileName fdata)) as [Hdot|Hdot].
    - rewrite (file_ext_of_dotted_name dir fdata Hdot Hlen). reflexivity.
    - assert (Hnone : name_extension (cFileName fdata) = None).
      { unfold name_extension, find_last_of.
        rewrite find_last_of_from_absent by exact Hdot.
        rewrite Z.eqb_refl. reflexivity. }
      rewrite Hnone.
      pose proof (file_ext_of_dotless_name dir fdata Hdot Hlen) as Hbs.
      apply not_true_is_false. intros Hex. apply existsb_exists in Hex.
      destruct Hex as (e & He & Hcmp).
      rewrite Forall_forall in Hexts.
      apply (Hexts e); [apply list_elem_of_In; exact He|].
      eapply wcsicmp_backslash; eassumption. }
  rewrite Hcode, Hagree.
  destruct (spec_extension_ok cfg (cFileName fdata)) eqn:Hspec; simpl.
  - split; [|split].
    + split; reflexivity.
    + split; discriminate.
    + intros Hdot Hne. exfalso. revert Hspec. unfold spec_extension_ok.
      destruct (file_types cfg) as [|ext exts]; [congruence|].
      unfold name_extension, find_last_of.
      rewrite find_last_of_from_absent by exact Hdot.
      rewrite Z.eqb_refl. discriminate.
  - split; [|split].
    + split; discriminate.
    + split; reflexivity.
    + reflexivity.
Qed.

Lemma state_after_reachable n ls :
  is_Some (run ls (main_start n)) -> reachable n (state_after n ls).
Proof.
  intros [s Hs]. unfold state_after. rewrite Hs. simpl.
  eapply run_reachable. exact Hs.
Qed.

(** * Further properties of the scanner *)

(** ** Every dequeued directory is processed *)

Lemma holding_invariant_step l s s' :
  next l s = Some s' -> queue_nonempty_paths s -> holding_invariant s -> holding_invariant s'.
Proof.
  unfold holding_invariant, queue_nonempty_paths. intros Hn Hq Hw.
  assert (Hlk : forall i w, threads s !! i = Some w -> pc w <> Holding []).
  { intros i w Hi. eapply Forall_lookup_1 in Hw; eassumption. }
  step_cases Hn; simpl; try dead_branch; try assumption;
    repeat apply Forall_insert; try assumption; simpl; try discriminate.
  - inversion Hq; subst. congruence.
  - apply Forall_map. eapply Forall_impl; [eassumption|].
    intros w Hw0. unfold wake. destruct (is_blocked w) eqn:Hb; simpl; [discriminate | assumption].
Qed.

Lemma holding_invariant_start n : holding_invariant (main_start n).
Proof.
  unfold holding_invariant.
  destruct (main_start_threads n) as [-> | ->]; [constructor|].
  apply Forall_forall. intros w Hw. apply elem_of_replicate in Hw as [-> _]. discriminate.
Qed.

(** X1: the guard [if (!current_dir.empty())] of the worker loop never
    fails.  When [q_cv.wait] has returned and the loop is not left, the queue
    is not empty, and no queued path is empty; so every directory taken from
    the queue is non-empty and is handed to [process_directory], which
    decrements the counter for it. *)
Theorem dequeued_directory_is_processed n s i w current_dir :
  reachable n s -> threads s !! i = Some w -> pc w = Holding current_dir ->
  current_dir <> [] /\ in_flight w = 1 /\
  next (Worker i) s
  = Some (match FindFiles (search_pattern current_dir) with
          | None => update s (mark_complete (ctx s)) (q_m s) i (at_pc AtWait w)
          | Some entries =>
              update s (ctx s) (q_m s) i (at_pc (Enumerating current_dir entries) w)
          end).
Proof.
  intros Hr Hi Hpc.
  assert (Hinv : queue_nonempty_paths s /\ holding_invariant s).
  { eapply (steps_invariant (fun s => queue_nonempty_paths s /\ holding_invariant s));
      [| exact Hr |].
    - intros l s1 s2 Hstep [H1 H2]. split.
      + eapply queue_nonempty_paths_step; eassumption.
      + eapply holding_invariant_step; eassumption.
    - split; [apply queue_nonempty_paths_start | apply holding_invariant_start]. }
  destruct Hinv as [_ Hh]. unfold holding_invariant in Hh.
  eapply Forall_lookup_1 in Hh; [|exact Hi]. rewrite Hpc in Hh.
  assert (Hne : current_dir <> []) by congruence.
  split; [exact Hne|]. split.
  - unfold in_flight. rewrite Hpc. simpl. destruct current_dir; [congruence | reflexivity].
  - simpl. unfold worker_next. rewrite Hi, Hpc.
    destruct current_dir; [congruence|]. simpl.
    destruct (FindFiles _); reflexivity.
Qed.

(** ** The private buffers *)

Lemma buf_size_nonneg buffer : 0 <= buf_size buffer.
Proof. induction buffer as [|r buffer IH]; simpl; lia. Qed.

Lemma buffer_invariant_step l s s' :
  next l s = Some s' -> buffer_invariant s -> buffer_invariant s'.
Proof.
  unfold buffer_invariant. intros Hn Hw.
  assert (Hlk : forall i w, threads s !! i = Some w ->
                            local_out_buf w <> [] -> buf_size (local_out_buf w) < flush_threshold).
  { intros i w Hi. eapply Forall_lookup_1 in Hw; eassumption. }
  step_cases Hn; simpl; try dead_branch; try assumption;
    repeat match goal with
           | H : threads s !! _ = Some _ |- _ => pose proof (Hlk _ _ H); clear H
           end;
    repeat apply Forall_insert; try assumption; simpl; try congruence.
  - intros _. match goal with H : buffer_full _ = false |- _ => rename H into Hf end.
    unfold buffer_full in Hf. apply Z.leb_gt in Hf. exact Hf.
  - apply Forall_map. eapply Forall_impl; [eassumption|].
    intros w Hw0. unfold wake. destruct (is_blocked w); simpl; assumption.
Qed.

Lemma buffer_invariant_start n : buffer_invariant (main_start n).
Proof.
  unfold buffer_invariant.
  destruct (main_start_threads n) as [-> | ->]; [constructor|].
  apply Forall_forall. intros w Hw. apply elem_of_replicate in Hw as [-> _].
  simpl. congruence.
Qed.

(** X2: between two steps a private buffer that holds records holds fewer
    bytes than the flush threshold [OUTPUT_BUFFER_FLUSH_COUNT * 256]; with a
    threshold of 0 nothing is ever kept in a buffer, and the matched-file
    counter equals the number of records in the sink at every moment. *)
Theorem private_buffer_stays_below_threshold n s :
  reachable n s ->
  Forall (fun w => local_out_buf w <> [] -> buf_size (local_out_buf w) < flush_threshold)
         (threads s) /\
  (flush_threshold = 0 ->
   Forall (fun w => local_out_buf w = []) (threads s) /\
   file_count (ctx s) = llong_wrap (Z.of_nat (List.length (out_fp (ctx s))) - 1)).
Proof.
  intros Hr.
  assert (Hb : buffer_invariant s).
  { eapply (steps_invariant buffer_invariant); [| exact Hr |].
    - apply buffer_invariant_step.
    - apply buffer_invariant_start. }
  split; [exact Hb|]. intros H0.
  assert (He : Forall (fun w => local_out_buf w = []) (threads s)).
  { eapply Forall_impl; [exact Hb|]. intros w Hw. simpl in Hw.
    destruct (local_out_buf w) as [|r buf] eqn:E; [reflexivity|].
    exfalso. assert (Hne : r :: buf <> []) by discriminate.
    specialize (Hw Hne). pose proof (buf_size_nonneg (r :: buf)). lia. }
  split; [exact He|].
  rewrite (file_count_invariant_reachable n s Hr). unfold records_produced.
  rewrite (sumZ_Forall_zero buffered (threads s)); [f_equal; lia|].
  eapply Forall_impl; [exact He|]. intros w Hw. unfold buffered. rewrite Hw. reflexivity.
Qed.

(** ** The sink *)

Lemma sink_grows_step l s s' :
  next l s = Some s' -> exists more, out_fp (ctx s') = out_fp (ctx s) ++ more.
Proof.
  intros Hn. step_cases Hn; simpl;
    try (exists []; rewrite app_nil_r; reflexivity); eexists; reflexivity.
Qed.

(** X3: the sink is append-only and starts with the header.  Whatever a
    run has written stays at its place, in every later state; the byte-order
    mark and the header line are the first thing in the file. *)
Theorem sink_is_append_only n s s' :
  reachable n s -> steps s s' ->
  (exists records, out_fp (ctx s) = header :: records) /\
  (exists more, out_fp (ctx s') = out_fp (ctx s) ++ more).
Proof.
  intros Hr Hs. split.
  - eapply (steps_invariant (fun s => exists records, out_fp (ctx s) = header :: records));
      [| exact Hr |].
    + intros l s1 s2 Hstep [records E].
      destruct (sink_grows_step _ _ _ Hstep) as [more ->]. rewrite E.
      exists (records ++ more). reflexivity.
    + exists []. apply main_start_out.
  - clear Hr. induction Hs as [s|s l s1 s2 Hn _ IH].
    + exists []. rewrite app_nil_r. reflexivity.
    + destruct IH as [more2 ->]. destruct (sink_grows_step _ _ _ Hn) as [more1 ->].
      exists (more1 ++ more2). rewrite app_assoc. reflexivity.
Qed.

Lemma buffers_among_pending h ws :
  flat_map local_out_buf ws ⊆+ flat_map (pending h) ws.
Proof.
  induction ws as [|w ws IH]; simpl; [reflexivity|].
  apply submseteq_app; [|exact IH].
  unfold pending. apply submseteq_inserts_r. reflexivity.
Qed.

(** X4: in every state of a run, complete or not, the records written to
    the sink together with those in the private buffers are, counted with
    repetitions, among the header and the records of the matched files:
    nothing is written twice and nothing is written that the sequential
    traversal would not write. *)
Theorem partial_output_is_sound h n s :
  tree_depth_le h (ROOT_DIR cfg) = true ->
  Z.of_nat n <= INT_MAX -> Z.of_nat (List.length seeds) <= INT_MAX ->
  reachable n s ->
  out_fp (ctx s) ++ flat_map local_out_buf (threads s)
  ⊆+ header :: map record_of (matched_files h).
Proof.
  intros Hd Hn Hs Hr.
  destruct (reachable_invariants h n s Hd Hn Hs Hr) as (_ & _ & _ & _ & Hout & _).
  unfold output_invariant in Hout. rewrite <- expected_records, <- Hout.
  apply submseteq_app; [reflexivity|].
  apply submseteq_inserts_r. apply buffers_among_pending.
Qed.

(** ** Starting the workers *)

Lemma main_start_ctx n : ctx (main_start n) = snd (initialize_directory_queue opened).
Proof.
  unfold main_start. destruct (initialize_directory_queue opened) as [[|] c]; reflexivity.
Qed.

Lemma seed_fold_none entries c :
  Forall (fun e => seed_entry e = None) entries -> fold_left seed_step entries c = c.
Proof.
  induction 1 as [|e entries He _ IH]; simpl; [reflexivity|].
  unfold seed_step at 2. rewrite He. exact IH.
Qed.

Lemma no_step_when_closed s l :
  main_pc s = Closed -> Forall (fun w => pc w = Exited) (threads s) -> next l s = None.
Proof.
  intros Hc Hex.
  assert (Hlk : forall i w, threads s !! i = Some w -> pc w = Exited).
  { intros i w Hi. eapply Forall_lookup_1 in Hex; eassumption. }
  destruct l as [i | i target | j |]; simpl.
  - unfold worker_next. destruct (threads s !! i) as [w|] eqn:Hi; [|reflexivity].
    rewrite (Hlk _ _ Hi). reflexivity.
  - unfold notify_next. destruct (threads s !! i) as [w|] eqn:Hi; [|reflexivity].
    rewrite (Hlk _ _ Hi). reflexivity.
  - unfold spurious_next. destruct (threads s !! j) as [w|] eqn:Hj; [|reflexivity].
    unfold is_blocked. rewrite (Hlk _ _ Hj). reflexivity.
  - unfold main_next. rewrite Hc. reflexivity.
Qed.

(** The start state when the seeding enqueued a directory. *)
Lemma main_start_seeded n :
  Z.of_nat (List.length seeds) <= INT_MAX -> seeds <> [] ->
  fst (initialize_directory_queue opened) = true /\
  main_start n
  = {| ctx := {| dir_queue := seeds; active_dir_count := Z.of_nat (List.length seeds);
                 done := false; out_fp := [header]; file_count := 0 |};
       q_m := None; threads := replicate n fresh_worker; main_pc := Polling |}.
Proof.
  intros Hs Hne.
  pose proof seeds_counter as Hcnt.
  assert (Hsmall : int_wrap (Z.of_nat (List.length seeds)) = Z.of_nat (List.length seeds)).
  { apply int_wrap_small. unfold INT_MAX in Hs.
    change (2 ^ 31) with 2147483648 in *. lia. }
  assert (Hpos : 0 < Z.of_nat (List.length seeds)).
  { destruct seeds; [congruence | simpl; lia]. }
  assert (Hok : fst (initialize_directory_queue opened) = true).
  { revert Hcnt Hpos Hsmall. unfold seeds, initialize_directory_queue.
    destruct (FindFiles (search_pattern (ROOT_DIR cfg))) as [entries|]; simpl.
    - intros -> Hpos ->. apply Z.ltb_lt. exact Hpos.
    - lia. }
  split; [exact Hok|].
  pose proof (main_start_out n) as Hout. pose proof (main_start_file_count n) as Hfc.
  rewrite main_start_ctx in Hout, Hfc.
  assert (Hq : dir_queue (snd (initialize_directory_queue opened)) = seeds) by reflexivity.
  assert (Hdone : done (snd (initialize_directory_queue opened)) = false).
  { unfold initialize_directory_queue.
    destruct (FindFiles (search_pattern (ROOT_DIR cfg))) as [entries|]; simpl;
      [rewrite seed_fold_done|]; reflexivity. }
  rewrite Hsmall in Hcnt. revert Hok Hout Hfc Hq Hdone Hcnt. unfold main_start.
  generalize seeds. intros sds.
  destruct (initialize_directory_queue opened) as [ok [q a d o f]]. simpl.
  intros -> -> -> -> -> ->. reflexivity.
Qed.

(** The start state when the seeding enqueued nothing. *)
Lemma main_start_not_seeded n :
  seeds = [] ->
  fst (initialize_directory_queue opened) = false /\
  main_start n = {| ctx := opened; q_m := None; threads := []; main_pc := Closed |}.
Proof.
  intros He.
  assert (Hc : snd (initialize_directory_queue opened) = opened
               /\ fst (initialize_directory_queue opened) = false).
  { revert He. unfold seeds, initialize_directory_queue.
    destruct (FindFiles (search_pattern (ROOT_DIR cfg))) as [entries|]; simpl; [|auto].
    rewrite seed_fold_queue. simpl. intros He.
    rewrite seed_fold_none; [split; reflexivity|].
    apply Forall_forall. intros e Hin. apply list_elem_of_In in Hin.
    destruct (seed_entry e) as [d|] eqn:Hse; [|reflexivity]. exfalso.
    assert (Hd : In d (flat_map (fun e => match seed_entry e with
                                          | Some subdir => [subdir]
                                          | None => []
                                          end) entries)).
    { apply in_flat_map. exists e. split; [exact Hin|]. rewrite Hse. left; reflexivity. }
    rewrite He in Hd. exact Hd. }
  destruct Hc as [Hc Hf]. split; [exact Hf|].
  revert Hc Hf. unfold main_start.
  destruct (initialize_directory_queue opened) as [ok c]. simpl.
  intros -> ->. reflexivity.
Qed.

(** X5: [main] launches the workers exactly when the seeding enqueued a
    directory (as long as the number of seeded directories fits the [int]
    counter).  Then the queue holds the seeded directories and the counter
    their number.  Otherwise, also when the root cannot be listed, no thread
    is started, the sink holds the header alone and is closed, and this is
    the only state of the run. *)
Theorem workers_start_iff_seeded n :
  Z.of_nat (List.length seeds) <= INT_MAX ->
  (seeds <> [] ->
   fst (initialize_directory_queue opened) = true /\
   main_start n
   = {| ctx := {| dir_queue := seeds; active_dir_count := Z.of_nat (List.length seeds);
                  done := false; out_fp := [header]; file_count := 0 |};
        q_m := None; threads := replicate n fresh_worker; main_pc := Polling |}) /\
  (seeds = [] ->
   fst (initialize_directory_queue opened) = false /\
   main_start n = {| ctx := opened; q_m := None; threads := []; main_pc := Closed |} /\
   forall s, reachable n s -> s = main_start n).
Proof.
  intros Hs. split.
  - apply main_start_seeded, Hs.
  - intros He. destruct (main_start_not_seeded n He) as [Hf Hstart].
    split; [exact Hf|]. split; [exact Hstart|].
    intros s Hr. unfold reachable in Hr. rewrite Hstart in *.
    inversion Hr as [|? l s1 ? Hn _]; subst; [reflexivity|].
    rewrite no_step_when_closed in Hn; [discriminate | reflexivity | constructor].
Qed.

(** ** Progress *)

Lemma lookup_insert_other (ws : list worker) i j w wi wj :
  ws !! i = Some wi -> ws !! j = Some wj -> pc wi <> pc wj ->
  <[i := w]> ws !! j = Some wj.
Proof.
  intros Hi Hj Hne. rewrite list_lookup_insert_ne; [exact Hj|].
  intros ->. rewrite Hi in Hj. inversion Hj; subst. congruence.
Qed.

Lemma lock_invariant_step l s s' :
  next l s = Some s' -> lock_invariant s -> lock_invariant s'.
Proof.
  unfold lock_invariant. intros Hn Hl.
  remember (q_m s) as m eqn:Hm in Hl.
  step_cases Hn; simpl; try dead_branch;
    intros k Hk; try discriminate;
    try (inversion Hk; subst;
         eexists; split;
         [apply list_lookup_insert_eq; eapply lookup_lt_length; eassumption | reflexivity]);
    destruct (Hl k ltac:(congruence)) as (wk & Hwk & Hpk); exists wk;
    repeat match goal with
           | H : is_blocked _ = true |- _ => apply blocked_pc in H
           end;
    (split; [|exact Hpk]);
    try assumption;
    try (repeat (eapply lookup_insert_other; [eassumption | | congruence]); eassumption).
  - rewrite list_lookup_insert_ne.
    + eapply lookup_insert_other; [eassumption | eassumption | congruence].
    + intros ->.
      match goal with
      | H1 : threads s !! k = Some ?a, H2 : pc ?a = Blocked |- _ =>
          rewrite H1 in Hwk; inversion Hwk; subst; congruence
      end.
  - rewrite list_lookup_fmap, Hwk. simpl. f_equal.
    unfold wake, is_blocked. rewrite Hpk. reflexivity.
Qed.

Lemma lock_invariant_start n : lock_invariant (main_start n).
Proof.
  unfold lock_invariant, main_start.
  destruct (initialize_directory_queue opened) as [[|] c]; simpl; discriminate.
Qed.

Lemma done_invariant_step l s s' :
  next l s = Some s' -> done_invariant s -> done_invariant s'.
Proof.
  unfold done_invariant. intros Hn Hd.
  step_cases Hn; simpl in *; intros Hm;
    try (destruct Hm; discriminate); try reflexivity;
    try (specialize (Hd Hm); congruence); apply Hd; auto; congruence.
Qed.

Lemma done_invariant_start n : done_invariant (main_start n).
Proof.
  unfold done_invariant, main_start.
  destruct (initialize_directory_queue opened) as [[|] c]; simpl; intros [H|H]; discriminate.
Qed.

Lemma holder_can_step s k :
  lock_invariant s -> q_m s = Some k -> is_Some (next (Worker k) s).
Proof.
  intros Hl Hk. destruct (Hl _ Hk) as (w & Hw & Hp).
  simpl. unfold worker_next. rewrite Hw, Hp. eauto.
Qed.

Lemma forallb_false_lookup (f : worker -> bool) (ws : list worker) :
  forallb f ws = false -> exists j wj, ws !! j = Some wj /\ f wj = false.
Proof.
  induction ws as [|w ws IH]; simpl; [discriminate|].
  destruct (f w) eqn:Hw; simpl.
  - intros H. destruct (IH H) as (j & wj & Hj & Hf). exists (S j), wj. auto.
  - intros _. exists 0%nat, w. auto.
Qed.

(** A worker that neither sleeps nor has returned can make its next step,
    unless it needs [q_m] while another worker holds it; that worker can
    then make its step. *)
Lemma busy_worker_can_step s i w :
  lock_invariant s -> threads s !! i = Some w -> is_idle w = false ->
  exists l, worker_step l /\ is_Some (next l s).
Proof.
  intros Hl Hi Hidle.
  destruct (q_m s) as [k|] eqn:Hq.
  { exists (Worker k). split; [exact I | apply holder_can_step; assumption]. }
  destruct (pc w) as [| | | d | d rest | d rest | |] eqn:Hpc;
    try (unfold is_idle, is_blocked, is_exited in Hidle; rewrite Hpc in Hidle; discriminate).
  - exists (Worker i). split; [exact I|]. simpl. unfold worker_next. rewrite Hi, Hpc, Hq.
    destruct (negb _); [eauto|]. destruct (done (ctx s) && _); [eauto|].
    destruct (dir_queue (ctx s)); eauto.
  - exists (Worker i). split; [exact I|]. simpl. unfold worker_next. rewrite Hi, Hpc. eauto.
  - exists (Worker i). split; [exact I|]. simpl. unfold worker_next. rewrite Hi, Hpc.
    destruct (wempty d); [eauto|]. destruct (FindFiles _); eauto.
  - exists (Worker i). split; [exact I|]. simpl. unfold worker_next. rewrite Hi, Hpc.
    destruct rest as [|fdata rest]; [eauto|].
    destruct (process_entry d fdata); try rewrite Hq; eauto.
    destruct (buffer_full _); eauto.
  - destruct (forallb (fun w => negb (is_blocked w)) (threads s)) eqn:Hb.
    + exists (NotifyOne i None). split; [exact I|]. simpl. unfold notify_next.
      rewrite Hi, Hpc, Hb. simpl. eauto.
    + apply forallb_false_lookup in Hb. destruct Hb as (j & wj & Hj & Hbj).
      apply negb_false_iff in Hbj.
      exists (NotifyOne i (Some j)). split; [exact I|]. simpl. unfold notify_next.
      rewrite Hi, Hpc, Hj, Hbj. eauto.
  - exists (Worker i). split; [exact I|]. simpl. unfold worker_next. rewrite Hi, Hpc.
    destruct (local_out_buf w); eauto.
Qed.

Lemma awake_invariant_step l s s' :
  next l s = Some s' -> awake_invariant s -> awake_invariant s'.
Proof.
  unfold awake_invariant. intros Hn Ha.
  step_cases Hn; simpl; try dead_branch; intros Hp Hq; try discriminate;
    try (eexists _, _; split;
         [apply list_lookup_insert_eq; rewrite ?length_insert;
          eapply lookup_lt_length; eassumption
         | reflexivity]).
  all: try (exfalso;
            match goal with
            | Hq : dir_queue (ctx ?s0) <> [] |- _ =>
                destruct (dir_queue (ctx s0)); [congruence|]
            end;
            simpl in *; repeat match goal with
                               | H : context [done ?c] |- _ => destruct (done c)
                               end; simpl in *; discriminate).
  all: try (destruct (Ha Hp Hq) as (j & wj & Hj & Haj); exists j, wj;
            split; [|exact Haj];
            rewrite list_lookup_insert_ne; [exact Hj|];
            intros <-;
            match goal with
            | H1 : threads _ !! _ = Some ?a, H2 : pc ?a = _ |- _ =>
                rewrite H1 in Hj; inversion Hj; subst;
                unfold is_active in Haj; rewrite H2 in Haj; discriminate
            end).
  all: auto.
Qed.

Lemma awake_invariant_start n : (1 <= n)%nat -> awake_invariant (main_start n).
Proof.
  intros Hn. unfold awake_invariant, main_start.
  destruct (initialize_directory_queue opened) as [[|] c]; simpl; [|discriminate].
  intros _ _. exists 0%nat, fresh_worker. split; [|reflexivity].
  destruct n; [lia | reflexivity].
Qed.

(** X6: with at least one worker, a state in which no thread can advance is
    complete or a lost wake-up.  In every reachable state either some worker
    can make a step, or [main] can make a step that takes it to another
    place (a poll that finds work outstanding is none, and neither is a
    spurious wake-up), or the run is complete (and then no step at all is
    possible), or [main] waits in [join] with [done] set while every worker
    has returned or sleeps in [q_cv.wait], and at least one sleeps. *)
Theorem only_a_lost_wakeup_blocks n s :
  (1 <= n)%nat -> reachable n s ->
  (exists l s', next l s = Some s' /\ advances l s s') \/
  (complete s /\ forall l, next l s = None) \/
  (main_pc s = Joining /\ done (ctx s) = true /\
   Forall (fun w => pc w = Blocked \/ pc w = Exited) (threads s) /\
   Exists (fun w => pc w = Blocked) (threads s)).
Proof.
  intros Hn1 Hr.
  assert (Hinv : lock_invariant s /\ done_invariant s /\ awake_invariant s).
  { eapply (steps_invariant (fun s => lock_invariant s /\ done_invariant s /\
                                       awake_invariant s)); [| exact Hr |].
    - intros l s1 s2 Hstep (H1 & H2 & H3). split; [|split].
      + eapply lock_invariant_step; eassumption.
      + eapply done_invariant_step; eassumption.
      + eapply awake_invariant_step; eassumption.
    - split; [apply lock_invariant_start|].
      split; [apply done_invariant_start | apply awake_invariant_start, Hn1]. }
  destruct Hinv as (Hl & Hd & Ha).
  pose proof (closed_invariant_reachable n s Hr) as Hc.
  pose proof (counter_invariant_reachable n s Hr) as Hcnt.
  assert (Hworker : forall l, worker_step l -> is_Some (next l s) ->
                              exists l s', next l s = Some s' /\ advances l s s').
  { intros l Hw [s' Hs']. exists l, s'. split; [exact Hs'|].
    destruct l; simpl in *; tauto. }
  destruct (forallb is_idle (threads s)) eqn:Hall.
  2:{ left. apply forallb_false_lookup in Hall. destruct Hall as (i & w & Hi & Hw).
      destruct (busy_worker_can_step s i w Hl Hi Hw) as (l & Hlw & Hls).
      apply (Hworker l); assumption. }
  destruct (q_m s) as [k|] eqn:Hq.
  { left. apply (Hworker (Worker k)); [exact I | apply holder_can_step; assumption]. }
  assert (Hidle : forall i w, threads s !! i = Some w -> is_idle w = true).
  { intros i w Hi. rewrite forallb_forall in Hall. apply Hall.
    apply list_elem_of_In. eapply list_elem_of_lookup_2; eassumption. }
  destruct (main_pc s) eqn:Hm.
  - left. exists Main.
    assert (Hqe : dir_queue (ctx s) = []).
    { destruct (dir_queue (ctx s)) as [|d q] eqn:Hqu; [reflexivity|]. exfalso.
      destruct Ha as (i & w & Hi & Hact); [exact Hm | rewrite Hqu; discriminate |].
      pose proof (Hidle i w Hi) as Hiw.
      unfold is_active in Hact. unfold is_idle, is_blocked, is_exited in Hiw.
      destruct (pc w); discriminate. }
    assert (Hzero : active_dir_count (ctx s) = 0).
    { rewrite Hcnt. unfold active_work. rewrite Hqe. simpl.
      rewrite sumZ_Forall_zero; [reflexivity|].
      apply Forall_lookup_2. intros i w Hi. pose proof (Hidle i w Hi) as Hiw.
      unfold in_flight, in_flight_at. unfold is_idle, is_blocked, is_exited in Hiw.
      destruct (pc w); try discriminate; reflexivity. }
    exists {| ctx := ctx s; q_m := None; threads := threads s; main_pc := SetDone |}.
    split; [|simpl; rewrite Hm; discriminate].
    simpl. unfold main_next. rewrite Hm, Hq, Hzero, Hqe. reflexivity.
  - left. exists Main. eexists. split.
    + simpl. unfold main_next. rewrite Hm. reflexivity.
    + simpl. rewrite Hm. discriminate.
  - left. exists Main. eexists. split.
    + simpl. unfold main_next. rewrite Hm. reflexivity.
    + simpl. rewrite Hm. discriminate.
  - destruct (forallb is_exited (threads s)) eqn:Hex.
    + left. exists Main. eexists. split.
      * simpl. unfold main_next. rewrite Hm, Hex. reflexivity.
      * simpl. rewrite Hm. discriminate.
    + right; right. split; [reflexivity|]. split; [apply Hd; auto|]. split.
      * apply Forall_lookup_2. intros i w Hi. pose proof (Hidle i w Hi) as Hiw.
        unfold is_idle, is_blocked, is_exited in Hiw. destruct (pc w); try discriminate; auto.
      * apply forallb_false_lookup in Hex. destruct Hex as (j & wj & Hj & Hbj).
        apply Exists_exists. exists wj. split; [eapply list_elem_of_lookup_2; eassumption|].
        pose proof (Hidle j wj Hj) as Hiw.
        unfold is_idle, is_blocked, is_exited in Hiw, Hbj.
        destruct (pc wj); try discriminate; reflexivity.
  - right; left. split; [exact Hm|]. intros l.
    apply no_step_when_closed; [exact Hm | apply Hc; exact Hm].
Qed.

(** ** The prefix filter *)

Lemma starts_with_app pat s : starts_with pat s = true <-> exists t, s = pat ++ t.
Proof.
  revert s. induction pat as [|p pat IH]; intros s; simpl.
  - split; eauto.
  - destruct s as [|x s]; simpl.
    + split; [discriminate | intros [t E]; discriminate E].
    + rewrite andb_true_iff, IH. unfold wchar_eqb. rewrite N.eqb_eq. split.
      * intros [-> [t ->]]. eauto.
      * intros [t E]. inversion E; subst. eauto.
Qed.

Lemma wfind_from_occurrence pat s pos :
  wfind_from pat s pos <> npos -> exists a b, s = a ++ pat ++ b.
Proof.
  revert pos. induction s as [|x s IH]; intros pos; simpl.
  - destruct (starts_with pat []) eqn:Hs; [|congruence].
    intros _. apply starts_with_app in Hs. destruct Hs as [t E]. exists [], t. exact E.
  - destruct (starts_with pat (x :: s)) eqn:Hs.
    + intros _. apply starts_with_app in Hs. destruct Hs as [t E]. exists [], t. exact E.
    + intros H. destruct (IH _ H) as (a & b & ->). exists (x :: a), b. reflexivity.
Qed.

Lemma wfind_from_found pat a b pos :
  exists k, (k <= List.length a)%nat /\ wfind_from pat (a ++ pat ++ b) pos = pos + Z.of_nat k.
Proof.
  revert pos. induction a as [|x a IH]; intros pos.
  - exists 0%nat. split; [reflexivity|]. simpl.
    assert (Hs : starts_with pat (pat ++ b) = true) by (apply starts_with_app; eauto).
    destruct (pat ++ b); simpl in *; rewrite Hs; lia.
  - simpl. destruct (starts_with pat (x :: a ++ pat ++ b)).
    + exists 0%nat. split; lia.
    + destruct (IH (pos + 1)) as (k & Hk & E). exists (S k). split; [lia|].
      rewrite E. lia.
Qed.

(** X7: a worker enqueues a subdirectory (other than "." and "..") exactly
    when the prefix is empty or occurs, with case, somewhere in the full path
    of the subdirectory, and skips it otherwise.  So once the path of a
    directory contains the prefix, every subdirectory below it is
    enqueued. *)
Theorem nested_prefix_filter_is_substring_test dir fdata :
  is_directory fdata = true -> is_dot_or_dotdot (cFileName fdata) = false ->
  Z.of_nat (List.length (child_path dir fdata)) < size_t_mod ->
  (process_entry dir fdata = Push (child_path dir fdata) <->
   PREFIX cfg = [] \/ exists a b, child_path dir fdata = a ++ PREFIX cfg ++ b) /\
  (process_entry dir fdata <> Push (child_path dir fdata) -> process_entry dir fdata = Skip) /\
  (nested_prefix_rejects dir = false -> process_entry dir fdata = Push (child_path dir fdata)).
Proof.
  intros Hdir Hdot Hlen.
  assert (Hcode : process_entry dir fdata
                  = if nested_prefix_rejects (child_path dir fdata)
                    then Skip else Push (child_path dir fdata)).
  { unfold process_entry. rewrite Hdir, Hdot. reflexivity. }
  assert (Hiff : nested_prefix_rejects (child_path dir fdata) = false <->
                 PREFIX cfg = [] \/ exists a b, child_path dir fdata = a ++ PREFIX cfg ++ b).
  { unfold nested_prefix_rejects, wfind.
    destruct (PREFIX cfg) as [|p pre] eqn:Hp; simpl negb.
    - split; [auto | reflexivity].
    - rewrite andb_true_l. split.
      + intros H. right. apply Z.eqb_neq in H. eapply wfind_from_occurrence. exact H.
      + intros [E|(a & b & E)]; [discriminate|].
        apply Z.eqb_neq. rewrite E.
        destruct (wfind_from_found (p :: pre) a b 0) as (k & Hk & ->).
        rewrite E, !length_app in Hlen. simpl in Hlen.
        unfold npos. lia. }
  split; [|split].
  - rewrite Hcode, <- Hiff.
    destruct (nested_prefix_rejects (child_path dir fdata)); split; congruence.
  - rewrite Hcode. destruct (nested_prefix_rejects (child_path dir fdata)); congruence.
  - intros Hd. rewrite Hcode.
    replace (nested_prefix_rejects (child_path dir fdata)) with false; [reflexivity|].
    symmetry. apply Hiff. revert Hd. unfold nested_prefix_rejects, wfind.
    destruct (PREFIX cfg) as [|p pre]; [auto|]. simpl negb. rewrite andb_true_l.
    intros H. right. apply Z.eqb_neq in H. apply wfind_from_occurrence in H.
    destruct H as (a & b & ->). exists a, (b ++ backslash :: cFileName fdata).
    unfold child_path. rewrite <- !app_assoc. reflexivity.
Qed.

(** ** The entries "." and ".." *)

Lemma is_dot_or_dotdot_exact name :
  ~ In 0%N name ->
  is_dot_or_dotdot name = true <-> name = [dot] \/ name = [dot; dot].
Proof.
  intros Hnul. unfold is_dot_or_dotdot, name_at, wchar_eqb.
  destruct name as [|a [|b [|c rest]]]; simpl.
  - split; [discriminate | intros [E|E]; discriminate E].
  - rewrite andb_true_r, N.eqb_eq. split; [intros ->; auto|].
    intros [E|E]; inversion E; reflexivity.
  - rewrite andb_true_r.
    assert (Hb : (b =? 0)%N = false).
    { apply N.eqb_neq. intros ->. apply Hnul. right; left; reflexivity. }
    rewrite Hb. simpl. rewrite andb_true_iff, !N.eqb_eq. split.
    + intros [-> ->]. auto.
    + intros [E|E]; inversion E; auto.
  - assert (Hb : (b =? 0)%N = false).
    { apply N.eqb_neq. intros ->. apply Hnul. right; left; reflexivity. }
    assert (Hc : (c =? 0)%N = false).
    { apply N.eqb_neq. intros ->. apply Hnul. right; right; left; reflexivity. }
    rewrite Hb, Hc, andb_false_r, andb_false_r. split; [discriminate|].
    intros [E|E]; discriminate E.
Qed.

(** X8: of the directory entries only those named exactly "." and ".."
    are skipped, at seeding and in the workers; every other directory, also
    one whose name merely starts with a dot, is enqueued when no prefix is
    configured. *)
Theorem only_dot_and_dotdot_are_skipped dir fdata :
  is_directory fdata = true -> ~ In 0%N (cFileName fdata) ->
  (cFileName fdata = [dot] \/ cFileName fdata = [dot; dot] ->
   process_entry dir fdata = Skip /\ seed_entry fdata = None) /\
  (PREFIX cfg = [] -> cFileName fdata <> [dot] -> cFileName fdata <> [dot; dot] ->
   process_entry dir fdata = Push (child_path dir fdata) /\
   seed_entry fdata = Some (child_path (ROOT_DIR cfg) fdata)).
Proof.
  intros Hdir Hnul. pose proof (is_dot_or_dotdot_exact _ Hnul) as Hex.
  unfold process_entry, seed_entry, nested_prefix_rejects, top_level_prefix_ok.
  rewrite Hdir. split.
  - intros Hn. apply Hex in Hn. rewrite Hn. auto.
  - intros Hp H1 H2.
    destruct (is_dot_or_dotdot (cFileName fdata)) eqn:Hd.
    + exfalso. destruct (proj1 Hex eq_refl); contradiction.
    + rewrite Hp. simpl. auto.
Qed.

(** ** Seeding *)

Lemma wcsnicmp_prefix a b :
  wcsnicmp a b (List.length b) = true <->
  exists rest, map towlower a = map towlower b ++ rest.
Proof.
  revert a. induction b as [|y b IH]; intros a; simpl.
  - split; [eauto | intros _; destruct a; reflexivity].
  - destruct a as [|x a]; simpl.
    + split; [discriminate | intros [rest E]; discriminate E].
    + rewrite andb_true_iff, IH. unfold wchar_eqb. rewrite N.eqb_eq. split.
      * intros [-> [rest ->]]. eauto.
      * intros [rest E]. inversion E; subst. eauto.
Qed.

(** X9: the seeded directories are the subdirectories of the root, other
    than "." and "..", whose names start with the prefix when ASCII case is
    ignored (all of them for an empty prefix), each as [ROOT_DIR\name]. *)
Theorem seeding_selects_by_prefix entries d :
  FindFiles (search_pattern (ROOT_DIR cfg)) = Some entries ->
  Forall (fun fdata => ~ In 0%N (cFileName fdata)) entries ->
  In d seeds <->
  exists fdata, In fdata entries /\ is_directory fdata = true /\
    cFileName fdata <> [dot] /\ cFileName fdata <> [dot; dot] /\
    (exists rest, map towlower (cFileName fdata) = map towlower (PREFIX cfg) ++ rest) /\
    d = child_path (ROOT_DIR cfg) fdata.
Proof.
  intros Hf Hnul. unfold seeds, initialize_directory_queue. rewrite Hf. simpl.
  rewrite seed_fold_queue. simpl. rewrite in_flat_map.
  assert (Hse : forall e, In e entries ->
            (seed_entry e = Some d <->
             is_directory e = true /\ cFileName e <> [dot] /\ cFileName e <> [dot; dot] /\
             (exists rest, map towlower (cFileName e) = map towlower (PREFIX cfg) ++ rest) /\
             d = child_path (ROOT_DIR cfg) e)).
  { intros e He. rewrite Forall_forall in Hnul.
    assert (Hn : ~ In 0%N (cFileName e)) by (apply Hnul, list_elem_of_In, He).
    pose proof (is_dot_or_dotdot_exact _ Hn) as Hex.
    unfold seed_entry, top_level_prefix_ok. rewrite <- wcsnicmp_prefix.
    set (ok := wcsnicmp (cFileName e) (PREFIX cfg) (List.length (PREFIX cfg))).
    assert (Hempty : wempty (PREFIX cfg) = true -> ok = true).
    { unfold ok. destruct (PREFIX cfg); [|discriminate].
      intros _. destruct (cFileName e); reflexivity. }
    destruct (is_directory e); [|split; [discriminate | intros [H _]; discriminate H]].
    destruct (is_dot_or_dotdot (cFileName e)).
    - split; [discriminate|]. intros (_ & H1 & H2 & _). exfalso.
      destruct (proj1 Hex eq_refl); contradiction.
    - assert (H1 : cFileName e <> [dot]).
      { intros E. assert (false = true) by (apply Hex; auto). discriminate. }
      assert (H2 : cFileName e <> [dot; dot]).
      { intros E. assert (false = true) by (apply Hex; auto). discriminate. }
      destruct (wempty (PREFIX cfg)); simpl orb.
      + rewrite (Hempty eq_refl).
        split; [intros E; inversion E; auto 10 | intros (_ & _ & _ & _ & ->); reflexivity].
      + destruct ok.
        * split; [intros E; inversion E; auto 10 | intros (_ & _ & _ & _ & ->); reflexivity].
        * split; [discriminate | intros (_ & _ & _ & H & _); discriminate H]. }
  split.
  - intros (e & He & Hd). exists e. split; [exact He|]. apply (Hse e He).
    destruct (seed_entry e) as [d'|]; simpl in Hd; [|contradiction].
    destruct Hd as [->|[]]. reflexivity.
  - intros (e & He & Hrest). exists e. split; [exact He|].
    apply (Hse e He) in Hrest. rewrite Hrest. left; reflexivity.
Qed.

(** ** An empty extension *)

Lemma find_last_of_from_split c s :
  In c s ->
  exists a b, s = a ++ c :: b /\ ~ In c b /\
              forall pos acc, find_last_of_from c s pos acc = pos + Z.of_nat (List.length a).
Proof.
  induction s as [|x s IH]; intros Hc; [contradiction|].
  destruct (in_dec N.eq_dec c s) as [Hin|Hout].
  - destruct (IH Hin) as (a & b & -> & Hb & Hf). exists (x :: a), b.
    split; [reflexivity|]. split; [exact Hb|].
    intros pos acc. simpl. rewrite Hf. lia.
  - destruct Hc as [->|Hc]; [|contradiction].
    exists [], s. split; [reflexivity|]. split; [exact Hout|].
    intros pos acc. simpl. rewrite find_last_of_from_absent by exact Hout.
    unfold wchar_eqb. rewrite N.eqb_refl. lia.
Qed.

Lemma snoc_unique (c : wchar) (stem a b : wstring) :
  stem ++ [c] = a ++ c :: b -> ~ In c b -> b = [].
Proof.
  intros E Hb. apply (f_equal (@rev wchar)) in E.
  rewrite rev_app_distr in E. simpl in E. rewrite rev_app_distr in E. simpl in E.
  destruct (rev b) as [|z r] eqn:Hr.
  - apply (f_equal (@rev wchar)) in Hr. rewrite rev_involutive in Hr. exact Hr.
  - exfalso. apply Hb. apply in_rev. rewrite Hr. simpl in E. inversion E. left; reflexivity.
Qed.

(** The code's extension of a file is empty exactly when the file's name
    ends with a '.'. *)
Lemma file_ext_empty dir fdata :
  Z.of_nat (List.length (child_path dir fdata)) < size_t_mod ->
  file_ext (child_path dir fdata) = [] <-> exists stem, cFileName fdata = stem ++ [dot].
Proof.
  intros Hlen.
  destruct (in_dec N.eq_dec dot (cFileName fdata)) as [Hdot|Hdot].
  - pose proof (file_ext_of_dotted_name dir fdata Hdot Hlen) as Hext.
    destruct (find_last_of_from_split dot _ Hdot) as (a & b & E & Hb & Hf).
    assert (Hname : name_extension (cFileName fdata) = Some b).
    { unfold child_path in Hlen. rewrite E, length_app in Hlen. simpl in Hlen.
      rewrite length_app in Hlen. simpl in Hlen.
      assert (Hm : size_t_mod = 18446744073709551616) by reflexivity.
      unfold name_extension, find_last_of. rewrite !Hf. unfold npos. rewrite Hm in *.
      destruct (Z.eqb_spec (0 + Z.of_nat (List.length a)) (18446744073709551616 - 1));
        [lia|].
      f_equal. unfold substr. rewrite E.
      replace (Z.to_nat (0 + Z.of_nat (List.length a) + 1))
        with (List.length (a ++ [dot])) by (rewrite length_app; simpl; lia).
      replace (a ++ dot :: b) with ((a ++ [dot]) ++ b) by (rewrite <- app_assoc; reflexivity).
      apply drop_app_length. }
    rewrite Hname in Hext. inversion Hext as [Hb']. rewrite <- Hb'. split.
    + intros ->. exists a. exact E.
    + intros [stem Hs]. rewrite E in Hs. symmetry in Hs.
      eapply snoc_unique; eassumption.
  - split.
    + intros He. pose proof (file_ext_of_dotless_name dir fdata Hdot Hlen) as Hbs.
      rewrite He in Hbs. contradiction.
    + intros [stem Hs]. exfalso. apply Hdot. rewrite Hs. apply in_or_app.
      right; left; reflexivity.
Qed.

(** X10: an empty extension in the filter matches exactly the files whose
    names end with a '.'.  With the extension list that an empty
    [--filetypes=] value produces, a single empty extension, every other file
    is skipped. *)
Theorem empty_extension_selects_trailing_dot dir fdata :
  is_directory fdata = false -> file_types cfg = [[]] ->
  Z.of_nat (List.length (child_path dir fdata)) < size_t_mod ->
  (extension_rejects (child_path dir fdata) = false <->
   exists stem, cFileName fdata = stem ++ [dot]) /\
  ((forall stem, cFileName fdata <> stem ++ [dot]) -> process_entry dir fdata = Skip).
Proof.
  intros Hfile Hft Hlen.
  assert (Hiff : extension_rejects (child_path dir fdata) = false <->
                 exists stem, cFileName fdata = stem ++ [dot]).
  { rewrite <- (file_ext_empty dir fdata Hlen).
    unfold extension_rejects, extension_match. rewrite Hft. simpl.
    rewrite orb_false_r. destruct (file_ext (child_path dir fdata)); simpl.
    - split; reflexivity.
    - split; discriminate. }
  split; [exact Hiff|].
  intros Hno. unfold process_entry. rewrite Hfile.
  destruct (extension_rejects (child_path dir fdata)); [reflexivity|].
  exfalso. destruct (proj1 Hiff eq_refl) as [stem Hs]. exact (Hno stem Hs).
Qed.

(** ** Detection of the end of the scan *)

Lemma nothing_owed h w : in_flight w = 0 -> pending h w = local_out_buf w.
Proof.
  unfold in_flight, in_flight_at, pending, owed.
  destruct (pc w); try (intros _; apply app_nil_r); try discriminate.
  destruct (wempty _); [intros _; apply app_nil_r | discriminate].
Qed.

(** X11: [main] never leaves its polling loop early.  From the moment it has
    left the loop, in every later state, the queue is empty, the counter is
    0, and the records in the sink together with those still in private
    buffers are exactly the header and one record for each matched file; this
    also holds in a run that never completes. *)
Theorem nothing_is_outstanding_after_detection h n s :
  tree_depth_le h (ROOT_DIR cfg) = true ->
  Z.of_nat n <= INT_MAX -> Z.of_nat (List.length seeds) <= INT_MAX ->
  reachable n s -> main_pc s <> Polling ->
  dir_queue (ctx s) = [] /\ active_dir_count (ctx s) = 0 /\
  out_fp (ctx s) ++ flat_map local_out_buf (threads s)
  ≡ₚ header :: map record_of (matched_files h).
Proof.
  intros Hd Hn Hs Hr Hm.
  destruct (reachable_invariants h n s Hd Hn Hs Hr) as (_ & Hc & Hdet & _ & Hout & _).
  destruct Hdet as (Hq & _ & _). destruct (Hq Hm) as [Hqe Hfl].
  assert (Hsum : sumZ in_flight (threads s) = 0) by (apply sumZ_Forall_zero; exact Hfl).
  split; [exact Hqe|]. split.
  - rewrite Hc. unfold active_work. rewrite Hqe, Hsum. reflexivity.
  - unfold output_invariant in Hout. rewrite Hqe in Hout. simpl in Hout.
    rewrite app_nil_r in Hout. rewrite <- expected_records, <- Hout.
    apply Permutation_app_head.
    clear -Hfl. induction Hfl as [|w ws Hw _ IH]; simpl; [reflexivity|].
    rewrite (nothing_owed h w Hw), IH. reflexivity.
Qed.

(** ** Every state can still reach completion *)

(** A property reached for one worker at a time is reached for all. *)
Lemma each_worker_in_turn (P : state -> Prop) (good : worker -> Prop) :
  (forall s i w, P s -> threads s !! i = Some w ->
     exists s' w', steps s s' /\ P s' /\ threads s' = <[i := w']> (threads s) /\ good w') ->
  forall m k s, P s -> (List.length (threads s) - k)%nat = m ->
    (forall j w, threads s !! j = Some w -> (j < k)%nat -> good w) ->
    exists s', steps s s' /\ P s' /\ Forall good (threads s').
Proof.
  intros Hone. induction m as [|m IH]; intros k s HP Hm Hdone.
  - exists s. split; [apply steps_refl|]. split; [exact HP|].
    apply Forall_lookup_2. intros j w Hj.
    pose proof (lookup_lt_length _ _ _ Hj). apply (Hdone j w Hj). lia.
  - destruct (threads s !! k) as [w|] eqn:Hw; [|apply lookup_ge_None in Hw; lia].
    pose proof (lookup_lt_length _ _ _ Hw) as Hlen.
    destruct (Hone s k w HP Hw) as (s1 & w1 & Hs1 & HP1 & Ht1 & Hg1).
    destruct (IH (S k) s1 HP1) as (s' & Hs' & HP' & Hall).
    + rewrite Ht1, length_insert. lia.
    + intros j wj Hj Hlt. rewrite Ht1 in Hj.
      destruct (decide (j = k)) as [->|Hne].
      * rewrite list_lookup_insert_eq in Hj by exact Hlen. inversion Hj; subst. exact Hg1.
      * rewrite list_lookup_insert_ne in Hj by congruence. apply (Hdone j wj Hj). lia.
    + exists s'. split; [eapply steps_trans; eassumption | auto].
Qed.

(** While [main] polls and [q_m] is free, a worker can finish the
    directory it enumerates and return to the top of its loop. *)
Lemma finish_enumeration i dir rest :
  forall s w,
    q_m s = None -> main_pc s = Polling ->
    threads s !! i = Some w -> pc w = Enumerating dir rest ->
    exists s' w',
      steps s s' /\ q_m s' = None /\ main_pc s' = Polling /\
      threads s' = <[i := w']> (threads s) /\ pc w' = AtWait.
Proof.
  induction rest as [|e rest IH]; intros s w Hm Hp Hw Hpc;
    pose proof (lookup_lt_length _ _ _ Hw) as Hlen.
  - exists (update s (mark_complete (ctx s)) (q_m s) i (at_pc AtWait w)), (at_pc AtWait w).
    split; [|simpl; auto].
    apply (steps_one (Worker i)). simpl. unfold worker_next. rewrite Hw, Hpc. reflexivity.
  - assert (Hstep : exists s1 w1,
               steps s s1 /\ q_m s1 = None /\ main_pc s1 = Polling /\
               threads s1 = <[i := w1]> (threads s) /\ pc w1 = Enumerating dir rest).
    { destruct (process_entry dir e) eqn:Hpe.
      - exists (update s (ctx s) (q_m s) i (at_pc (Enumerating dir rest) w)),
               (at_pc (Enumerating dir rest) w).
        split; [|simpl; auto].
        apply (steps_one (Worker i)). simpl. unfold worker_next. rewrite Hw, Hpc, Hpe. reflexivity.
      - set (w1 := at_pc (Notifying dir rest) w).
        set (s1 := update s (enqueue (ctx s) subdir) None i w1).
        exists (update s1 (ctx s1) (q_m s1) i (at_pc (Enumerating dir rest) w1)),
               (at_pc (Enumerating dir rest) w1).
        split; [|simpl; split; [reflexivity|]; split; [assumption|]; split;
                 [apply list_insert_insert_eq | reflexivity]].
        eapply (steps_next _ (Worker i)); [|apply (steps_one (NotifyOne i None))].
        + simpl. unfold worker_next. rewrite Hw, Hpc, Hpe, Hm. reflexivity.
        + simpl. unfold notify_next. simpl.
          rewrite (list_lookup_insert_eq _ _ _ Hlen). simpl.
          rewrite Hp, orb_true_r. reflexivity.
      - destruct (buffer_full (local_out_buf w ++ [line])) eqn:Hfull.
        + exists (update s (fwrite (count_file (ctx s)) (local_out_buf w ++ [line])) (q_m s) i
                    {| pc := Enumerating dir rest; local_out_buf := [] |}),
                 {| pc := Enumerating dir rest; local_out_buf := [] |}.
          split; [|simpl; auto].
          apply (steps_one (Worker i)). simpl. unfold worker_next. rewrite Hw, Hpc, Hpe. cbv zeta.
          rewrite Hfull. reflexivity.
        + exists (update s (count_file (ctx s)) (q_m s) i
                    {| pc := Enumerating dir rest; local_out_buf := local_out_buf w ++ [line] |}),
                 {| pc := Enumerating dir rest; local_out_buf := local_out_buf w ++ [line] |}.
          split; [|simpl; auto].
          apply (steps_one (Worker i)). simpl. unfold worker_next. rewrite Hw, Hpc, Hpe. cbv zeta.
          rewrite Hfull. reflexivity.
      - exists (update s (ctx s) (q_m s) i (at_pc (Enumerating dir rest) w)),
               (at_pc (Enumerating dir rest) w).
        split; [|simpl; auto].
        apply (steps_one (Worker i)). simpl. unfold worker_next. rewrite Hw, Hpc, Hpe. reflexivity. }
    destruct Hstep as (s1 & w1 & Hs1 & Hm1 & Hp1 & Ht1 & Hpc1).
    destruct (IH s1 w1 Hm1 Hp1) as (s' & w' & Hs' & Hm' & Hp' & Ht' & Hpc'); [|exact Hpc1|].
    { rewrite Ht1. apply list_lookup_insert_eq, Hlen. }
    exists s', w'. split; [eapply steps_trans; eassumption|].
    split; [exact Hm'|]. split; [exact Hp'|]. split; [|exact Hpc'].
    rewrite Ht', Ht1. apply list_insert_insert_eq.
Qed.

(** While [main] polls and [q_m] is free, a worker that has not left its
    loop can get back to the top of the loop. *)
Lemma back_to_the_top s i w :
  q_m s = None -> main_pc s = Polling -> threads s !! i = Some w ->
  pc w <> FinalFlush -> pc w <> Exited ->
  exists s' w',
    steps s s' /\ q_m s' = None /\ main_pc s' = Polling /\
    threads s' = <[i := w']> (threads s) /\ pc w' = AtWait.
Proof.
  intros Hm Hp Hw Hff Hex. pose proof (lookup_lt_length _ _ _ Hw) as Hlen.
  assert (Hwake : forall s0 w0, q_m s0 = None -> main_pc s0 = Polling ->
            threads s0 !! i = Some w0 -> pc w0 = Blocked ->
            exists s' w',
              steps s0 s' /\ q_m s' = None /\ main_pc s' = Polling /\
              threads s' = <[i := w']> (threads s0) /\ pc w' = AtWait).
  { intros s0 w0 Hm0 Hp0 Hw0 Hpc0.
    exists (update s0 (ctx s0) (q_m s0) i (at_pc AtWait w0)), (at_pc AtWait w0).
    split; [|simpl; auto].
    apply (steps_one (SpuriousWake i)). simpl. unfold spurious_next, is_blocked. rewrite Hw0, Hpc0. reflexivity. }
  destruct (pc w) as [| | | d | d rest | d rest | |] eqn:Hpc; try congruence.
  - exists s, w. split; [apply steps_refl|]. repeat split; try assumption.
    symmetry. apply list_insert_id, Hw.
  - set (w1 := at_pc Blocked w). set (s1 := update s (ctx s) None i w1).
    destruct (Hwake s1 w1) as (s' & w' & Hs' & Hm' & Hp' & Ht' & Hpc'); try reflexivity.
    { exact Hp. }
    { simpl. apply list_lookup_insert_eq, Hlen. }
    exists s', w'. split; [|split; [exact Hm'|]; split; [exact Hp'|]; split; [|exact Hpc']].
    + eapply (steps_next _ (Worker i)); [|exact Hs'].
      simpl. unfold worker_next. rewrite Hw, Hpc. reflexivity.
    + rewrite Ht'. simpl. apply list_insert_insert_eq.
  - apply (Hwake s w); assumption.
  - destruct (wempty d) eqn:Hd; [|destruct (FindFiles (search_pattern d)) as [entries|] eqn:Hf].
    + exists (update s (ctx s) (q_m s) i (at_pc AtWait w)), (at_pc AtWait w).
      split; [|simpl; auto].
      apply (steps_one (Worker i)). simpl. unfold worker_next. rewrite Hw, Hpc, Hd. reflexivity.
    + set (w1 := at_pc (Enumerating d entries) w).
      set (s1 := update s (ctx s) (q_m s) i w1).
      destruct (finish_enumeration i d entries s1 w1)
        as (s' & w' & Hs' & Hm' & Hp' & Ht' & Hpc'); try reflexivity; try assumption.
      { simpl. apply list_lookup_insert_eq, Hlen. }
      exists s', w'. split; [|split; [exact Hm'|]; split; [exact Hp'|]; split; [|exact Hpc']].
      * eapply (steps_next _ (Worker i)); [|exact Hs'].
        simpl. unfold worker_next. rewrite Hw, Hpc, Hd, Hf. reflexivity.
      * rewrite Ht'. simpl. apply list_insert_insert_eq.
    + exists (update s (mark_complete (ctx s)) (q_m s) i (at_pc AtWait w)), (at_pc AtWait w).
      split; [|simpl; auto].
      apply (steps_one (Worker i)). simpl. unfold worker_next. rewrite Hw, Hpc, Hd, Hf. reflexivity.
  - apply (finish_enumeration i d rest s w); assumption.
  - set (w1 := at_pc (Enumerating d rest) w).
    set (s1 := update s (ctx s) (q_m s) i w1).
    destruct (finish_enumeration i d rest s1 w1)
      as (s' & w' & Hs' & Hm' & Hp' & Ht' & Hpc'); try reflexivity; try assumption.
    { simpl. apply list_lookup_insert_eq, Hlen. }
    exists s', w'. split; [|split; [exact Hm'|]; split; [exact Hp'|]; split; [|exact Hpc']].
    + eapply (steps_next _ (NotifyOne i None)); [|exact Hs'].
      simpl. unfold notify_next. rewrite Hw, Hpc, Hp, orb_true_r. reflexivity.
    + rewrite Ht'. simpl. apply list_insert_insert_eq.
Qed.

(** When [main] joins, [done] is set, [q_m] is free and the queue is empty,
    a worker that holds no directory can leave its loop and return. *)
Lemma leave_the_loop s i w :
  q_m s = None -> main_pc s = Joining -> done (ctx s) = true -> dir_queue (ctx s) = [] ->
  threads s !! i = Some w -> in_flight w = 0 ->
  exists s' w',
    steps s s' /\ q_m s' = None /\ main_pc s' = Joining /\ done (ctx s') = true /\
    dir_queue (ctx s') = [] /\ threads s' = <[i := w']> (threads s) /\ pc w' = Exited.
Proof.
  intros Hm Hp Hdone Hq Hw Hfl. pose proof (lookup_lt_length _ _ _ Hw) as Hlen.
  assert (Hflush : forall s0 w0, q_m s0 = None -> main_pc s0 = Joining ->
            done (ctx s0) = true -> dir_queue (ctx s0) = [] ->
            threads s0 !! i = Some w0 -> pc w0 = FinalFlush ->
            exists s' w',
              steps s0 s' /\ q_m s' = None /\ main_pc s' = Joining /\ done (ctx s') = true /\
              dir_queue (ctx s') = [] /\ threads s' = <[i := w']> (threads s0) /\
              pc w' = Exited).
  { intros s0 w0 Hm0 Hp0 Hd0 Hq0 Hw0 Hpc0.
    destruct (local_out_buf w0) as [|r buf] eqn:Hbuf.
    - exists (update s0 (ctx s0) (q_m s0) i (at_pc Exited w0)), (at_pc Exited w0).
      split; [|simpl; auto 10].
      apply (steps_one (Worker i)). simpl. unfold worker_next. rewrite Hw0, Hpc0, Hbuf. reflexivity.
    - exists (update s0 (fwrite (ctx s0) (r :: buf)) (q_m s0) i
                {| pc := Exited; local_out_buf := [] |}),
             {| pc := Exited; local_out_buf := [] |}.
      split; [|simpl; auto 10].
      apply (steps_one (Worker i)). simpl. unfold worker_next. rewrite Hw0, Hpc0, Hbuf. reflexivity. }
  assert (Htop : forall s0 w0, q_m s0 = None -> main_pc s0 = Joining ->
            done (ctx s0) = true -> dir_queue (ctx s0) = [] ->
            threads s0 !! i = Some w0 -> pc w0 = AtWait ->
            exists s' w',
              steps s0 s' /\ q_m s' = None /\ main_pc s' = Joining /\ done (ctx s') = true /\
              dir_queue (ctx s') = [] /\ threads s' = <[i := w']> (threads s0) /\
              pc w' = Exited).
  { intros s0 w0 Hm0 Hp0 Hd0 Hq0 Hw0 Hpc0.
    pose proof (lookup_lt_length _ _ _ Hw0) as Hlen0.
    set (w1 := at_pc FinalFlush w0). set (s1 := update s0 (ctx s0) None i w1).
    destruct (Hflush s1 w1) as (s' & w' & Hs' & H1 & H2 & H3 & H4 & H5 & H6);
      try assumption; try reflexivity.
    { simpl. apply list_lookup_insert_eq, Hlen0. }
    exists s', w'. split; [|repeat split; try assumption].
    - eapply (steps_next _ (Worker i)); [|exact Hs'].
      simpl. unfold worker_next. rewrite Hw0, Hpc0, Hm0, Hq0, Hd0. reflexivity.
    - rewrite H5. simpl. apply list_insert_insert_eq. }
  assert (Hwake : forall s0 w0, q_m s0 = None -> main_pc s0 = Joining ->
            done (ctx s0) = true -> dir_queue (ctx s0) = [] ->
            threads s0 !! i = Some w0 -> pc w0 = Blocked ->
            exists s' w',
              steps s0 s' /\ q_m s' = None /\ main_pc s' = Joining /\ done (ctx s') = true /\
              dir_queue (ctx s') = [] /\ threads s' = <[i := w']> (threads s0) /\
              pc w' = Exited).
  { intros s0 w0 Hm0 Hp0 Hd0 Hq0 Hw0 Hpc0.
    pose proof (lookup_lt_length _ _ _ Hw0) as Hlen0.
    set (w1 := at_pc AtWait w0). set (s1 := update s0 (ctx s0) (q_m s0) i w1).
    destruct (Htop s1 w1) as (s' & w' & Hs' & H1 & H2 & H3 & H4 & H5 & H6);
      try assumption; try reflexivity.
    { simpl. apply list_lookup_insert_eq, Hlen0. }
    exists s', w'. split; [|repeat split; try assumption].
    - eapply (steps_next _ (SpuriousWake i)); [|exact Hs'].
      simpl. unfold spurious_next, is_blocked. rewrite Hw0, Hpc0. reflexivity.
    - rewrite H5. simpl. apply list_insert_insert_eq. }
  unfold in_flight, in_flight_at in Hfl.
  destruct (pc w) as [| | | d | d rest | d rest | |] eqn:Hpc; try discriminate.
  - apply (Htop s w); assumption.
  - set (w1 := at_pc Blocked w). set (s1 := update s (ctx s) None i w1).
    destruct (Hwake s1 w1) as (s' & w' & Hs' & H1 & H2 & H3 & H4 & H5 & H6);
      try assumption; try reflexivity.
    { simpl. apply list_lookup_insert_eq, Hlen. }
    exists s', w'. split; [|repeat split; try assumption].
    + eapply (steps_next _ (Worker i)); [|exact Hs'].
      simpl. unfold worker_next. rewrite Hw, Hpc. reflexivity.
    + rewrite H5. simpl. apply list_insert_insert_eq.
  - apply (Hwake s w); assumption.
  - destruct (wempty d) eqn:Hd; [|discriminate].
    set (w1 := at_pc AtWait w). set (s1 := update s (ctx s) (q_m s) i w1).
    destruct (Htop s1 w1) as (s' & w' & Hs' & H1 & H2 & H3 & H4 & H5 & H6);
      try assumption; try reflexivity.
    { simpl. apply list_lookup_insert_eq, Hlen. }
    exists s', w'. split; [|repeat split; try assumption].
    + eapply (steps_next _ (Worker i)); [|exact Hs'].
      simpl. unfold worker_next. rewrite Hw, Hpc, Hd. reflexivity.
    + rewrite H5. simpl. apply list_insert_insert_eq.
  - apply (Hflush s w); assumption.
  - exists s, w. split; [apply steps_refl|]. repeat split; try assumption.
    symmetry. apply list_insert_id, Hw.
Qed.

(** The lock is free again once its holder, about to block, has blocked. *)
Lemma release_lock s :
  lock_invariant s ->
  exists s', steps s s' /\ q_m s' = None /\ main_pc s' = main_pc s.
Proof.
  intros Hl. destruct (q_m s) as [k|] eqn:Hq.
  - destruct (Hl k Hq) as (w & Hw & Hpc).
    exists (update s (ctx s) None k (at_pc Blocked w)). split; [|auto].
    apply (steps_one (Worker k)). simpl. unfold worker_next. rewrite Hw, Hpc. reflexivity.
  - exists s. split; [apply steps_refl | auto].
Qed.

(** X12: no reachable state of a scan of a finite tree with at least one
    worker is a dead end.  From every reachable state some continuation
    leads to completion (a worker that sleeps in [q_cv.wait] after a lost
    wake-up needs a spurious wake-up for it). *)
Theorem completion_stays_reachable h n s :
  tree_depth_le h (ROOT_DIR cfg) = true -> (1 <= n)%nat ->
  Z.of_nat n <= INT_MAX -> Z.of_nat (List.length seeds) <= INT_MAX ->
  reachable n s ->
  exists s', steps s s' /\ complete s'.
Proof.
  intros Hd Hn1 Hn Hs.
  assert (Hfacts : forall s, reachable n s ->
            queue_nonempty_paths s /\ counter_invariant s /\ detection_invariant s /\
            depth_invariant h s /\ exit_invariant s /\ lock_invariant s /\ done_invariant s /\
            (main_pc s <> Closed -> List.length (threads s) = n)).
  { intros s0 Hr0.
    destruct (reachable_invariants h n s0 Hd Hn Hs Hr0) as (H1 & H2 & H3 & H4 & _ & H6).
    assert (Hmore : lock_invariant s0 /\ done_invariant s0 /\
                    (main_pc s0 <> Closed -> List.length (threads s0) = n)).
    { eapply (steps_invariant (fun s => lock_invariant s /\ done_invariant s /\
                (main_pc s <> Closed -> List.length (threads s) = n))); [| exact Hr0 |].
      - intros l s1 s2 Hstep (Ha & Hb & Hc). split; [|split].
        + eapply lock_invariant_step; eassumption.
        + eapply done_invariant_step; eassumption.
        + intros Hnc. rewrite (threads_length_step _ _ _ Hstep). apply Hc.
          intros Hcl. apply Hnc.
          destruct (main_thread_cases _ _ _ Hstep)
            as [[Hm _] | [(Hm & _) | [[Hm _] | [(Hm & _) | (Hm & _)]]]]; congruence.
      - split; [apply lock_invariant_start|]. split; [apply done_invariant_start|].
        unfold main_start. destruct (initialize_directory_queue opened) as [[|] c]; simpl.
        + intros _. apply length_replicate.
        + congruence. }
    tauto. }
  intros Hr.
  (* the queue is drained while [main] polls *)
  assert (Hpoll : forall s0, reachable n s0 -> main_pc s0 = Polling ->
                             exists s', steps s0 s' /\ complete s').
  { intros s0 Hr0 Hp0.
    destruct (Hfacts s0 Hr0) as (_ & _ & _ & _ & _ & Hl0 & _).
    destruct (release_lock s0 Hl0) as (s1 & Hs1 & Hm1 & Hp1). rewrite Hp0 in Hp1.
    assert (Hr1 : reachable n s1) by (eapply steps_trans; eassumption).
    destruct (each_worker_in_turn
                (fun s => reachable n s /\ q_m s = None /\ main_pc s = Polling)
                (fun w => pc w = AtWait)) with (m := List.length (threads s1)) (k := 0%nat) (s := s1)
      as (s2 & Hs2 & (Hr2 & Hm2 & Hp2) & Hall2).
    - intros sa i w (Hra & Hma & Hpa) Hw.
      destruct (Hfacts sa Hra) as (_ & _ & (_ & Hdn & _) & _ & Hex & _).
      unfold exit_invariant in Hex. eapply Forall_lookup_1 in Hex; [|exact Hw].
      assert (Hnd : done (ctx sa) <> true).
      { intros Hdt. destruct (Hdn Hdt) as [Hnp _]. contradiction. }
      destruct (back_to_the_top sa i w Hma Hpa Hw) as (sb & wb & Hsb & Hmb & Hpb & Htb & Hpcb).
      + intros Hpc. apply Hnd, Hex. left; exact Hpc.
      + intros Hpc. apply Hnd, Hex. right; exact Hpc.
      + exists sb, wb. split; [exact Hsb|]. split; [|auto].
        split; [eapply steps_trans; eassumption | auto].
    - auto.
    - lia.
    - intros j w _ Hlt. lia.
    - destruct (Hfacts s2 Hr2) as (Hq2 & _ & (_ & Hdn2 & _) & (Hdq2 & _) & _ & _ & _ & Hlen2).
      assert (Hall : all_waiting s2).
      { repeat split; try assumption.
        destruct (done (ctx s2)) eqn:Hdt; [|reflexivity].
        destruct (Hdn2 eq_refl) as [Hnp _]. contradiction. }
      destruct (drain h s2 Hall) as (s3 & Hs3 & Hall3 & _ & Hq3); try assumption.
      { rewrite Hlen2; [lia | congruence]. }
      assert (Hr3 : reachable n s3) by (eapply steps_trans; eassumption).
      destruct (shutdown s3 Hall3 Hq3) as (s4 & Hs4 & Hc4).
      { apply (Hfacts s3 Hr3). }
      exists s4. split; [|exact Hc4].
      eapply steps_trans; [exact Hs1|]. eapply steps_trans; [exact Hs2|].
      eapply steps_trans; eassumption. }
  (* the workers leave while [main] joins *)
  assert (Hjoin : forall s0, reachable n s0 -> main_pc s0 = Joining ->
                             exists s', steps s0 s' /\ complete s').
  { intros s0 Hr0 Hp0.
    destruct (Hfacts s0 Hr0) as (_ & _ & _ & _ & _ & Hl0 & _).
    destruct (release_lock s0 Hl0) as (s1 & Hs1 & Hm1 & Hp1). rewrite Hp0 in Hp1.
    assert (Hr1 : reachable n s1) by (eapply steps_trans; eassumption).
    destruct (each_worker_in_turn
                (fun s => reachable n s /\ q_m s = None /\ main_pc s = Joining)
                (fun w => pc w = Exited)) with (m := List.length (threads s1)) (k := 0%nat) (s := s1)
      as (s2 & Hs2 & (Hr2 & Hm2 & Hp2) & Hall2).
    - intros sa i w (Hra & Hma & Hpa) Hw.
      destruct (Hfacts sa Hra) as (_ & _ & (Hqu & _ & _) & _ & _ & _ & Hdi & _).
      destruct Hqu as [Hqe Hfl]; [congruence|].
      eapply Forall_lookup_1 in Hfl; [|exact Hw].
      destruct (leave_the_loop sa i w Hma Hpa) as (sb & wb & Hsb & Hmb & Hpb & _ & _ & Htb & Hpcb);
        try assumption.
      + apply Hdi. auto.
      + exists sb, wb. split; [exact Hsb|]. split; [|auto].
        split; [eapply steps_trans; eassumption | auto].
    - auto.
    - lia.
    - intros j w _ Hlt. lia.
    - exists {| ctx := ctx s2; q_m := q_m s2; threads := threads s2; main_pc := Closed |}.
      split; [|reflexivity].
      eapply steps_trans; [exact Hs1|]. eapply steps_trans; [exact Hs2|].
      apply (steps_one Main). simpl. unfold main_next. rewrite Hp2.
      replace (forallb is_exited (threads s2)) with true; [reflexivity|].
      symmetry. apply forallb_forall. intros w Hw.
      apply list_elem_of_In in Hw. rewrite Forall_forall in Hall2.
      unfold is_exited. rewrite (Hall2 w Hw). reflexivity. }
  destruct (main_pc s) eqn:Hm.
  - apply Hpoll; assumption.
  - set (s1 := {| ctx := store_done (ctx s); q_m := q_m s; threads := threads s;
                  main_pc := NotifyAll |}).
    set (s2 := {| ctx := ctx s1; q_m := q_m s1; threads := map wake (threads s1);
                  main_pc := Joining |}).
    assert (H1 : next Main s = Some s1) by (simpl; unfold main_next; rewrite Hm; reflexivity).
    assert (H2 : next Main s1 = Some s2) by reflexivity.
    destruct (Hjoin s2) as (s' & Hs' & Hc'); [|reflexivity|].
    + eapply steps_trans; [exact Hr|]. eapply steps_next; [exact H1|].
      apply (steps_one Main). exact H2.
    + exists s'. split; [|exact Hc'].
      eapply steps_next; [exact H1|]. eapply steps_next; [exact H2 | exact Hs'].
  - set (s2 := {| ctx := ctx s; q_m := q_m s; threads := map wake (threads s);
                  main_pc := Joining |}).
    assert (H2 : next Main s = Some s2) by (simpl; unfold main_next; rewrite Hm; reflexivity).
    destruct (Hjoin s2) as (s' & Hs' & Hc'); [|reflexivity|].
    + eapply steps_trans; [exact Hr|]. apply (steps_one Main). exact H2.
    + exists s'. split; [|exact Hc']. eapply steps_next; [exact H2 | exact Hs'].
  - apply Hjoin; assumption.
  - exists s. split; [apply steps_refl | exact Hm].
Qed.

(** X13: without worker threads a scan that seeded a directory never
    completes.  When [NUM_THREADS] is 0 (the value [hardware_concurrency]
    returns when it cannot tell) and the seeding enqueued something, the
    start state is the only state of the run: [main] polls forever. *)
Theorem no_worker_no_completion s :
  seeds <> [] -> Z.of_nat (List.length seeds) <= INT_MAX ->
  reachable 0 s ->
  s = main_start 0 /\ main_pc s = Polling /\ ~ complete s /\
  next Main s = Some s /\ forall l, l <> Main -> next l s = None.
Proof.
  intros Hne Hs Hr.
  destruct (main_start_seeded 0 Hs Hne) as [_ Hst]. simpl in Hst.
  assert (Hpos : 0 < Z.of_nat (List.length seeds)).
  { destruct seeds; [congruence | simpl; lia]. }
  assert (Hmain : next Main (main_start 0) = Some (main_start 0)).
  { rewrite Hst. simpl. unfold main_next. simpl.
    destruct (Z.eqb_spec (Z.of_nat (List.length seeds)) 0) as [E|_]; [lia|]. reflexivity. }
  assert (Hother : forall l, l <> Main -> next l (main_start 0) = None).
  { intros l Hl. rewrite Hst. destruct l as [i | i target | j |]; simpl.
    - reflexivity.
    - reflexivity.
    - reflexivity.
    - congruence. }
  assert (Heq : s = main_start 0).
  { eapply (steps_invariant (fun s => s = main_start 0)); [| exact Hr | reflexivity].
    intros l s1 s2 Hstep ->. destruct l as [i | i target | j |];
      try (rewrite Hother in Hstep by discriminate; discriminate).
    rewrite Hmain in Hstep. inversion Hstep; reflexivity. }
  subst s. split; [reflexivity|]. split; [rewrite Hst; reflexivity|].
  split; [unfold complete; rewrite Hst; discriminate|]. auto.
Qed.

(** ** A directory that cannot be listed *)

(** When [FindFirstFileExW] fails for the directory a worker took from the
    queue, the worker's next step decrements the Active-Work Counter once
    and takes it back to the top of its loop; the queue, the sink, [done],
    the matched-file counter, the lock, the worker's buffer and the other
    threads are as before. *)
Lemma failed_listing_is_skipped s i w dir :
  threads s !! i = Some w -> pc w = Holding dir -> dir <> [] ->
  FindFiles (search_pattern dir) = None ->
  next (Worker i) s
  = Some {| ctx := {| dir_queue := dir_queue (ctx s);
                      active_dir_count := int_wrap (active_dir_count (ctx s) - 1);
                      done := done (ctx s);
                      out_fp := out_fp (ctx s);
                      file_count := file_count (ctx s) |};
            q_m := q_m s;
            threads := <[i := {| pc := AtWait; local_out_buf := local_out_buf w |}]> (threads s);
            main_pc := main_pc s |}.
Proof.
  intros Hi Hpc Hne Hf. simpl. unfold worker_next. rewrite Hi, Hpc.
  destruct dir; [congruence|]. simpl. rewrite Hf. reflexivity.
Qed.

End Scanner.

(** * The scan of the concrete file system *)

Local Open Scope string_scope.

#[local] Instance well_formed_listing_dec entries : Decision (well_formed_listing entries).
Proof. unfold well_formed_listing. apply _. Defined.



(** C3: the scan of [demo_fs] with one worker has a run after which the
    main thread waits in [join] and the worker is blocked in [q_cv.wait]
    with unflushed records, although the queue is empty, the counter is 0 and
    [done] is set: the worker tested the wait predicate before
    [done.store(true)] and blocked after [notify_all].  From that state only
    a spurious wake-up can make a step.  Another schedule of the same scan
    runs to completion. *)
Theorem lost_wakeup_leaves_worker_blocked :
  let s := state_after demo_fs ascii_utf8 demo_cfg 1 lost_wakeup_trace in
  reachable demo_fs ascii_utf8 demo_cfg 1 s /\
  main_pc s = Joining /\ done (ctx s) = true /\
  dir_queue (ctx s) = [] /\ active_dir_count (ctx s) = 0 /\
  out_fp (ctx s) = [header] /\
  threads s = [ {| pc := Blocked;
                   local_out_buf := [demo_record "root\A\a.txt";
                                     demo_record "root\A\sub\c.TXT"] |} ] /\
  (forall l s', next demo_fs ascii_utf8 demo_cfg l s = Some s' -> l = SpuriousWake 0) /\
  (exists s_end, reachable demo_fs ascii_utf8 demo_cfg 1 s_end /\ complete s_end).
Proof.
  assert (Hs : state_after demo_fs ascii_utf8 demo_cfg 1 lost_wakeup_trace
               = {| ctx := {| dir_queue := []; active_dir_count := 0; done := true;
                              out_fp := [header]; file_count := 2 |};
                    q_m := None;
                    threads := [ {| pc := Blocked;
                                    local_out_buf := [demo_record "root\A\a.txt";
                                                      demo_record "root\A\sub\c.TXT"] |} ];
                    main_pc := Joining |}).
  { vm_compute. reflexivity. }
  cbv zeta. split.
  - apply (state_after_reachable demo_fs ascii_utf8 demo_cfg 1). vm_compute. eauto.
  - rewrite Hs. simpl. repeat split; try reflexivity.
    + intros l s' Hn. destruct l as [i | i target | j |]; simpl in Hn.
      * unfold worker_next in Hn. destruct i as [|i]; simpl in Hn; discriminate.
      * unfold notify_next in Hn. destruct i as [|i]; simpl in Hn; discriminate.
      * unfold spurious_next in Hn.
        destruct j as [|j]; simpl in Hn; [reflexivity | discriminate].
      * unfold main_next in Hn. simpl in Hn. discriminate.
    + exists (state_after demo_fs ascii_utf8 demo_cfg 1 complete_trace). split.
      * apply (state_after_reachable demo_fs ascii_utf8 demo_cfg 1). vm_compute. eauto.
      * vm_compute. reflexivity.
Qed.

(** C9: in the scan of [demo_fs] with one worker the directory
    [root\A\locked] cannot be listed.  The worker that took it from the
    queue decrements the Active-Work Counter once, from 1 to 0, and is back
    at the top of its loop with its buffer, the queue and the sink as
    before; it has not left the loop.  From the state after the failure the
    run can go on to completion, and every completed run holds the records
    of the other directories.  But it need not complete: another
    continuation from the same state, in which the worker tests the wait
    predicate between [main]'s last poll and [done.store(true)], ends with
    [main] in [join] and the worker blocked in [q_cv.wait] with its records
    unflushed.  That state is not complete, and only a spurious wake-up can
    make a step from it. *)
Theorem failed_listing_can_end_in_lost_wakeup :
  let s := state_after demo_fs ascii_utf8 demo_cfg 1 holding_locked_trace in
  let s_failed :=
    {| ctx := {| dir_queue := []; active_dir_count := 0; done := false;
                 out_fp := [header]; file_count := 2 |};
       q_m := None;
       threads := [ {| pc := AtWait;
                       local_out_buf := [demo_record "root\A\a.txt";
                                         demo_record "root\A\sub\c.TXT"] |} ];
       main_pc := Polling |} in
  let s_hang :=
    {| ctx := {| dir_queue := []; active_dir_count := 0; done := true;
                 out_fp := [header]; file_count := 2 |};
       q_m := None;
       threads := [ {| pc := Blocked;
                       local_out_buf := [demo_record "root\A\a.txt";
                                         demo_record "root\A\sub\c.TXT"] |} ];
       main_pc := Joining |} in
  reachable demo_fs ascii_utf8 demo_cfg 1 s /\
  threads s = [holding_locked_worker] /\
  active_dir_count (ctx s) = 1 /\ dir_queue (ctx s) = [] /\
  out_fp (ctx s) = [header] /\ main_pc s = Polling /\
  demo_fs (search_pattern (L "root\A\locked")) = None /\
  next demo_fs ascii_utf8 demo_cfg (Worker 0) s = Some s_failed /\
  (exists s_end, steps demo_fs ascii_utf8 demo_cfg s_failed s_end /\ complete s_end /\
                 out_fp (ctx s_end) = [header; demo_record "root\A\a.txt";
                                       demo_record "root\A\sub\c.TXT"]) /\
  (forall s_end, reachable demo_fs ascii_utf8 demo_cfg 1 s_end -> complete s_end ->
                 out_fp (ctx s_end) ≡ₚ [header; demo_record "root\A\a.txt";
                                        demo_record "root\A\sub\c.TXT"]) /\
  steps demo_fs ascii_utf8 demo_cfg s_failed s_hang /\
  reachable demo_fs ascii_utf8 demo_cfg 1 s_hang /\
  ~ complete s_hang /\
  (forall l s', next demo_fs ascii_utf8 demo_cfg l s_hang = Some s' -> l = SpuriousWake 0).
Proof.
  assert (Hs : state_after demo_fs ascii_utf8 demo_cfg 1 holding_locked_trace
               = {| ctx := {| dir_queue := []; active_dir_count := 1; done := false;
                              out_fp := [header]; file_count := 2 |};
                    q_m := None;
                    threads := [holding_locked_worker];
                    main_pc := Polling |}).
  { vm_compute. reflexivity. }
  assert (Hr : reachable demo_fs ascii_utf8 demo_cfg 1
                 (state_after demo_fs ascii_utf8 demo_cfg 1 holding_locked_trace)).
  { apply (state_after_reachable demo_fs ascii_utf8 demo_cfg 1). vm_compute. eauto. }
  assert (Hlocked : demo_fs (search_pattern (L "root\A\locked")) = None).
  { vm_compute. reflexivity. }
  cbv zeta.
  assert (Hfail : next demo_fs ascii_utf8 demo_cfg (Worker 0)
                    (state_after demo_fs ascii_utf8 demo_cfg 1 holding_locked_trace)
                  = Some {| ctx := {| dir_queue := []; active_dir_count := 0; done := false;
                                      out_fp := [header]; file_count := 2 |};
                            q_m := None;
                            threads := [ {| pc := AtWait;
                                            local_out_buf := [demo_record "root\A\a.txt";
                                                              demo_record "root\A\sub\c.TXT"] |} ];
                            main_pc := Polling |}).
  { rewrite (failed_listing_is_skipped demo_fs ascii_utf8 demo_cfg _ 0%nat
               holding_locked_worker (L "root\A\locked")).
    - rewrite Hs. reflexivity.
    - rewrite Hs. reflexivity.
    - reflexivity.
    - discriminate.
    - exact Hlocked. }
  assert (Hfailed : reachable demo_fs ascii_utf8 demo_cfg 1
                      {| ctx := {| dir_queue := []; active_dir_count := 0; done := false;
                                   out_fp := [header]; file_count := 2 |};
                         q_m := None;
                         threads := [ {| pc := AtWait;
                                         local_out_buf := [demo_record "root\A\a.txt";
                                                           demo_record "root\A\sub\c.TXT"] |} ];
                         main_pc := Polling |}).
  { eapply steps_trans; [exact Hr|]. eapply steps_one. exact Hfail. }
  assert (Hhang : steps demo_fs ascii_utf8 demo_cfg
                    {| ctx := {| dir_queue := []; active_dir_count := 0; done := false;
                                 out_fp := [header]; file_count := 2 |};
                       q_m := None;
                       threads := [ {| pc := AtWait;
                                       local_out_buf := [demo_record "root\A\a.txt";
                                                         demo_record "root\A\sub\c.TXT"] |} ];
                       main_pc := Polling |}
                    {| ctx := {| dir_queue := []; active_dir_count := 0; done := true;
                                 out_fp := [header]; file_count := 2 |};
                       q_m := None;
                       threads := [ {| pc := Blocked;
                                       local_out_buf := [demo_record "root\A\a.txt";
                                                         demo_record "root\A\sub\c.TXT"] |} ];
                       main_pc := Joining |}).
  { apply (run_steps demo_fs ascii_utf8 demo_cfg [Main; Worker 0; Main; Main; Worker 0]).
    vm_compute. reflexivity. }
  split; [exact Hr|]. rewrite Hs in Hfail. rewrite Hs.
  do 5 (split; [reflexivity|]).
  split; [exact Hlocked|]. split; [exact Hfail|]. split; [|split; [|split; [|split; [|split]]]].
  - eexists. split; [|split].
    + apply (run_steps demo_fs ascii_utf8 demo_cfg [Main; Main; Main; Worker 0; Worker 0; Main]).
      vm_compute. reflexivity.
    + reflexivity.
    + reflexivity.
  - intros s_end Hre Hce.
    rewrite (complete_output demo_fs ascii_utf8 demo_cfg 3 1 s_end); try assumption.
    + vm_compute. reflexivity.
    + vm_compute. reflexivity.
    + vm_compute. discriminate.
    + vm_compute. discriminate.
  - exact Hhang.
  - eapply steps_trans; [exact Hfailed | exact Hhang].
  - unfold complete. simpl. discriminate.
  - intros l s' Hn. destruct l as [i | i target | j |]; simpl in Hn.
    + unfold worker_next in Hn. destruct i as [|i]; simpl in Hn; discriminate.
    + unfold notify_next in Hn. destruct i as [|i]; simpl in Hn; discriminate.
    + unfold spurious_next in Hn.
      destruct j as [|j]; simpl in Hn; [reflexivity | discriminate].
    + unfold main_next in Hn. simpl in Hn. discriminate.
Qed.

(** C5: with [--prefix=abc] the top-level directory [ABC] is seeded (the
    seeding compares without case), but its subdirectory [root\ABC\sub],
    whose path contains the prefix when case is ignored, is skipped by the
    worker: [std::wstring::find] compares with case. *)
Theorem nested_prefix_check_is_case_sensitive :
  let cfg := {| ROOT_DIR := L "root"; PREFIX := L "abc";
                OUTPUT_BUFFER_FLUSH_COUNT := 5000; file_types := [] |} in
  seed_entry cfg (dir_entry "ABC") = Some (L "root\ABC") /\
  contains_ignoring_case (L "root\ABC\sub") (PREFIX cfg) = true /\
  process_entry ascii_utf8 cfg (L "root\ABC") (dir_entry "sub") = Skip.
Proof. cbv zeta. repeat split; vm_compute; reflexivity. Qed.

(** The rule fails as stated: the extension is cut from the full path, not
    from the file name, so the file [archive], whose name has no '.', is
    recorded for the filter [d\archive] when it lies in the directory [a.d],
    while the rule of the specification rejects it.  For the filter [zip]
    the same file is skipped. *)
Lemma extension_is_taken_from_full_path :
  let cfg := {| ROOT_DIR := L "root"; PREFIX := [];
                OUTPUT_BUFFER_FLUSH_COUNT := 5000; file_types := [L "d\archive"] |} in
  let zip := {| ROOT_DIR := L "root"; PREFIX := [];
                OUTPUT_BUFFER_FLUSH_COUNT := 5000; file_types := [L "zip"] |} in
  name_extension (L "archive") = None /\
  spec_extension_ok cfg (L "archive") = false /\
  process_entry ascii_utf8 cfg (L "root\a.d") (file_entry "archive")
  = Append (demo_record "root\a.d\archive") /\
  process_entry ascii_utf8 zip (L "root\a.d") (file_entry "archive") = Skip.
Proof. cbv zeta. repeat split; vm_compute; reflexivity. Qed.

(** C8: the seeding loop of [fast_scan4.cpp] has no test for "." and "..":
    with an empty prefix it enqueues [root\.] and [root\..], so the root
    itself and its parent are traversed; the later version seeds only the
    real subdirectories. *)
Theorem fast_scan4_seeds_dot_entries :
  dir_queue (FastScan4.seeded demo_fs plain_cfg opened)
  = [L "root\."; L "root\.."; L "root\A"; L "root\B"] /\
  seeds demo_fs plain_cfg = [L "root\A"; L "root\B"].
Proof. split; vm_compute; reflexivity. Qed.


(** Pools of one and two workers fit an [int]. *)
Lemma demo_int_bounds : Z.of_nat 1 <= INT_MAX /\ Z.of_nat 2 <= INT_MAX.
Proof. split; vm_compute; discriminate. Qed.



(** [demo_fs] has three levels of directories. *)
Lemma demo_depth : tree_depth_le demo_fs 3 (L "root") = true.
Proof. vm_compute. reflexivity. Qed.



(** The counter while the worker enumerates [root\A] with [root\A\sub] queued. *)
Lemma active_work_counted_on_demo_fs :
  let s := state_after demo_fs ascii_utf8 demo_cfg 1 busy_trace in
  active_dir_count (ctx s)
  = Z.of_nat (List.length (dir_queue (ctx s))) + sumZ in_flight (threads s) /\
  (forall i w, threads s !! i = Some w -> in_flight w = 1 ->
               0 < active_dir_count (ctx s)) /\
  (forall l s', next demo_fs ascii_utf8 demo_cfg l s = Some s' ->
     active_dir_count (ctx s') = int_wrap (active_work s') /\
     (active_work s' < active_work s ->
      exists i w dir,
        l = Worker i /\ threads s !! i = Some w /\
        (pc w = Enumerating dir [] \/
         (pc w = Holding dir /\ demo_fs (search_pattern dir) = None)))).
Proof.
  apply (active_work_counted_exactly_once demo_fs ascii_utf8 demo_cfg 1).
  - apply (state_after_reachable demo_fs ascii_utf8 demo_cfg 1). vm_compute. eauto.
  - vm_compute. discriminate.
Defined.

(** The matched-file counter after a completed run on [demo_fs]. *)
Lemma matched_counter_on_demo_fs :
  let s := state_after demo_fs ascii_utf8 demo_cfg 1 complete_trace in
  file_count (ctx s) = llong_wrap (records_produced s) /\
  (forall i w dir fdata rest,
     threads s !! i = Some w -> pc w = Enumerating dir (fdata :: rest) ->
     is_directory fdata = false ->
     extension_rejects demo_cfg (child_path dir fdata) = false ->
     String.length (ascii_utf8 (child_path dir fdata)) = 0%nat ->
     next demo_fs ascii_utf8 demo_cfg (Worker i) s
     = Some (update s (ctx s) (q_m s) i (at_pc (Enumerating dir rest) w))) /\
  (complete s ->
     Forall (fun w => local_out_buf w = []) (threads s) /\
     records_produced s = Z.of_nat (List.length (out_fp (ctx s))) - 1 /\
     (Z.of_nat (List.length (out_fp (ctx s))) - 1 <= LLONG_MAX ->
      file_count (ctx s) = Z.of_nat (List.length (out_fp (ctx s))) - 1)).
Proof.
  apply (matched_counter_equals_output_lines demo_fs ascii_utf8 demo_cfg 1).
  apply (state_after_reachable demo_fs ascii_utf8 demo_cfg 1). vm_compute. eauto.
Defined.

(** The exit of the worker after a completed run on [demo_fs]. *)
Lemma worker_exit_on_demo_fs :
  let s := state_after demo_fs ascii_utf8 demo_cfg 1 complete_trace in
  (forall i w, threads s !! i = Some w -> pc w = AtWait -> q_m s = None ->
     dir_queue (ctx s) <> [] ->
     exists d q, dir_queue (ctx s) = d :: q /\
                 next demo_fs ascii_utf8 demo_cfg (Worker i) s
                 = Some (update s (set_queue (ctx s) q) None i (at_pc (Holding d) w))) /\
  (forall i w s' w', threads s !! i = Some w -> pc w = AtWait ->
     next demo_fs ascii_utf8 demo_cfg (Worker i) s = Some s' ->
     threads s' !! i = Some w' -> pc w' = FinalFlush ->
     done (ctx s) = true /\ dir_queue (ctx s) = []) /\
  (forall i w, threads s !! i = Some w -> pc w = FinalFlush \/ pc w = Exited ->
     done (ctx s) = true /\ dir_queue (ctx s) = [] /\
     Forall (fun w' => in_flight w' = 0) (threads s)).
Proof.
  apply (worker_exits_only_when_drained demo_fs ascii_utf8 demo_cfg 1).
  - apply demo_int_bounds.
  - vm_compute. discriminate.
  - apply (state_after_reachable demo_fs ascii_utf8 demo_cfg 1). vm_compute. eauto.
Defined.

(** The extension filter on [root\A\a.txt]. *)
Lemma extension_filter_on_demo_fs :
  let dir := L "root\A" in
  let fdata := file_entry "a.txt" in
  (process_entry ascii_utf8 demo_cfg dir fdata
   = Append (record_of ascii_utf8 (child_path dir fdata))
   <-> spec_extension_ok demo_cfg (cFileName fdata) = true) /\
  (process_entry ascii_utf8 demo_cfg dir fdata = Skip
   <-> spec_extension_ok demo_cfg (cFileName fdata) = false) /\
  (~ In dot (cFileName fdata) -> file_types demo_cfg <> [] ->
   process_entry ascii_utf8 demo_cfg dir fdata = Skip).
Proof.
  apply (extension_filter_follows_file_name ascii_utf8 demo_cfg).
  - reflexivity.
  - constructor; [|constructor]. vm_compute. intros [H|[H|[H|[]]]]; discriminate H.
  - vm_compute. reflexivity.
  - vm_compute. lia.
Defined.

(** * The command line *)

(** ** Option names *)

Lemma found_at_0_prefix arg option : found_at_0 arg option = prefix option arg.
Proof.
  unfold found_at_0. destruct arg as [|b arg].
  - destruct option; reflexivity.
  - cbn [index]. destruct (prefix option (String b arg)); [reflexivity|].
    destruct (index 0 option arg); reflexivity.
Qed.

(** An argument on which [find] returns 0 is the option followed by its value. *)
Lemma found_at_0_value arg option :
  found_at_0 arg option = true ->
  arg = (option ++ str_substr arg (String.length option))%string.
Proof.
  rewrite found_at_0_prefix. revert arg.
  induction option as [|a option IH]; intros arg; simpl; [reflexivity|].
  destruct arg as [|b arg]; [discriminate|].
  change (prefix (String a option) (String b arg))
    with (match ascii_dec a b with left _ => prefix option arg | right _ => false end).
  destruct (ascii_dec a b) as [->|]; [|intros H; discriminate H].
  intros H. f_equal. apply IH. exact H.
Qed.

Lemma found_at_0_app option value : found_at_0 (option ++ value) option = true.
Proof.
  rewrite found_at_0_prefix. induction option as [|a option IH]; [destruct value; reflexivity|].
  change (prefix (String a option) (String a option ++ value))
    with (match ascii_dec a a with left _ => prefix option (option ++ value) | right _ => false end).
  destruct (ascii_dec a a); [exact IH | congruence].
Qed.

Lemma str_substr_app option value :
  str_substr (option ++ value) (String.length option) = value.
Proof. induction option as [|a option IH]; simpl; [reflexivity | exact IH]. Qed.

(** An argument that starts with one option starts with no other. *)
Ltac other_option H :=
  rewrite (found_at_0_value _ _ H); rewrite ?found_at_0_prefix; vm_compute; reflexivity.

Lemma buffer_is_no_other_option arg :
  found_at_0 arg "--buffer=" = true ->
  found_at_0 arg "--path=" = false /\ found_at_0 arg "--prefix=" = false.
Proof. intros H. split; other_option H. Qed.

Lemma filetypes_is_no_other_option arg :
  found_at_0 arg "--filetypes=" = true ->
  found_at_0 arg "--path=" = false /\ found_at_0 arg "--prefix=" = false /\
  found_at_0 arg "--buffer=" = false /\ found_at_0 arg "--output=" = false.
Proof. intros H. repeat split; other_option H. Qed.

(** ** One argument *)

Lemma parse_argument_unrecognised stoul arg o :
  recognised arg = false -> parse_argument stoul arg o = Next o.
Proof.
  unfold recognised, parse_argument. intros H.
  repeat (apply orb_false_elim in H; destruct H as [H ?]).
  repeat match goal with E : _ = false |- _ => rewrite E; clear E end.
  reflexivity.
Qed.

Lemma parse_argument_help stoul o : parse_argument stoul "--help" o = Return false o.
Proof. reflexivity. Qed.

Lemma parse_argument_return stoul arg o result o' :
  parse_argument stoul arg o = Return result o' -> arg = "--help".
Proof.
  unfold parse_argument.
  repeat match goal with
         | |- context [if found_at_0 ?a ?b then _ else _] => destruct (found_at_0 a b)
         | |- context [stoul ?x] => destruct (stoul x)
         end; try discriminate.
  destruct (String.eqb_spec arg "--help"); [auto | discriminate].
Qed.

Lemma parse_argument_throw stoul arg o e :
  parse_argument stoul arg o = Throw e <->
  found_at_0 arg "--buffer=" = true /\ stoul (str_substr arg 9) = inl e.
Proof.
  unfold parse_argument.
  destruct (found_at_0 arg "--buffer=") eqn:Hb.
  - destruct (buffer_is_no_other_option arg Hb) as [-> ->].
    destruct (stoul (str_substr arg 9)); split.
    + intros E; inversion E; auto.
    + intros [_ E]; inversion E; reflexivity.
    + discriminate.
    + intros [_ E]; discriminate E.
  - split; [|intros [E _]; discriminate E].
    repeat match goal with
           | |- context [if found_at_0 ?a ?b then _ else _] => destruct (found_at_0 a b)
           | |- context [if String.eqb ?a ?b then _ else _] => destruct (String.eqb a b)
           end; discriminate.
Qed.

Lemma parse_argument_root stoul arg o o' :
  parse_argument stoul arg o = Next o' ->
  ROOT_DIR (config o')
  = if found_at_0 arg "--path=" then widen (str_substr arg 7) else ROOT_DIR (config o).
Proof.
  unfold parse_argument.
  repeat match goal with
         | |- context [if found_at_0 ?a ?b then _ else _] => destruct (found_at_0 a b)
         | |- context [if String.eqb ?a ?b then _ else _] => destruct (String.eqb a b)
         | |- context [stoul ?x] => destruct (stoul x)
         end; intros E; inversion E; reflexivity.
Qed.

(** ** The argument loop *)

Lemma parse_loop_root stoul args o o' :
  parse_loop stoul args o = inr (true, o') ->
  ~ In "--help" args /\ ROOT_DIR (config o') <> [] /\
  ((Forall (fun a => found_at_0 a "--path=" = false) args /\
    ROOT_DIR (config o') = ROOT_DIR (config o)) \/
   exists before value after,
     args = (before ++ ("--path=" ++ value)%string :: after)%list /\
     Forall (fun a => found_at_0 a "--path=" = false) after /\
     ROOT_DIR (config o') = widen value).
Proof.
  revert o. induction args as [|arg args IH]; intros o; simpl.
  - destruct (ROOT_DIR (config o)) eqn:Hr; simpl; intros E; inversion E; subst.
    split; [tauto|]. split; [congruence|]. left. split; [constructor | exact Hr].
  - destruct (parse_argument stoul arg o) as [o1|r o1|e] eqn:Ha; try discriminate.
    + intros E. destruct (IH _ E) as (Hh & Hne & Hroot).
      pose proof (parse_argument_root _ _ _ _ Ha) as Hr1.
      split; [|split; [exact Hne|]].
      * intros [->|Hin]; [|exact (Hh Hin)]. rewrite parse_argument_help in Ha. discriminate.
      * destruct Hroot as [[Hno Heq] | (before & value & after & -> & Hno & Heq)].
        -- destruct (found_at_0 arg "--path=") eqn:Hp.
           ++ right. exists [], (str_substr arg 7), args. split; [|split].
              ** simpl. f_equal. apply (found_at_0_value arg "--path=" Hp).
              ** exact Hno.
              ** rewrite Heq, Hr1. reflexivity.
           ++ left. split; [constructor; assumption | congruence].
        -- right. exists (arg :: before), value, after. auto.
    + intros E. inversion E; subst.
      pose proof (parse_argument_return _ _ _ _ _ Ha) as ->.
      rewrite parse_argument_help in Ha. inversion Ha.
Qed.

(** X14: [parse_arguments] on a default context returns [true] only if no
    argument is [--help] and some argument is [--path=] with a non-empty
    value; the root is then the value of the last such argument. *)
Theorem parsing_succeeds_only_with_a_path stoul argv o :
  parse_arguments stoul argv default_settings = inr (true, o) ->
  ~ In "--help" (tail argv) /\
  exists before value after,
    tail argv = (before ++ ("--path=" ++ value)%string :: after)%list /\
    Forall (fun a => found_at_0 a "--path=" = false) after /\
    value <> "" /\ ROOT_DIR (config o) = widen value.
Proof.
  unfold parse_arguments. intros E.
  destruct (parse_loop_root _ _ _ _ E) as (Hh & Hne & Hroot). split; [exact Hh|].
  destruct Hroot as [[_ Heq] | (before & value & after & Hargs & Hno & Heq)].
  - exfalso. apply Hne. rewrite Heq. reflexivity.
  - exists before, value, after. repeat split; try assumption.
    intros ->. apply Hne. rewrite Heq. reflexivity.
Qed.

Lemma push_extensions_append fuel ft extensions :
  push_extensions fuel ft extensions = (ft ++ push_extensions fuel [] extensions)%list.
Proof.
  revert ft extensions. induction fuel as [|fuel IH]; intros ft extensions; simpl.
  - destruct (Z.eqb _ npos); reflexivity.
  - destruct (Z.eqb _ npos); [reflexivity|].
    rewrite IH. rewrite (IH [_]). rewrite <- app_assoc. reflexivity.
Qed.

Lemma parse_argument_file_types stoul arg o o' :
  parse_argument stoul arg o = Next o' ->
  file_types (config o') = (file_types (config o) ++ extensions_of arg)%list.
Proof.
  unfold parse_argument, extensions_of.
  destruct (found_at_0 arg "--filetypes=") eqn:Hf.
  - destruct (filetypes_is_no_other_option arg Hf) as (-> & -> & -> & ->).
    intros E; inversion E. simpl. apply push_extensions_append.
  - repeat match goal with
           | |- context [if found_at_0 ?a ?b then _ else _] => destruct (found_at_0 a b)
           | |- context [if String.eqb ?a ?b then _ else _] => destruct (String.eqb a b)
           | |- context [stoul ?x] => destruct (stoul x)
           end; intros E; inversion E; simpl; rewrite app_nil_r; reflexivity.
Qed.

(** X15: when [parse_arguments] returns [true], [file_types] holds what it
    held before followed by the extensions of every [--filetypes=] argument,
    in the order of the arguments: repeated options add up. *)
Theorem filetypes_options_accumulate stoul argv o o' :
  parse_arguments stoul argv o = inr (true, o') ->
  file_types (config o') = (file_types (config o) ++ flat_map extensions_of (tail argv))%list.
Proof.
  unfold parse_arguments. generalize (tail argv). intros args. revert o.
  induction args as [|arg args IH]; intros o; simpl.
  - destruct (wempty _); intros E; inversion E. rewrite app_nil_r. reflexivity.
  - destruct (parse_argument stoul arg o) as [o1|r o1|e] eqn:Ha; try discriminate.
    + intros E. rewrite (IH _ E), (parse_argument_file_types _ _ _ _ Ha).
      rewrite <- app_assoc. reflexivity.
    + intros E. inversion E; subst.
      pose proof (parse_argument_return _ _ _ _ _ Ha) as ->.
      rewrite parse_argument_help in Ha. inversion Ha.
Qed.

(** X16: an argument that is none of the five options and not [--help] is
    ignored: the result and the context are the same as without it. *)
Theorem unrecognised_arguments_are_ignored stoul program before arg after o :
  recognised arg = false ->
  parse_arguments stoul (program :: before ++ arg :: after)%list o
  = parse_arguments stoul (program :: before ++ after)%list o.
Proof.
  intros Hu. unfold parse_arguments. simpl tail. revert o.
  induction before as [|b before IH]; intros o; simpl.
  - rewrite (parse_argument_unrecognised _ _ _ Hu). reflexivity.
  - destruct (parse_argument stoul b o); auto.
Qed.

(** X17: [parse_arguments] leaves by an exception exactly when some
    [--buffer=] argument has a value that [std::stoul] rejects, no [--help]
    precedes it and the values of the [--buffer=] arguments before it
    convert; the exception is the one [std::stoul] throws for that value. *)
Theorem only_a_buffer_value_throws stoul argv o e :
  parse_arguments stoul argv o = inl e <->
  exists before arg after,
    tail argv = (before ++ arg :: after)%list /\
    ~ In "--help" before /\
    Forall (fun a => found_at_0 a "--buffer=" = true ->
                     exists v, stoul (str_substr a 9) = inr v) before /\
    found_at_0 arg "--buffer=" = true /\ stoul (str_substr arg 9) = inl e.
Proof.
  unfold parse_arguments. generalize (tail argv). intros args. revert o.
  induction args as [|a args IH]; intros o; cbn [parse_loop].
  - split.
    + destruct (wempty _); discriminate.
    + intros (before & arg & after & E & _). destruct before; discriminate E.
  - destruct (parse_argument stoul a o) as [o1|r o1|e1] eqn:Ha.
    + rewrite IH. split.
      * intros (before & arg & after & -> & Hh & Hb & Hf & Hs).
        exists (a :: before), arg, after. split; [reflexivity|]. split; [|split; [|auto]].
        -- intros [->|Hin]; [|exact (Hh Hin)]. rewrite parse_argument_help in Ha. discriminate.
        -- constructor; [|exact Hb]. intros Hfa.
           destruct (stoul (str_substr a 9)) as [e2|v] eqn:Hsa; [|eauto].
           exfalso. assert (Ht : parse_argument stoul a o = Throw e2)
             by (apply parse_argument_throw; auto).
           congruence.
      * intros (before & arg & after & E & Hh & Hb & Hf & Hs).
        destruct before as [|b before]; simpl in E; inversion E; subst.
        -- exfalso. assert (Ht : parse_argument stoul arg o = Throw e)
             by (apply parse_argument_throw; auto).
           congruence.
        -- exists before, arg, after. inversion Hb; subst.
           split; [reflexivity|]. split; [|auto].
           intros Hin. apply Hh. right. exact Hin.
    + split; [discriminate|].
      intros (before & arg & after & E & Hh & Hb & Hf & Hs).
      pose proof (parse_argument_return _ _ _ _ _ Ha) as ->.
      destruct before as [|b before]; simpl in E; inversion E; subst.
      * vm_compute in Hf. discriminate.
      * exfalso. apply Hh. left. reflexivity.
    + apply parse_argument_throw in Ha. destruct Ha as [Hfa Hsa]. split.
      * intros E. inversion E; subst. exists [], a, args. simpl. auto.
      * intros (before & arg & after & E & Hh & Hb & Hf & Hs).
        destruct before as [|b before]; simpl in E; inversion E; subst.
        -- congruence.
        -- inversion Hb as [|? ? Hconv _]; subst.
           destruct (Hconv Hfa) as [v Hv]. congruence.
Qed.

(** ** The list of extensions *)

Lemma wfind_from_comma s pos :
  (~ In comma s /\ wfind_from (L ",") s pos = npos) \/
  exists a b, s = (a ++ comma :: b)%list /\ ~ In comma a /\
              wfind_from (L ",") s pos = pos + Z.of_nat (List.length a).
Proof.
  change (L ",") with [comma]. revert pos.
  induction s as [|x s IH]; intros pos.
  - left. split; [tauto | reflexivity].
  - cbn [wfind_from starts_with]. unfold wchar_eqb.
    destruct (N.eqb_spec comma x) as [<-|Hx]; simpl andb; cbv iota.
    + right. exists [], s. split; [reflexivity|]. split; [tauto|]. simpl. lia.
    + destruct (IH (pos + 1)) as [[Hno Hf] | (a & b & -> & Ha & Hf)].
      * left. split; [|exact Hf]. intros [E|Hin]; [congruence | exact (Hno Hin)].
      * right. exists (x :: a), b. split; [reflexivity|]. split.
        -- intros [E|Hin]; [congruence | exact (Ha Hin)].
        -- rewrite Hf. simpl List.length. lia.
Qed.

Lemma push_extensions_fields fuel ft extensions :
  (List.length extensions <= fuel)%nat ->
  Z.of_nat (List.length extensions) < size_t_mod ->
  exists fields,
    push_extensions fuel ft extensions = (ft ++ fields)%list /\
    fields <> [] /\
    Forall (fun field => ~ In comma field) fields /\
    join_extensions fields = extensions /\
    List.length fields = S (count_occ N.eq_dec extensions comma).
Proof.
  assert (Hm : size_t_mod = 18446744073709551616) by reflexivity.
  revert ft extensions. induction fuel as [|fuel IH]; intros ft extensions Hfuel Hlen.
  - destruct extensions; [|simpl in Hfuel; lia].
    exists [[]]. repeat split; try discriminate. constructor; [tauto | constructor].
  - cbn [push_extensions]. unfold wfind.
    destruct (wfind_from_comma extensions 0) as [[Hno Hf] | (a & b & -> & Ha & Hf)];
      rewrite Hf.
    + rewrite Z.eqb_refl. exists [extensions]. repeat split; try discriminate.
      * constructor; [exact Hno | constructor].
      * simpl. rewrite count_occ_not_In in Hno. rewrite Hno. reflexivity.
    + rewrite length_app in Hfuel, Hlen. simpl in Hfuel, Hlen.
      destruct (Z.eqb_spec (0 + Z.of_nat (List.length a)) npos) as [E|_];
        [unfold npos in E; lia|].
      replace (Z.to_nat (0 + Z.of_nat (List.length a))) with (List.length a) by lia.
      replace (Z.to_nat (0 + Z.of_nat (List.length a) + 1))
        with (List.length a + 1)%nat by lia.
      rewrite take_app_length.
      replace (a ++ comma :: b)%list with ((a ++ [comma]) ++ b)%list
        by (rewrite <- app_assoc; reflexivity).
      rewrite drop_app_length'; [|rewrite length_app; reflexivity].
      destruct (IH (ft ++ [a])%list b) as (fields & -> & Hne & Hall & Hjoin & Hcount);
        [lia | lia |].
      exists (a :: fields). split; [rewrite <- app_assoc; reflexivity|].
      split; [discriminate|]. split; [constructor; assumption|]. split.
      * destruct fields as [|f fields]; [congruence|].
        cbn [join_extensions]. cbn [join_extensions] in Hjoin. rewrite Hjoin.
        rewrite <- app_assoc. reflexivity.
      * simpl List.length. rewrite Hcount. rewrite !count_occ_app.
        rewrite count_occ_not_In in Ha. rewrite Ha. simpl.
        destruct (N.eq_dec comma comma); [reflexivity | congruence].
Qed.

(** X18: the loop of the [--filetypes=] branch appends to [file_types] the
    fields of the value that are separated by commas: at least one field,
    one more than there are commas, none contains a comma, and joined by
    commas they give back the value.  So an empty value and a trailing comma
    each add an empty extension. *)
Theorem extensions_are_the_comma_separated_fields ft extensions :
  Z.of_nat (List.length extensions) < size_t_mod ->
  exists fields,
    push_extensions (List.length extensions) ft extensions = (ft ++ fields)%list /\
    fields <> [] /\
    Forall (fun field => ~ In comma field) fields /\
    join_extensions fields = extensions /\
    List.length fields = S (count_occ N.eq_dec extensions comma).
Proof. intros Hlen. apply push_extensions_fields; [reflexivity | exact Hlen]. Qed.

(** ** The size of the output buffer *)

(** X19: [--buffer=<n>] changes nothing but the size of the output buffer
    (the root, the prefix, the extensions and the output file stay as they
    are) and sets the flush threshold of the private buffers to
    [n * 1000] bytes, computed in [unsigned long] and rounded down to a
    multiple of 256: the threshold never exceeds [n * 1000], it is less than
    256 bytes below it as long as [n * 1000] fits 32 bits, and it is 0 for
    [n = 0]. *)
Theorem buffer_option_sets_threshold stoul value v o :
  stoul value = inr v -> 0 <= v < ULONG_MOD ->
  exists o',
    parse_argument stoul ("--buffer=" ++ value) o = Next o' /\
    ROOT_DIR (config o') = ROOT_DIR (config o) /\
    PREFIX (config o') = PREFIX (config o) /\
    file_types (config o') = file_types (config o) /\
    OUTPUT_FILE o' = OUTPUT_FILE o /\
    flush_threshold (config o') = 256 * ((v * 1000) mod ULONG_MOD / 256) /\
    flush_threshold (config o') <= v * 1000 /\
    (v <= 4294967 -> v * 1000 - 256 < flush_threshold (config o')) /\
    (v = 0 -> flush_threshold (config o') = 0).
Proof.
  intros Hs Hv.
  pose proof (found_at_0_app "--buffer=" value) as Hb.
  destruct (buffer_is_no_other_option _ Hb) as [Hp1 Hp2].
  pose proof (str_substr_app "--buffer=" value) as Hsub.
  change (String.length "--buffer=") with 9%nat in Hsub.
  eexists. split.
  { unfold parse_argument. rewrite Hp1, Hp2, Hb, Hsub, Hs. reflexivity. }
  unfold flush_threshold. cbn [config OUTPUT_BUFFER_FLUSH_COUNT set_OUTPUT_BUFFER_FLUSH_COUNT
                               ROOT_DIR PREFIX file_types].
  assert (Hm : size_t_mod = 18446744073709551616) by reflexivity.
  assert (Hu : ULONG_MOD = 4294967296) by reflexivity.
  rewrite Hm, Hu in *.
  repeat split; try reflexivity.
  - rewrite Z.mod_small; [lia|].
    pose proof (Z.mod_pos_bound (v * 1000) 4294967296 ltac:(lia)).
    pose proof (Z.div_pos ((v * 1000) mod 4294967296) 256 ltac:(lia) ltac:(lia)).
    pose proof (Z.mul_div_le ((v * 1000) mod 4294967296) 256 ltac:(lia)). lia.
  - pose proof (Z.mod_pos_bound (v * 1000) 4294967296 ltac:(lia)).
    pose proof (Z.div_pos ((v * 1000) mod 4294967296) 256 ltac:(lia) ltac:(lia)).
    pose proof (Z.mul_div_le ((v * 1000) mod 4294967296) 256 ltac:(lia)).
    pose proof (Z.mod_le (v * 1000) 4294967296 ltac:(lia) ltac:(lia)).
    rewrite Z.mod_small by lia. lia.
  - intros Hsmall. rewrite (Z.mod_small (v * 1000)) by lia.
    pose proof (Z.div_pos (v * 1000) 256 ltac:(lia) ltac:(lia)).
    pose proof (Z.mul_div_le (v * 1000) 256 ltac:(lia)).
    pose proof (Z.mul_succ_div_gt (v * 1000) 256 ltac:(lia)).
    rewrite Z.mod_small by lia. lia.
  - intros ->. reflexivity.
Qed.

(** * Configurations and versions *)

(** ** Configurations with the same filters *)

Lemma wcsicmp_sym a b : wcsicmp a b = wcsicmp b a.
Proof.
  revert b. induction a as [|x a IH]; intros [|y b]; simpl; try reflexivity.
  rewrite IH. unfold wchar_eqb. rewrite N.eqb_sym. reflexivity.
Qed.

Lemma wcsicmp_trans a b c : wcsicmp a b = true -> wcsicmp b c = true -> wcsicmp a c = true.
Proof.
  revert b c. induction a as [|x a IH]; intros [|y b] [|z c]; simpl; try discriminate; auto.
  unfold wchar_eqb. rewrite !andb_true_iff, !N.eqb_eq.
  intros [E1 H1] [E2 H2]. split; [congruence | eapply IH; eassumption].
Qed.

Lemma wcsicmp_same_class x a b : wcsicmp a b = true -> wcsicmp x a = wcsicmp x b.
Proof.
  intros Hab. destruct (wcsicmp x a) eqn:Ha.
  - symmetry. eapply wcsicmp_trans; eassumption.
  - destruct (wcsicmp x b) eqn:Hb; [|reflexivity].
    rewrite wcsicmp_sym in Hab.
    rewrite (wcsicmp_trans _ _ _ Hb Hab) in Ha. discriminate.
Qed.

(** Two configurations with the same prefix whose extension lists agree up
    to ASCII case treat every entry alike. *)
Lemma process_entry_same_filters
    (WideCharToMultiByte : wstring -> string) (cfg1 cfg2 : Config) dir fdata :
  PREFIX cfg1 = PREFIX cfg2 ->
  Forall2 (fun a b => wcsicmp a b = true) (file_types cfg1) (file_types cfg2) ->
  process_entry WideCharToMultiByte cfg1 dir fdata
  = process_entry WideCharToMultiByte cfg2 dir fdata.
Proof.
  intros Hpre Hexts. unfold process_entry, nested_prefix_rejects. rewrite Hpre.
  assert (Hm : forall p, extension_match cfg1 p = extension_match cfg2 p).
  { intros p. unfold extension_match, file_ext.
    induction Hexts as [|a b l1 l2 Hab _ IH]; simpl; [reflexivity|].
    rewrite IH, (wcsicmp_same_class _ a b Hab). reflexivity. }
  unfold extension_rejects. rewrite Hm.
  destruct Hexts; reflexivity.
Qed.

Lemma scan_same_filters
    (FindFiles : wstring -> option (list WIN32_FIND_DATAW))
    (WideCharToMultiByte : wstring -> string) (cfg1 cfg2 : Config) h dir :
  PREFIX cfg1 = PREFIX cfg2 ->
  Forall2 (fun a b => wcsicmp a b = true) (file_types cfg1) (file_types cfg2) ->
  scan FindFiles WideCharToMultiByte cfg1 h dir = scan FindFiles WideCharToMultiByte cfg2 h dir.
Proof.
  intros Hpre Hexts. revert dir. induction h as [|h IH]; intros dir; simpl; [reflexivity|].
  destruct (FindFiles (search_pattern dir)) as [entries|]; [|reflexivity].
  induction entries as [|e entries IHe]; simpl; [reflexivity|].
  rewrite IHe. f_equal. unfold entry_lines.
  rewrite (process_entry_same_filters WideCharToMultiByte cfg1 cfg2 dir e Hpre Hexts).
  destruct (process_entry WideCharToMultiByte cfg2 dir e); try reflexivity. apply IH.
Qed.

Lemma seeds_same_prefix
    (FindFiles : wstring -> option (list WIN32_FIND_DATAW)) (cfg1 cfg2 : Config) :
  ROOT_DIR cfg1 = ROOT_DIR cfg2 -> PREFIX cfg1 = PREFIX cfg2 ->
  seeds FindFiles cfg1 = seeds FindFiles cfg2.
Proof.
  intros Hroot Hpre. unfold seeds, initialize_directory_queue. rewrite Hroot.
  destruct (FindFiles (search_pattern (ROOT_DIR cfg2))) as [entries|]; [|reflexivity].
  simpl. rewrite !seed_fold_queue. f_equal.
  induction entries as [|e entries IH]; simpl; [reflexivity|].
  rewrite IH. f_equal. unfold seed_entry, top_level_prefix_ok. rewrite Hroot, Hpre. reflexivity.
Qed.

(** X20: which records a completed run writes depends only on the root, the
    prefix and the extensions up to ASCII case.  Two configurations that
    agree on these write the same records up to order, whatever their buffer
    sizes and their numbers of workers. *)
Theorem output_depends_only_on_filters
    (FindFiles : wstring -> option (list WIN32_FIND_DATAW))
    (WideCharToMultiByte : wstring -> string) (cfg1 cfg2 : Config) h n1 n2 s1 s2 :
  ROOT_DIR cfg1 = ROOT_DIR cfg2 -> PREFIX cfg1 = PREFIX cfg2 ->
  Forall2 (fun a b => wcsicmp a b = true) (file_types cfg1) (file_types cfg2) ->
  tree_depth_le FindFiles h (ROOT_DIR cfg1) = true ->
  Z.of_nat n1 <= INT_MAX -> Z.of_nat n2 <= INT_MAX ->
  Z.of_nat (List.length (seeds FindFiles cfg1)) <= INT_MAX ->
  reachable FindFiles WideCharToMultiByte cfg1 n1 s1 -> complete s1 ->
  reachable FindFiles WideCharToMultiByte cfg2 n2 s2 -> complete s2 ->
  out_fp (ctx s1) ≡ₚ out_fp (ctx s2).
Proof.
  intros Hroot Hpre Hexts Hd Hn1 Hn2 Hs Hr1 Hc1 Hr2 Hc2.
  pose proof (seeds_same_prefix FindFiles cfg1 cfg2 Hroot Hpre) as Hseeds.
  rewrite (complete_output FindFiles WideCharToMultiByte cfg1 h n1 s1) by assumption.
  rewrite (complete_output FindFiles WideCharToMultiByte cfg2 h n2 s2);
    try assumption; [|rewrite <- Hroot; exact Hd | rewrite <- Hseeds; exact Hs].
  unfold expected_lines. rewrite Hseeds. clear Hseeds Hs.
  apply Permutation_cons; [reflexivity|].
  induction (seeds FindFiles cfg2) as [|d ds IH]; simpl; [reflexivity|].
  rewrite IH, (scan_same_filters FindFiles WideCharToMultiByte cfg1 cfg2 h d Hpre Hexts).
  reflexivity.
Qed.

(** ** The two versions *)

(** X21: the filters of the later version only remove.  Whatever an entry
    makes a worker of the later version enqueue or record, it makes a worker
    of [fast_scan4.cpp] enqueue or record as well; every directory the later
    version seeds, [fast_scan4.cpp] seeds too; and when neither a prefix nor
    an extension list is configured, the workers of both versions treat
    every entry alike. *)
Theorem later_version_restricts_fast_scan4
    (WideCharToMultiByte : wstring -> string) (cfg : Config) dir fdata :
  (forall subdir, process_entry WideCharToMultiByte cfg dir fdata = Push subdir ->
                  FastScan4.process_entry WideCharToMultiByte dir fdata = Push subdir) /\
  (forall line, process_entry WideCharToMultiByte cfg dir fdata = Append line ->
                FastScan4.process_entry WideCharToMultiByte dir fdata = Append line) /\
  (forall subdir, seed_entry cfg fdata = Some subdir ->
                  FastScan4.seed_entry cfg fdata = Some subdir) /\
  (PREFIX cfg = [] -> file_types cfg = [] ->
   FastScan4.process_entry WideCharToMultiByte dir fdata
   = match process_entry WideCharToMultiByte cfg dir fdata with
     | ConversionFailed => Skip
     | action => action
     end).
Proof.
  unfold process_entry, FastScan4.process_entry, nested_prefix_rejects, extension_rejects,
    seed_entry, FastScan4.seed_entry, top_level_prefix_ok.
  split; [|split; [|split]].
  - intros subdir.
    repeat match goal with |- context [if ?b then _ else _] => destruct b end;
      intros E; inversion E; reflexivity.
  - intros line.
    repeat match goal with |- context [if ?b then _ else _] => destruct b end;
      intros E; inversion E; reflexivity.
  - intros subdir.
    repeat match goal with |- context [if ?b then _ else _] => destruct b end;
      intros E; inversion E; reflexivity.
  - intros -> ->. simpl.
    repeat match goal with |- context [if ?b then _ else _] => destruct b end; reflexivity.
Qed.

(** * Further properties on the concrete file system *)

(** The worker that dequeued [root\A\locked]. *)
Lemma dequeued_directory_on_demo_fs :
  let s := state_after demo_fs ascii_utf8 demo_cfg 1 holding_locked_trace in
  let w := holding_locked_worker in
  L "root\A\locked" <> [] /\ in_flight w = 1 /\
  next demo_fs ascii_utf8 demo_cfg (Worker 0) s
  = Some (match demo_fs (search_pattern (L "root\A\locked")) with
          | None => update s (mark_complete (ctx s)) (q_m s) 0 (at_pc AtWait w)
          | Some entries =>
              update s (ctx s) (q_m s) 0 (at_pc (Enumerating (L "root\A\locked") entries) w)
          end).
Proof.
  apply (dequeued_directory_is_processed demo_fs ascii_utf8 demo_cfg 1).
  - apply (state_after_reachable demo_fs ascii_utf8 demo_cfg 1). vm_compute. eauto.
  - vm_compute. reflexivity.
  - reflexivity.
Defined.

(** The buffer of the worker that holds two records. *)
Lemma private_buffer_on_demo_fs :
  let s := state_after demo_fs ascii_utf8 demo_cfg 1 holding_locked_trace in
  Forall (fun w => local_out_buf w <> [] ->
                   buf_size (local_out_buf w) < flush_threshold demo_cfg) (threads s) /\
  (flush_threshold demo_cfg = 0 ->
   Forall (fun w => local_out_buf w = []) (threads s) /\
   file_count (ctx s) = llong_wrap (Z.of_nat (List.length (out_fp (ctx s))) - 1)).
Proof.
  apply (private_buffer_stays_below_threshold demo_fs ascii_utf8 demo_cfg 1).
  apply (state_after_reachable demo_fs ascii_utf8 demo_cfg 1). vm_compute. eauto.
Defined.

(** The sink before and after the shutdown of the scan of [demo_fs]. *)
Lemma sink_is_append_only_on_demo_fs :
  let s := state_after demo_fs ascii_utf8 demo_cfg 1 drain_trace in
  let s' := state_after demo_fs ascii_utf8 demo_cfg 1 complete_trace in
  (exists records, out_fp (ctx s) = header :: records) /\
  (exists more, out_fp (ctx s') = (out_fp (ctx s) ++ more)%list).
Proof.
  apply (sink_is_append_only demo_fs ascii_utf8 demo_cfg 1).
  - apply (state_after_reachable demo_fs ascii_utf8 demo_cfg 1). vm_compute. eauto.
  - apply (run_steps demo_fs ascii_utf8 demo_cfg [Main; Main; Main; Worker 0; Worker 0; Main]).
    vm_compute. reflexivity.
Defined.

(** What is written and buffered in the run that hangs. *)
Lemma partial_output_on_demo_fs :
  let s := state_after demo_fs ascii_utf8 demo_cfg 1 lost_wakeup_trace in
  (out_fp (ctx s) ++ flat_map local_out_buf (threads s))%list
  ⊆+ header :: map (record_of ascii_utf8) (matched_files demo_fs ascii_utf8 demo_cfg 3).
Proof.
  apply (partial_output_is_sound demo_fs ascii_utf8 demo_cfg 3 1).
  - vm_compute. reflexivity.
  - apply demo_int_bounds.
  - vm_compute. discriminate.
  - apply (state_after_reachable demo_fs ascii_utf8 demo_cfg 1). vm_compute. eauto.
Defined.

(** Nothing is outstanding in the run that hangs. *)
Lemma detection_on_demo_fs :
  let s := state_after demo_fs ascii_utf8 demo_cfg 1 lost_wakeup_trace in
  dir_queue (ctx s) = [] /\ active_dir_count (ctx s) = 0 /\
  (out_fp (ctx s) ++ flat_map local_out_buf (threads s))%list
  ≡ₚ header :: map (record_of ascii_utf8) (matched_files demo_fs ascii_utf8 demo_cfg 3).
Proof.
  apply (nothing_is_outstanding_after_detection demo_fs ascii_utf8 demo_cfg 3 1).
  - vm_compute. reflexivity.
  - apply demo_int_bounds.
  - vm_compute. discriminate.
  - apply (state_after_reachable demo_fs ascii_utf8 demo_cfg 1). vm_compute. eauto.
  - vm_compute. discriminate.
Defined.

(** The run that hangs can still complete. *)
Lemma completion_on_demo_fs :
  let s := state_after demo_fs ascii_utf8 demo_cfg 1 lost_wakeup_trace in
  exists s', steps demo_fs ascii_utf8 demo_cfg s s' /\ complete s'.
Proof.
  apply (completion_stays_reachable demo_fs ascii_utf8 demo_cfg 3 1).
  - vm_compute. reflexivity.
  - lia.
  - apply demo_int_bounds.
  - vm_compute. discriminate.
  - apply (state_after_reachable demo_fs ascii_utf8 demo_cfg 1). vm_compute. eauto.
Defined.

(** The scan of [demo_fs] without workers. *)
Lemma no_worker_on_demo_fs :
  let s := main_start demo_fs demo_cfg 0 in
  s = main_start demo_fs demo_cfg 0 /\ main_pc s = Polling /\ ~ complete s /\
  next demo_fs ascii_utf8 demo_cfg Main s = Some s /\
  forall l, l <> Main -> next demo_fs ascii_utf8 demo_cfg l s = None.
Proof.
  apply (no_worker_no_completion demo_fs ascii_utf8 demo_cfg).
  - vm_compute. discriminate.
  - vm_compute. discriminate.
  - apply steps_refl.
Defined.

(** The start of the scan of [demo_fs] with two workers. *)
Lemma workers_start_on_demo_fs :
  (seeds demo_fs demo_cfg <> [] ->
   fst (initialize_directory_queue demo_fs demo_cfg opened) = true /\
   main_start demo_fs demo_cfg 2
   = {| ctx := {| dir_queue := seeds demo_fs demo_cfg;
                  active_dir_count := Z.of_nat (List.length (seeds demo_fs demo_cfg));
                  done := false; out_fp := [header]; file_count := 0 |};
        q_m := None; threads := replicate 2 fresh_worker; main_pc := Polling |}) /\
  (seeds demo_fs demo_cfg = [] ->
   fst (initialize_directory_queue demo_fs demo_cfg opened) = false /\
   main_start demo_fs demo_cfg 2
   = {| ctx := opened; q_m := None; threads := []; main_pc := Closed |} /\
   forall s, reachable demo_fs ascii_utf8 demo_cfg 2 s -> s = main_start demo_fs demo_cfg 2).
Proof.
  apply (workers_start_iff_seeded demo_fs ascii_utf8 demo_cfg 2).
  vm_compute. discriminate.
Defined.

(** The state of the run that hangs. *)
Lemma lost_wakeup_blocks_on_demo_fs :
  let s := state_after demo_fs ascii_utf8 demo_cfg 1 lost_wakeup_trace in
  (exists l s', next demo_fs ascii_utf8 demo_cfg l s = Some s' /\ advances l s s') \/
  (complete s /\ forall l, next demo_fs ascii_utf8 demo_cfg l s = None) \/
  (main_pc s = Joining /\ done (ctx s) = true /\
   Forall (fun w => pc w = Blocked \/ pc w = Exited) (threads s) /\
   Exists (fun w => pc w = Blocked) (threads s)).
Proof.
  apply (only_a_lost_wakeup_blocks demo_fs ascii_utf8 demo_cfg 1).
  - lia.
  - apply (state_after_reachable demo_fs ascii_utf8 demo_cfg 1). vm_compute. eauto.
Defined.

(** The subdirectory [sub] of [root\A] under the prefix "A". *)
Lemma nested_prefix_on_demo_fs :
  let dir := L "root\A" in
  let fdata := dir_entry "sub" in
  (process_entry ascii_utf8 demo_cfg dir fdata = Push (child_path dir fdata) <->
   PREFIX demo_cfg = [] \/
   exists a b, child_path dir fdata = (a ++ PREFIX demo_cfg ++ b)%list) /\
  (process_entry ascii_utf8 demo_cfg dir fdata <> Push (child_path dir fdata) ->
   process_entry ascii_utf8 demo_cfg dir fdata = Skip) /\
  (nested_prefix_rejects demo_cfg dir = false ->
   process_entry ascii_utf8 demo_cfg dir fdata = Push (child_path dir fdata)).
Proof.
  apply (nested_prefix_filter_is_substring_test ascii_utf8 demo_cfg).
  - reflexivity.
  - reflexivity.
  - vm_compute. reflexivity.
Defined.

(** A directory whose name starts with a dot. *)
Lemma dot_entries_on_demo_fs :
  let dir := L "root" in
  let fdata := dir_entry ".git" in
  (cFileName fdata = [dot] \/ cFileName fdata = [dot; dot] ->
   process_entry ascii_utf8 plain_cfg dir fdata = Skip /\ seed_entry plain_cfg fdata = None) /\
  (PREFIX plain_cfg = [] -> cFileName fdata <> [dot] -> cFileName fdata <> [dot; dot] ->
   process_entry ascii_utf8 plain_cfg dir fdata = Push (child_path dir fdata) /\
   seed_entry plain_cfg fdata = Some (child_path (ROOT_DIR plain_cfg) fdata)).
Proof.
  apply (only_dot_and_dotdot_are_skipped ascii_utf8 plain_cfg).
  - reflexivity.
  - vm_compute. intros [H|[H|[H|[H|[]]]]]; discriminate H.
Defined.

(** The seeding of [demo_fs] under the prefix "A". *)
Lemma seeding_on_demo_fs :
  let entries := [dir_entry "."; dir_entry ".."; dir_entry "A"; dir_entry "B";
                  file_entry "file1.txt"] in
  In (L "root\A") (seeds demo_fs demo_cfg) <->
  exists fdata, In fdata entries /\ is_directory fdata = true /\
    cFileName fdata <> [dot] /\ cFileName fdata <> [dot; dot] /\
    (exists rest, map towlower (cFileName fdata)
                  = (map towlower (PREFIX demo_cfg) ++ rest)%list) /\
    L "root\A" = child_path (ROOT_DIR demo_cfg) fdata.
Proof.
  apply (seeding_selects_by_prefix demo_fs demo_cfg).
  - reflexivity.
  - repeat constructor; vm_compute; intuition discriminate.
Defined.

(** A file whose name ends with a '.', under a filter with one empty extension. *)
Lemma empty_extension_on_demo_fs :
  let dir := L "root\A" in
  let fdata := file_entry "notes." in
  (extension_rejects empty_extension_cfg (child_path dir fdata) = false <->
   exists stem, cFileName fdata = (stem ++ [dot])%list) /\
  ((forall stem, cFileName fdata <> (stem ++ [dot])%list) ->
   process_entry ascii_utf8 empty_extension_cfg dir fdata = Skip).
Proof.
  apply (empty_extension_selects_trailing_dot ascii_utf8 empty_extension_cfg).
  - reflexivity.
  - reflexivity.
  - vm_compute. reflexivity.
Defined.

(** The scan of [demo_fs] for "txt" and the scan for "TXT" without
    buffering. *)
Lemma filters_on_demo_fs :
  let s1 := state_after demo_fs ascii_utf8 demo_cfg 1 complete_trace in
  let s2 := state_after demo_fs ascii_utf8 upper_case_cfg 1 complete_trace in
  out_fp (ctx s1) ≡ₚ out_fp (ctx s2).
Proof.
  apply (output_depends_only_on_filters demo_fs ascii_utf8 demo_cfg upper_case_cfg 3 1 1).
  - reflexivity.
  - reflexivity.
  - repeat constructor.
  - vm_compute. reflexivity.
  - apply demo_int_bounds.
  - apply demo_int_bounds.
  - vm_compute. discriminate.
  - apply (state_after_reachable demo_fs ascii_utf8 demo_cfg 1). vm_compute. eauto.
  - vm_compute. reflexivity.
  - apply (state_after_reachable demo_fs ascii_utf8 upper_case_cfg 1). vm_compute. eauto.
  - vm_compute. reflexivity.
Defined.

(** The command line [scanner --path=root --prefix=A --filetypes=txt]
    gives the configuration [demo_cfg]. *)
Lemma parsing_on_demo_argv :
  ~ In "--help" (tail demo_argv) /\
  exists before value after,
    tail demo_argv = (before ++ ("--path=" ++ value)%string :: after)%list /\
    Forall (fun a => found_at_0 a "--path=" = false) after /\
    value <> "" /\ ROOT_DIR (config {| config := demo_cfg; OUTPUT_FILE := "file_list.csv" |})
                   = widen value.
Proof.
  apply (parsing_succeeds_only_with_a_path std_stoul demo_argv).
  vm_compute. reflexivity.
Defined.

(** Two [--filetypes=] options. *)
Lemma filetypes_on_two_options :
  let argv := ["scanner"; "--path=root"; "--filetypes=doc,docx"; "--filetypes=pdf"] in
  let o' := {| config := {| ROOT_DIR := L "root"; PREFIX := [];
                            OUTPUT_BUFFER_FLUSH_COUNT := 5000;
                            file_types := [L "doc"; L "docx"; L "pdf"] |};
               OUTPUT_FILE := "file_list.csv" |} in
  file_types (config o')
  = (file_types (config default_settings) ++ flat_map extensions_of (tail argv))%list.
Proof.
  apply (filetypes_options_accumulate std_stoul).
  vm_compute. reflexivity.
Defined.

(** An option name in the wrong case. *)
Lemma unrecognised_argument_on_demo_argv :
  parse_arguments std_stoul
    ("scanner" :: ["--path=root"] ++ "--Prefix=A" :: ["--filetypes=txt"])%list default_settings
  = parse_arguments std_stoul
      ("scanner" :: ["--path=root"] ++ ["--filetypes=txt"])%list default_settings.
Proof.
  apply (unrecognised_arguments_are_ignored std_stoul).
  vm_compute. reflexivity.
Defined.

(** The value [doc,docx,pdf]. *)
Lemma extensions_of_three_fields :
  exists fields,
    push_extensions (List.length (L "doc,docx,pdf")) [] (L "doc,docx,pdf")
    = ([] ++ fields)%list /\
    fields <> [] /\
    Forall (fun field => ~ In comma field) fields /\
    join_extensions fields = L "doc,docx,pdf" /\
    List.length fields = S (count_occ N.eq_dec (L "doc,docx,pdf") comma).
Proof.
  apply (extensions_are_the_comma_separated_fields [] (L "doc,docx,pdf")).
  vm_compute. reflexivity.
Defined.

(** [--buffer=64] *)
Lemma buffer_option_on_64 :
  exists o',
    parse_argument std_stoul ("--buffer=" ++ "64") default_settings = Next o' /\
    ROOT_DIR (config o') = ROOT_DIR (config default_settings) /\
    PREFIX (config o') = PREFIX (config default_settings) /\
    file_types (config o') = file_types (config default_settings) /\
    OUTPUT_FILE o' = OUTPUT_FILE default_settings /\
    flush_threshold (config o') = 256 * ((64 * 1000) mod ULONG_MOD / 256) /\
    flush_threshold (config o') <= 64 * 1000 /\
    (64 <= 4294967 -> 64 * 1000 - 256 < flush_threshold (config o')) /\
    (64 = 0 -> flush_threshold (config o') = 0).
Proof.
  apply (buffer_option_sets_threshold std_stoul "64" 64 default_settings).
  - vm_compute. reflexivity.
  - vm_compute. split; [discriminate | reflexivity].
Defined.
